(** * multi_pool_alloc.hpp: a two-level bitmap pool allocator

    Shallow embedding of [mpa::pool_t] and [mpa::multi_pool_t] and the
    properties of the allocate / deallocate paths.

    Conventions.
    - A [WordType] value is a [Z] in [0, 2^word_bits); the stores of
      [set_bit] and [clear_bit] wrap to that width.
    - An address is a [Z]; [T* data] of the pool object at address [this]
      starts at [this + data_offset] and one element takes [sizeof_T] bytes.
      [sizeof_T], [data_offset] (= offsetof(pool_t, data)) and
      [sizeof_pool] (= sizeof(pool_t<T>)) are parameters of the development.
    - [malloc n] is the address [malloc] returns when [new_block], its only
      caller, runs with n blocks present ([0] is the null pointer), and
      [push_back_ok n] tells whether [memory_blocks.push_back] then obtains
      its storage ([std::vector] throws [std::bad_alloc] otherwise).
    - The storage a block points to is kept with the block record: [pools]
      is the array of [pools_in_block] pool objects at address [ptr].
    - [ctz] is undefined on 0 (the source says so); an undefined step, an
      out-of-bounds index and a store through the null pointer are all
      reported as "undefined". *)

From Stdlib Require Import ZArith Lia Bool.
From stdpp Require Import base option list.

Local Open Scope Z_scope.

(** Ways a call can end: a normal return, an allocation failure that
    propagates to the caller as an exception (with the state it leaves), a
    failed [assert] of a debug build, undefined behaviour. *)
Inductive outcome (S A : Type) : Type :=
| Return (a : A) (s : S)
| AllocFailure (s : S)
| AssertFailed
| Undefined.

Arguments Return {S A} a s.
Arguments AllocFailure {S A} s.
Arguments AssertFailed {S A}.
Arguments Undefined {S A}.

(** [uint32_t(x)] and the conversion of a [ptrdiff_t] to [size_t]. *)
Definition u32 (x : Z) : Z := x mod 2 ^ 32.
Definition u64 (x : Z) : Z := x mod 2 ^ 64.

Record pool_t : Type := mk_pool {
  unused_words : Z;
  unallocated_slots : list Z
}.

Record block_t : Type := mk_block {
  ptr : Z;
  unmaxed_pools : Z;
  pools : list pool_t
}.

(** [multi_pool_t::memory_blocks]. *)
Abbreviation multi_pool_t := (list block_t).

(** ** An instance: [multi_pool_t<uint64_t>]

    [WordType = u64_t], so [word_bits = 64]; [sizeof(T) = 8]; [data]
    follows [unused_words] and the 64 slot words, at offset 8 + 64 * 8 = 520;
    [sizeof(pool_t<T>) = 520 + 4096 * 8 = 33288]. *)

(** A [malloc] that hands out four blocks, 4 MiB apart, and then refuses. *)
Definition u64_heap (n : nat) : Z :=
  if (n <? 4)%nat then 65536 + Z.of_nat n * 4194304 else 0.

(** A [push_back] that always obtains its storage. *)
Definition u64_push_back (n : nat) : bool := true.

(** A [malloc] that hands out one block and then refuses. *)
Definition one_block_heap (n : nat) : Z :=
  if (n =? 0)%nat then 65536 else 0.

Section Allocator.

(** [pool_t::word_bits = sizeof(WordType) * 8]. *)
Variable word_bits : Z.
Variables sizeof_T data_offset sizeof_pool : Z.
Variable malloc : nat -> Z.
Variable push_back_ok : nat -> bool.

Definition pool_size : Z := word_bits * word_bits.
Definition pools_in_block : Z := word_bits.

(** [~WordType(0)]. *)
Definition all_ones : Z := Z.ones word_bits.

Definition wrap (n : Z) : Z := n mod 2 ^ word_bits.

(** ** namespace impl *)

Definition set_bit (n bit : Z) : Z := wrap (Z.lor n (Z.shiftl 1 bit)).

Definition clear_bit (n bit : Z) : Z :=
  wrap (Z.land n (Z.lnot (Z.shiftl 1 bit))).

Definition test_bit (n bit : Z) : bool :=
  negb (Z.land n (wrap (Z.shiftl 1 bit)) =? 0).

(** The portable [ctz]: [while (!((T(1) << bits) & n)) bits++;].
    On a non-zero word the loop stops before [word_bits] rounds. *)
Fixpoint ctz_loop (fuel : nat) (n bits : Z) : Z :=
  match fuel with
  | O => bits
  | S fuel' =>
      if Z.land (Z.shiftl 1 bits) n =? 0
      then ctz_loop fuel' n (bits + 1)
      else bits
  end.

(** "These ctz functions should not be used with n = 0!" *)
Definition ctz (n : Z) : option Z :=
  if n =? 0 then None else Some (ctz_loop (Z.to_nat word_bits) n 0).

(** The overload for a [WordType] narrower than 32 bits:
    [return ctz<u32_t>(u32_t(n));]. *)
Definition ctz_sub32 (n : Z) : option Z :=
  let m := u32 n in
  if m =? 0 then None else Some (ctz_loop 32 m 0).

(** The GNUC variants: [__builtin_ctzl(n)] for [u64_t] and
    [__builtin_ctz(n)] for [u32_t]. A built-in counts the trailing zero
    bits of its argument, an [unsigned long] of [long_bits] bits (an
    [unsigned int] of 32 bits) to which [n] is converted, and its result is
    undefined on 0. *)
Definition builtin_ctz (bits x : Z) : option Z :=
  if x =? 0 then None else Some (ctz_loop (Z.to_nat bits) x 0).

Definition ctz_gnuc (long_bits n : Z) : option Z :=
  if word_bits =? 64 then builtin_ctz long_bits (n mod 2 ^ long_bits)
  else builtin_ctz 32 (n mod 2 ^ 32).

(** ** pool_t *)

(** [&data[idx]] of the pool object at [this]. *)
Definition data_addr (this idx : Z) : Z :=
  this + data_offset + idx * sizeof_T.

Definition pool_init : pool_t :=
  {| unused_words := all_ones;
     unallocated_slots := replicate (Z.to_nat word_bits) all_ones |}.

Definition pool_allocate (this : Z) (p : pool_t) : option (Z * pool_t) :=
  bucket ← ctz (unused_words p);
  w ← unallocated_slots p !! Z.to_nat bucket;
  slot ← ctz w;
  let w' := clear_bit w slot in
  let unused' :=
    if w' =? 0 then clear_bit (unused_words p) bucket
    else unused_words p in
  Some (data_addr this (u32 (bucket * word_bits + slot)),
        {| unused_words := unused';
           unallocated_slots :=
             <[Z.to_nat bucket := w']> (unallocated_slots p) |}).

Definition pool_deallocate (this p : Z) (pl : pool_t) : option pool_t :=
  let index := u32 ((p - data_addr this 0) / sizeof_T) in
  let bucket := index / word_bits in
  let slot := index mod word_bits in
  w ← unallocated_slots pl !! Z.to_nat bucket;
  let w' := set_bit w slot in
  let unused' :=
    if w' =? all_ones then set_bit (unused_words pl) bucket
    else unused_words pl in
  Some {| unused_words := unused';
          unallocated_slots :=
            <[Z.to_nat bucket := w']> (unallocated_slots pl) |}.

Definition pool_full (p : pool_t) : bool := unused_words p =? 0.

(** ** multi_pool_t *)

(** Address of [pools[pool_idx]] of the block: [ptr + pool_idx] in units
    of [sizeof(pool_t<T>)]. *)
Definition pool_addr (blk : block_t) (pool_idx : Z) : Z :=
  ptr blk + pool_idx * sizeof_pool.

(** [push_back] either throws, leaving [memory_blocks] as it was, or
    appends the record. The result of [malloc] is used as it is:
    [pools[0].init()] stores through it, which is undefined for the null
    pointer. *)
Definition new_block (mp : multi_pool_t) : outcome multi_pool_t unit :=
  let memory_block :=
    {| ptr := malloc (length mp);
       unmaxed_pools := all_ones;
       pools := replicate (Z.to_nat pools_in_block) pool_init |} in
  if negb (push_back_ok (length mp)) then AllocFailure mp
  else if ptr memory_block =? 0 then Undefined
  else Return tt (mp ++ [memory_block]).

(** [multi_pool_t::multi_pool_t()]. *)
Definition multi_pool_new : outcome multi_pool_t unit := new_block [].

(** Body of the [if (memory_block.unmaxed_pools)] branch, block [i]. *)
Definition allocate_in (i : nat) (blk : block_t) (mp : multi_pool_t)
  : outcome multi_pool_t Z :=
  match ctz (unmaxed_pools blk) with
  | None => Undefined
  | Some pool_idx =>
      match pools blk !! Z.to_nat pool_idx with
      | None => Undefined
      | Some pool =>
          match pool_allocate (pool_addr blk pool_idx) pool with
          | None => Undefined
          | Some (result, pool') =>
              let unmaxed' :=
                if pool_full pool'
                then clear_bit (unmaxed_pools blk) pool_idx
                else unmaxed_pools blk in
              Return result
                (<[i := {| ptr := ptr blk;
                           unmaxed_pools := unmaxed';
                           pools := <[Z.to_nat pool_idx := pool']>
                                      (pools blk) |}]> mp)
          end
      end
  end.

(** The statements after the loop: [new_block()] and
    [memory_blocks.back().ptr -> allocate()]; [unmaxed_pools] of the new
    block is not touched here. *)
Definition allocate_fresh (mp : multi_pool_t) : outcome multi_pool_t Z :=
  match new_block mp with
  | Return _ mp' =>
      match last mp' with
      | None => Undefined
      | Some blk =>
          match pools blk !! 0%nat with
          | None => Undefined
          | Some pool =>
              match pool_allocate (ptr blk) pool with
              | None => Undefined
              | Some (result, pool') =>
                  Return result
                    (<[pred (length mp') :=
                         {| ptr := ptr blk;
                            unmaxed_pools := unmaxed_pools blk;
                            pools := <[0%nat := pool']> (pools blk) |}]>
                       mp')
              end
          end
      end
  | AllocFailure s => AllocFailure s
  | AssertFailed => AssertFailed
  | Undefined => Undefined
  end.

(** [for (i = size - 1; i < size; --i)]: [n] blocks are still to be
    visited, the next one is block [n - 1]. *)
Fixpoint allocate_loop (n : nat) (mp : multi_pool_t)
  : outcome multi_pool_t Z :=
  match n with
  | O => allocate_fresh mp
  | S i =>
      match mp !! i with
      | None => Undefined
      | Some memory_block =>
          if unmaxed_pools memory_block =? 0
          then allocate_loop i mp
          else allocate_in i memory_block mp
      end
  end.

(** [debug] is true when [assert] is compiled in (NDEBUG not defined). *)
Definition allocate (debug : bool) (n : Z) (mp : multi_pool_t)
  : outcome multi_pool_t Z :=
  if debug && negb (n =? 1) then AssertFailed
  else allocate_loop (length mp) mp.

(** Body of the [if (pool_idx < pools_in_block)] branch, block [i]. *)
Definition deallocate_in (debug : bool) (i : nat) (blk : block_t)
    (pool_idx p : Z) (mp : multi_pool_t) : outcome multi_pool_t unit :=
  if debug && negb (u64 (p - pool_addr blk pool_idx) <? sizeof_pool)
  then AssertFailed
  else
    let unmaxed' := set_bit (unmaxed_pools blk) pool_idx in
    match pools blk !! Z.to_nat pool_idx with
    | None => Undefined
    | Some pool =>
        match pool_deallocate (pool_addr blk pool_idx) p pool with
        | None => Undefined
        | Some pool' =>
            Return tt
              (<[i := {| ptr := ptr blk;
                         unmaxed_pools := unmaxed';
                         pools := <[Z.to_nat pool_idx := pool']>
                                    (pools blk) |}]> mp)
        end
    end.

Fixpoint deallocate_loop (debug : bool) (n : nat) (p : Z)
    (mp : multi_pool_t) : outcome multi_pool_t unit :=
  match n with
  | O => Return tt mp
  | S i =>
      match mp !! i with
      | None => Undefined
      | Some memory_block =>
          let pool_idx := u64 (p - ptr memory_block) / sizeof_pool in
          if pool_idx <? pools_in_block
          then deallocate_in debug i memory_block pool_idx p mp
          else deallocate_loop debug i p mp
      end
  end.

Definition deallocate (debug : bool) (p : Z) (n : Z) (mp : multi_pool_t)
  : outcome multi_pool_t unit :=
  deallocate_loop debug (length mp) p mp.

(** [multi_pool_t::~multi_pool_t()]: the arguments of the calls of [free],
    in call order. *)
Definition multi_pool_delete (mp : multi_pool_t) : list Z :=
  fold_left (fun freed memory_block => freed ++ [ptr memory_block]) mp [].

(** ** Words and bits *)

Definition in_word (w : Z) : Prop := 0 <= w < 2 ^ word_bits.

(** [k] is the index of the lowest set bit of [w]. *)
Definition lowest_set_bit (w k : Z) : Prop :=
  0 <= k < word_bits /\ Z.testbit w k = true /\
  forall j, 0 <= j < k -> Z.testbit w j = false.

(** [unallocated_slots[k]], 0 outside the array. *)
Definition slot_word (p : pool_t) (k : Z) : Z :=
  default 0 (unallocated_slots p !! Z.to_nat k).

(** Shape of a pool object: [word_bits] words, all of [WordType]. *)
Definition pool_wf (p : pool_t) : Prop :=
  in_word (unused_words p) /\
  length (unallocated_slots p) = Z.to_nat word_bits /\
  forall k, 0 <= k < word_bits -> in_word (slot_word p k).

(** A bucket offered by [unused_words] has a free slot. *)
Definition pool_sound (p : pool_t) : Prop :=
  forall k, 0 <= k < word_bits ->
    Z.testbit (unused_words p) k = true -> slot_word p k <> 0.

(** A bucket with every slot free is offered by [unused_words]. *)
Definition pool_complete (p : pool_t) : Prop :=
  forall k, 0 <= k < word_bits ->
    slot_word p k = all_ones -> Z.testbit (unused_words p) k = true.

(** Bit of slot [idx] of a pool: true when the slot is free. *)
Definition pool_free (p : pool_t) (idx : Z) : bool :=
  Z.testbit (slot_word p (idx / word_bits)) (idx mod word_bits).

(** Invariant P1 of the pool. *)
Definition P1 (p : pool_t) : Prop :=
  forall k, 0 <= k < word_bits ->
    (Z.testbit (unused_words p) k = true <-> slot_word p k <> 0).

(** [n] calls of [pool_t::allocate] in a row; the pointers in call order. *)
Fixpoint pool_allocate_n (n : nat) (this : Z) (p : pool_t)
  : option (list Z * pool_t) :=
  match n with
  | O => Some ([], p)
  | S n' =>
      '(qs, p1) ← pool_allocate_n n' this p;
      '(q, p2) ← pool_allocate this p1;
      Some (qs ++ [q], p2)
  end.

(** The states a pool goes through from [init()], with the pointers
    handed out and not yet given back: [allocate] is called on a pool that
    is not full, [deallocate] with one of those pointers. *)
Inductive pool_reachable (this : Z) : pool_t -> list Z -> Prop :=
| pool_reach_init : pool_reachable this pool_init []
| pool_reach_allocate p live q p' :
    pool_reachable this p live ->
    pool_full p = false ->
    pool_allocate this p = Some (q, p') ->
    pool_reachable this p' (q :: live)
| pool_reach_deallocate p live q p' :
    pool_reachable this p live ->
    In q live ->
    pool_deallocate this q p = Some p' ->
    pool_reachable this p' (List.remove Z.eq_dec q live).

(** The pool after its first [n] slots were handed out: slot [k*b + s]
    is free iff its index is at least [n], and bucket [k] is offered iff
    it still has such a slot. *)
Definition filled (n : Z) (p : pool_t) : Prop :=
  pool_wf p /\
  (forall k, 0 <= k < word_bits ->
     Z.testbit (unused_words p) k = (n <? (k + 1) * word_bits)) /\
  (forall k s, 0 <= k < word_bits -> 0 <= s < word_bits ->
     Z.testbit (slot_word p k) s = (n <=? k * word_bits + s)).

(** ** Multi-pool states *)

(** [new_block] with n blocks present gets what it asks for. *)
Definition granted (n : nat) : Prop :=
  push_back_ok n = true /\ malloc n <> 0.

(** The block appended by the n-th [new_block]. *)
Definition fresh_block (n : nat) : block_t :=
  {| ptr := malloc n;
     unmaxed_pools := all_ones;
     pools := replicate (Z.to_nat pools_in_block) pool_init |}.

(** [pools[i]] of a block. *)
Definition pool_at (blk : block_t) (i : Z) : pool_t :=
  default (mk_pool 0 []) (pools blk !! Z.to_nat i).

(** Address of [data[idx]] in pool [i] of block [n]. *)
Definition slot_addr (n : nat) (i idx : Z) : Z :=
  data_addr (malloc n + i * sizeof_pool) idx.

(** Shape of a block: it is the n-th one, its storage was obtained, and
    it holds [pools_in_block] well-shaped pools. *)
Definition block_wf (n : nat) (blk : block_t) : Prop :=
  ptr blk = malloc n /\ malloc n <> 0 /\
  in_word (unmaxed_pools blk) /\
  length (pools blk) = Z.to_nat pools_in_block /\
  forall i, 0 <= i < pools_in_block -> pool_wf (pool_at blk i).

Definition mp_wf (mp : multi_pool_t) : Prop :=
  forall n blk, mp !! n = Some blk -> block_wf n blk.

(** Invariant B1 of a block. *)
Definition B1 (blk : block_t) : Prop :=
  forall i, 0 <= i < pools_in_block ->
    (Z.testbit (unmaxed_pools blk) i = true <->
     pool_full (pool_at blk i) = false).

(** The two directions of B1. *)
Definition block_sound (blk : block_t) : Prop :=
  forall i, 0 <= i < pools_in_block ->
    Z.testbit (unmaxed_pools blk) i = true ->
    pool_full (pool_at blk i) = false.

Definition block_complete (blk : block_t) : Prop :=
  forall i, 0 <= i < pools_in_block ->
    pool_full (pool_at blk i) = false ->
    Z.testbit (unmaxed_pools blk) i = true.

(** What every operation keeps. *)
Definition block_inv (n : nat) (blk : block_t) : Prop :=
  block_wf n blk /\ block_complete blk /\
  forall i, 0 <= i < pools_in_block ->
    pool_sound (pool_at blk i) /\ pool_complete (pool_at blk i).

Definition mp_inv (mp : multi_pool_t) : Prop :=
  forall n blk, mp !! n = Some blk -> block_inv n blk.

(** What [allocate] keeps and relies on. *)
Definition mp_sound (mp : multi_pool_t) : Prop :=
  forall n blk, mp !! n = Some blk -> block_sound blk.

(** Bit of slot [idx] of pool [i] of block [n]; a slot of a block that
    does not exist yet counts as free. *)
Definition free_bit (mp : multi_pool_t) (n : nat) (i idx : Z) : bool :=
  match mp !! n with
  | Some blk => pool_free (pool_at blk i) idx
  | None => true
  end.

(** A well-behaved [allocate]: it returns the address of a slot that was
    free, marks exactly that slot as taken, appends at most one block and
    keeps the invariants ([mp_sound] when it held before). *)
Definition alloc_good (mp : multi_pool_t) (out : outcome multi_pool_t Z)
  : Prop :=
  exists n i idx mp',
    out = Return (slot_addr n i idx) mp' /\
    (n < length mp')%nat /\
    0 <= i < pools_in_block /\ 0 <= idx < pool_size /\
    mp_inv mp' /\ (mp_sound mp -> mp_sound mp') /\
    (length mp <= length mp' <= S (length mp))%nat /\
    free_bit mp n i idx = true /\
    free_bit mp' n i idx = false /\
    forall n' i' idx',
      0 <= i' < pools_in_block -> 0 <= idx' < pool_size ->
      n' <> n \/ i' <> i \/ idx' <> idx ->
      free_bit mp' n' i' idx' = free_bit mp n' i' idx'.

(** A slot named by block, pool and index, and its address. *)
Definition coord_ok (mp : multi_pool_t) (c : nat * Z * Z) : Prop :=
  (c.1.1 < length mp)%nat /\
  0 <= c.1.2 < pools_in_block /\ 0 <= c.2 < pool_size.

Definition coord_addr (c : nat * Z * Z) : Z := slot_addr c.1.1 c.1.2 c.2.

(** The states a multi-pool goes through from its construction, with the
    pointers handed out and not yet given back. *)
Inductive reachable (debug : bool) : multi_pool_t -> list Z -> Prop :=
| reach_new mp :
    multi_pool_new = Return tt mp -> reachable debug mp []
| reach_allocate mp live q mp' :
    reachable debug mp live ->
    allocate debug 1 mp = Return q mp' ->
    reachable debug mp' (q :: live)
| reach_deallocate mp live q mp' :
    reachable debug mp live ->
    In q live ->
    deallocate debug q 1 mp = Return tt mp' ->
    reachable debug mp' (List.remove Z.eq_dec q live).

(** No pool of a block present in both states has a different
    [unused_words] in [mp'] than in [mp]. *)
Definition same_unused (mp mp' : multi_pool_t) : Prop :=
  forall n blk blk' i,
    mp !! n = Some blk -> mp' !! n = Some blk' ->
    0 <= i < pools_in_block ->
    unused_words (pool_at blk' i) = unused_words (pool_at blk i).

(** The first block while its pool 0 is being filled: pool 0 is [p], the
    other pools are untouched. *)
Definition first_block (unmaxed : Z) (p : pool_t) : block_t :=
  {| ptr := malloc 0;
     unmaxed_pools := unmaxed;
     pools := <[0%nat := p]>
                (replicate (Z.to_nat pools_in_block) pool_init) |}.

(** Number of slots of pool [i] that are handed out once the first [m]
    slots of a block are. *)
Definition pool_share (m i : Z) : Z :=
  Z.max 0 (Z.min pool_size (m - i * pool_size)).

(** The first block, alone, after its first [m] slots were handed out. *)
Definition block_filled (m : Z) (blk : block_t) : Prop :=
  block_wf 0 blk /\
  (forall i, 0 <= i < pools_in_block ->
     Z.testbit (unmaxed_pools blk) i = (m <? (i + 1) * pool_size)) /\
  (forall i, 0 <= i < pools_in_block ->
     filled (pool_share m i) (pool_at blk i)).

(** A pool and the first block with every slot handed out. *)
Definition exhausted_pool : pool_t :=
  {| unused_words := 0;
     unallocated_slots := replicate (Z.to_nat word_bits) 0 |}.

Definition exhausted_block : block_t :=
  {| ptr := malloc 0;
     unmaxed_pools := 0;
     pools := replicate (Z.to_nat pools_in_block) exhausted_pool |}.

(** [k] calls of [allocate(1)] in a row; the pointers in call order. *)
Fixpoint allocate_n (debug : bool) (k : nat) (mp : multi_pool_t)
  : outcome multi_pool_t (list Z) :=
  match k with
  | O => Return [] mp
  | S k' =>
      match allocate_n debug k' mp with
      | Return ps mp1 =>
          match allocate debug 1 mp1 with
          | Return q mp2 => Return (ps ++ [q]) mp2
          | AllocFailure s => AllocFailure s
          | AssertFailed => AssertFailed
          | Undefined => Undefined
          end
      | AllocFailure s => AllocFailure s
      | AssertFailed => AssertFailed
      | Undefined => Undefined
      end
  end.

(** [deallocate(q, 1)] for every pointer of the list, in list order. *)
Fixpoint deallocate_all (debug : bool) (qs : list Z) (mp : multi_pool_t)
  : outcome multi_pool_t unit :=
  match qs with
  | [] => Return tt mp
  | q :: qs' =>
      match deallocate debug q 1 mp with
      | Return _ mp1 => deallocate_all debug qs' mp1
      | AllocFailure s => AllocFailure s
      | AssertFailed => AssertFailed
      | Undefined => Undefined
      end
  end.

(** Number of slots of a block. *)
Definition block_size : Z := pools_in_block * pool_size.

(** Block [n] after its first [m] slots were handed out. *)
Definition block_filled_at (n : nat) (m : Z) (blk : block_t) : Prop :=
  block_wf n blk /\
  (forall i, 0 <= i < pools_in_block ->
     Z.testbit (unmaxed_pools blk) i = (m <? (i + 1) * pool_size)) /\
  (forall i, 0 <= i < pools_in_block ->
     filled (pool_share m i) (pool_at blk i)).

(** Block [n] with every slot handed out. *)
Definition exhausted_block_at (n : nat) : block_t :=
  {| ptr := malloc n;
     unmaxed_pools := 0;
     pools := replicate (Z.to_nat pools_in_block) exhausted_pool |}.

(** The multi-pool after the first [k] allocations of a run without
    deallocations: the blocks before the last one are used up, the last
    one has handed out the remaining slots, at least one of them unless
    it is the block of the constructor. *)
Definition mp_filled (k : Z) (mp : multi_pool_t) : Prop :=
  exists blk,
    mp = map exhausted_block_at (seq 0 (Z.to_nat ((k - 1) / block_size)))
           ++ [blk] /\
    block_filled_at (Z.to_nat ((k - 1) / block_size))
      (k - Z.of_nat (Z.to_nat ((k - 1) / block_size)) * block_size) blk.

(** * Properties *)

(** [WordType] is [u32_t] or [u64_t]: the widths at which [~WordType(0)]
    and the shifts are computed in [WordType] itself. *)
Hypothesis word_bits_u32_u64 : word_bits = 32 \/ word_bits = 64.

(** Layout of [pool_t<T>]: elements have a size, and [data] lies inside
    the object. *)
Hypothesis sizeof_T_pos : 0 < sizeof_T.
Hypothesis data_offset_nonneg : 0 <= data_offset.
Hypothesis data_in_pool : data_offset + pool_size * sizeof_T <= sizeof_pool.

(** [malloc]: a block that was obtained lies in the 64-bit address
    space, and two blocks obtained by different calls do not overlap. *)
Hypothesis malloc_range :
  forall n, malloc n <> 0 ->
    0 < malloc n /\ malloc n + pools_in_block * sizeof_pool <= 2 ^ 64.
Hypothesis malloc_fresh :
  forall n m, n <> m -> malloc n <> 0 -> malloc m <> 0 ->
    malloc n + pools_in_block * sizeof_pool <= malloc m \/
    malloc m + pools_in_block * sizeof_pool <= malloc n.

(** Linear arithmetic at each of the two word widths (the general
    assumptions on the layout and on [malloc] are put aside: what a goal
    needs of them is in its own context), and the same after deciding the
    comparisons of the goal. *)
Ltac word_lia :=
  try clear data_in_pool; try clear malloc_range; try clear malloc_fresh;
  unfold pool_size, pools_in_block in *;
  destruct word_bits_u32_u64 as [Hwb|Hwb]; rewrite Hwb in *; lia.

Ltac cmp_cases :=
  repeat match goal with
    | |- context [?a <? ?b] => destruct (Z.ltb_spec a b)
    | |- context [?a <=? ?b] => destruct (Z.leb_spec a b)
    | |- context [?a =? ?b] => destruct (Z.eqb_spec a b)
    end;
  simpl; try reflexivity; try (exfalso; word_lia).

Lemma word_bits_pos : 0 < word_bits.
Proof. destruct word_bits_u32_u64; lia. Qed.

Lemma wrap_in_word n : in_word (wrap n).
Proof.
  unfold in_word, wrap. pose proof word_bits_pos.
  apply Z.mod_pos_bound. apply Z.pow_pos_nonneg; lia.
Qed.

Lemma testbit_wrap n j :
  Z.testbit (wrap n) j = (j <? word_bits) && Z.testbit n j.
Proof.
  unfold wrap. pose proof word_bits_pos.
  destruct (Z.ltb_spec j word_bits).
  - now rewrite Z.mod_pow2_bits_low.
  - rewrite Z.mod_pow2_bits_high; [reflexivity | lia].
Qed.

Lemma in_word_high w j : in_word w -> word_bits <= j -> Z.testbit w j = false.
Proof.
  intros Hw Hj. pose proof word_bits_pos.
  rewrite <- (Z.mod_small w (2 ^ word_bits)) by exact Hw.
  apply Z.mod_pow2_bits_high. lia.
Qed.

Lemma in_word_ext w1 w2 :
  in_word w1 -> in_word w2 ->
  (forall j, 0 <= j < word_bits -> Z.testbit w1 j = Z.testbit w2 j) ->
  w1 = w2.
Proof.
  intros H1 H2 H. apply Z.bits_inj'. intros j Hj.
  destruct (Z.lt_ge_cases j word_bits).
  - apply H. lia.
  - rewrite !in_word_high; auto.
Qed.

Lemma testbit_one_shl k j : 0 <= k -> Z.testbit (Z.shiftl 1 k) j = (j =? k).
Proof.
  intros Hk. rewrite Z.shiftl_1_l, Z.pow2_bits_eqb by lia.
  apply Z.eqb_sym.
Qed.

Lemma testbit_set_bit w k j :
  0 <= k ->
  Z.testbit (set_bit w k) j = (j <? word_bits) && (Z.testbit w j || (j =? k)).
Proof.
  intros Hk. unfold set_bit.
  now rewrite testbit_wrap, Z.lor_spec, testbit_one_shl.
Qed.

Lemma testbit_clear_bit w k j :
  0 <= k -> 0 <= j ->
  Z.testbit (clear_bit w k) j =
  (j <? word_bits) && (Z.testbit w j && negb (j =? k)).
Proof.
  intros Hk Hj. unfold clear_bit.
  now rewrite testbit_wrap, Z.land_spec, Z.lnot_spec, testbit_one_shl.
Qed.

Lemma set_bit_in_word w k : in_word (set_bit w k).
Proof. apply wrap_in_word. Qed.

Lemma clear_bit_in_word w k : in_word (clear_bit w k).
Proof. apply wrap_in_word. Qed.

Lemma testbit_all_ones j :
  Z.testbit all_ones j = (0 <=? j) && (j <? word_bits).
Proof. pose proof word_bits_pos. apply Z.testbit_ones. lia. Qed.

Lemma all_ones_in_word : in_word all_ones.
Proof.
  unfold in_word, all_ones. pose proof word_bits_pos.
  rewrite Z.ones_equiv.
  assert (0 < 2 ^ word_bits) by (apply Z.pow_pos_nonneg; lia). lia.
Qed.

Lemma all_ones_nonzero : all_ones <> 0.
Proof.
  intros H. pose proof word_bits_pos.
  assert (Hb : Z.testbit all_ones 0 = true).
  { rewrite testbit_all_ones.
    apply andb_true_intro; split; [apply Z.leb_le | apply Z.ltb_lt]; lia. }
  rewrite H, Z.bits_0 in Hb. discriminate.
Qed.

Lemma word_nonzero_bit w :
  in_word w -> w <> 0 -> exists j, 0 <= j < word_bits /\ Z.testbit w j = true.
Proof.
  intros Hw Hnz. unfold in_word in Hw. pose proof word_bits_pos.
  exists (Z.log2 w). split.
  - split; [apply Z.log2_nonneg | apply Z.log2_lt_pow2; lia].
  - apply Z.bit_log2. lia.
Qed.

(** ** ctz *)

Lemma ctz_test n k :
  0 <= k -> (Z.land (Z.shiftl 1 k) n =? 0) = negb (Z.testbit n k).
Proof.
  intros Hk. destruct (Z.testbit n k) eqn:E; simpl.
  - apply Z.eqb_neq. intros H0.
    assert (Hb : Z.testbit (Z.land (Z.shiftl 1 k) n) k = true).
    { rewrite Z.land_spec, testbit_one_shl, Z.eqb_refl, E by lia.
      reflexivity. }
    rewrite H0, Z.bits_0 in Hb. discriminate.
  - apply Z.eqb_eq, Z.bits_inj'. intros j Hj.
    rewrite Z.land_spec, testbit_one_shl, Z.bits_0 by lia.
    destruct (Z.eqb_spec j k); subst; simpl; auto.
Qed.

(** [test_bit] reads the bit, for a bit index inside the word. *)
Lemma test_bit_spec n k :
  0 <= k < word_bits -> test_bit n k = Z.testbit n k.
Proof.
  intros Hk. unfold test_bit, wrap.
  rewrite Z.mod_small.
  - rewrite Z.land_comm, ctz_test by lia. apply negb_involutive.
  - rewrite Z.shiftl_1_l. split; [apply Z.pow_nonneg; lia |].
    apply Z.pow_lt_mono_r; lia.
Qed.

Lemma ctz_loop_spec n fuel :
  forall bits,
    0 <= bits ->
    (exists j, bits <= j < bits + Z.of_nat fuel /\ Z.testbit n j = true) ->
    bits <= ctz_loop fuel n bits < bits + Z.of_nat fuel /\
    Z.testbit n (ctz_loop fuel n bits) = true /\
    forall j, bits <= j < ctz_loop fuel n bits -> Z.testbit n j = false.
Proof.
  induction fuel as [|fuel IH]; intros bits Hb [j [Hj Hset]].
  - lia.
  - simpl ctz_loop. rewrite ctz_test by lia.
    destruct (Z.testbit n bits) eqn:E; simpl.
    + split; [lia | split; [exact E | intros; lia]].
    + assert (Hne : j <> bits) by (intros ->; congruence).
      destruct (IH (bits + 1)) as (Hr & Ht & Hlow).
      * lia.
      * exists j. split; [lia | exact Hset].
      * split; [lia | split; [exact Ht |]].
        intros i Hi. destruct (Z.eq_dec i bits) as [->|]; [exact E|].
        apply Hlow. lia.
Qed.

Lemma ctz_zero : ctz 0 = None.
Proof. reflexivity. Qed.

Lemma ctz_spec n :
  in_word n -> n <> 0 -> exists k, ctz n = Some k /\ lowest_set_bit n k.
Proof.
  intros Hw Hnz. pose proof word_bits_pos.
  destruct (word_nonzero_bit n Hw Hnz) as [j [Hj Hset]].
  destruct (ctz_loop_spec n (Z.to_nat word_bits) 0) as (Hr & Ht & Hlow).
  - lia.
  - exists j. split; [lia | exact Hset].
  - exists (ctz_loop (Z.to_nat word_bits) n 0). split.
    + unfold ctz. destruct (Z.eqb_spec n 0); [contradiction | reflexivity].
    + split; [lia | split; [exact Ht | exact Hlow]].
Qed.

Lemma lowest_set_bit_unique w k1 k2 :
  lowest_set_bit w k1 -> lowest_set_bit w k2 -> k1 = k2.
Proof.
  intros (R1 & T1 & L1) (R2 & T2 & L2).
  destruct (Z.lt_trichotomy k1 k2) as [Hlt | [Heq | Hgt]]; [| exact Heq |].
  - rewrite L2 in T1 by lia. discriminate.
  - rewrite L1 in T2 by lia. discriminate.
Qed.

Lemma lowest_set_bit_nonzero w k : lowest_set_bit w k -> w <> 0.
Proof. intros (_ & T & _) ->. rewrite Z.bits_0 in T. discriminate. Qed.

Lemma ctz_lowest w k : in_word w -> lowest_set_bit w k -> ctz w = Some k.
Proof.
  intros Hw Hk.
  destruct (ctz_spec w Hw (lowest_set_bit_nonzero w k Hk)) as [k' [E Hk']].
  rewrite E. f_equal. eapply lowest_set_bit_unique; eauto.
Qed.

Lemma ctz_Some_nonzero w k : ctz w = Some k -> w <> 0.
Proof. unfold ctz. destruct (Z.eqb_spec w 0); [discriminate | auto]. Qed.

(** ** pool_t *)

Lemma lookup_slot p k :
  pool_wf p -> 0 <= k < word_bits ->
  unallocated_slots p !! Z.to_nat k = Some (slot_word p k).
Proof.
  intros (_ & Hlen & _) Hk. unfold slot_word.
  destruct (lookup_lt_is_Some_2 (unallocated_slots p) (Z.to_nat k))
    as [w Hw]; [lia |].
  now rewrite Hw.
Qed.

Lemma slot_word_insert u l k w j :
  0 <= k -> 0 <= j -> (Z.to_nat k < length l)%nat ->
  slot_word (mk_pool u (<[Z.to_nat k := w]> l)) j =
  if j =? k then w else slot_word (mk_pool u l) j.
Proof.
  intros Hk Hj Hlen. unfold slot_word; simpl.
  destruct (Z.eqb_spec j k) as [->|Hne].
  - now rewrite list_lookup_insert_eq.
  - rewrite list_lookup_insert_ne by lia. reflexivity.
Qed.

Lemma u32_small x : 0 <= x < 2 ^ 32 -> u32 x = x.
Proof. intros H. unfold u32. now apply Z.mod_small. Qed.

Lemma slot_index_small k s :
  0 <= k < word_bits -> 0 <= s < word_bits ->
  u32 (k * word_bits + s) = k * word_bits + s.
Proof.
  intros Hk Hs. apply u32_small.
  destruct word_bits_u32_u64 as [Hb|Hb]; rewrite Hb in *; lia.
Qed.

Lemma testbit_clear_bit_word w k j :
  in_word w -> 0 <= k -> 0 <= j ->
  Z.testbit (clear_bit w k) j = Z.testbit w j && negb (j =? k).
Proof.
  intros Hw Hk Hj. rewrite testbit_clear_bit by lia.
  destruct (Z.ltb_spec j word_bits); [reflexivity |].
  rewrite in_word_high by auto. reflexivity.
Qed.

Lemma testbit_set_bit_word w k j :
  in_word w -> 0 <= k < word_bits ->
  Z.testbit (set_bit w k) j = Z.testbit w j || (j =? k).
Proof.
  intros Hw Hk. rewrite testbit_set_bit by lia.
  destruct (Z.ltb_spec j word_bits); [reflexivity |].
  rewrite in_word_high by auto.
  destruct (Z.eqb_spec j k); [lia | reflexivity].
Qed.

Lemma pool_full_false p : pool_full p = false -> unused_words p <> 0.
Proof. unfold pool_full. intros H. now apply Z.eqb_neq. Qed.

(** What one [allocate] does, with the two bit scans named. *)
Lemma pool_allocate_eq this p k s :
  pool_wf p ->
  lowest_set_bit (unused_words p) k ->
  lowest_set_bit (slot_word p k) s ->
  pool_allocate this p =
  Some (data_addr this (k * word_bits + s),
        {| unused_words :=
             if clear_bit (slot_word p k) s =? 0
             then clear_bit (unused_words p) k else unused_words p;
           unallocated_slots :=
             <[Z.to_nat k := clear_bit (slot_word p k) s]>
               (unallocated_slots p) |}).
Proof.
  intros Hwf Hk Hs. pose proof Hwf as (Hu & Hlen & Hws).
  unfold pool_allocate.
  rewrite (ctz_lowest _ k Hu Hk); simpl.
  destruct Hk as (Hkr & _). rewrite (lookup_slot p k Hwf Hkr); simpl.
  rewrite (ctz_lowest _ s (Hws k Hkr) Hs); simpl.
  destruct Hs as (Hsr & _). now rewrite slot_index_small.
Qed.

(** C1. In a pool that is not full, [allocate] returns the address of
    [data[k*b + s]], [k] the lowest set bit of [unused_words] and [s] the
    lowest set bit of [unallocated_slots[k]]; bit [s] of that word is
    cleared, every other slot word is kept, and bit [k] of [unused_words]
    is cleared exactly when the word became zero (no other bit of
    [unused_words] changes). *)
Theorem pool_allocate_lowest_bits this p :
  pool_wf p -> pool_sound p -> pool_full p = false ->
  exists k s p',
    lowest_set_bit (unused_words p) k /\
    lowest_set_bit (slot_word p k) s /\
    pool_allocate this p = Some (data_addr this (k * word_bits + s), p') /\
    (forall j, 0 <= j ->
       Z.testbit (slot_word p' k) j =
       Z.testbit (slot_word p k) j && negb (j =? s)) /\
    (forall k', 0 <= k' < word_bits -> k' <> k ->
       slot_word p' k' = slot_word p k') /\
    (Z.testbit (unused_words p') k = false <-> slot_word p' k = 0) /\
    (forall j, 0 <= j -> j <> k ->
       Z.testbit (unused_words p') j = Z.testbit (unused_words p) j).
Proof.
  intros Hwf Hsound Hnf. pose proof Hwf as (Hu & Hlen & Hws).
  destruct (ctz_spec _ Hu (pool_full_false p Hnf)) as (k & _ & Hk).
  pose proof Hk as (Hkr & Hkset & _).
  destruct (ctz_spec _ (Hws k Hkr) (Hsound k Hkr Hkset)) as (s & _ & Hs).
  pose proof Hs as (Hsr & _).
  eexists k, s, _. split; [exact Hk | split; [exact Hs |]].
  split; [apply pool_allocate_eq; assumption |].
  assert (Hpk : forall u, slot_word
            (mk_pool u (<[Z.to_nat k := clear_bit (slot_word p k) s]>
                          (unallocated_slots p))) k
          = clear_bit (slot_word p k) s).
  { intros u. rewrite slot_word_insert, Z.eqb_refl by lia. reflexivity. }
  split; [| split; [| split]].
  - intros j Hj. rewrite Hpk. apply testbit_clear_bit_word; auto; lia.
  - intros k' Hk' Hne. rewrite slot_word_insert by lia.
    destruct (Z.eqb_spec k' k); [contradiction |].
    destruct p; reflexivity.
  - rewrite Hpk. simpl unused_words.
    destruct (Z.eqb_spec (clear_bit (slot_word p k) s) 0) as [Hz|Hnz].
    + split; [auto | intros _].
      rewrite testbit_clear_bit_word, Z.eqb_refl by (auto; lia).
      apply andb_false_r.
    + split; [intros Hb; congruence | contradiction].
  - intros j Hj Hne. simpl unused_words.
    destruct (clear_bit (slot_word p k) s =? 0); [| reflexivity].
    rewrite testbit_clear_bit_word by (auto; lia).
    destruct (Z.eqb_spec j k); [contradiction | apply andb_true_r].
Qed.

Lemma pool_init_wf : pool_wf pool_init.
Proof.
  pose proof word_bits_pos. unfold pool_wf, pool_init, slot_word; simpl.
  split; [apply all_ones_in_word | split; [apply length_replicate |]].
  intros k Hk. rewrite lookup_replicate_2 by lia. apply all_ones_in_word.
Qed.

Lemma slot_word_init k :
  0 <= k < word_bits -> slot_word pool_init k = all_ones.
Proof.
  intros Hk. unfold slot_word, pool_init; simpl.
  now rewrite lookup_replicate_2 by lia.
Qed.

Lemma pool_init_filled : filled 0 pool_init.
Proof.
  split; [apply pool_init_wf | split].
  - intros k Hk. simpl. rewrite testbit_all_ones. cmp_cases.
  - intros k s Hk Hs. rewrite slot_word_init, testbit_all_ones by auto.
    cmp_cases.
Qed.

Lemma in_word_0 : in_word 0.
Proof.
  pose proof word_bits_pos. split; [lia | apply Z.pow_pos_nonneg; lia].
Qed.

Lemma filled_full n p : 0 <= n -> filled n p -> pool_full p = (pool_size <=? n).
Proof.
  intros Hn (Hwf & Hu & _). destruct Hwf as (Hin & _). unfold pool_full.
  pose proof word_bits_pos.
  destruct (Z.leb_spec pool_size n) as [Hge|Hlt].
  - apply Z.eqb_eq, in_word_ext; [exact Hin | apply in_word_0 |].
    intros j Hj. rewrite Hu, Z.bits_0 by lia. cmp_cases.
  - apply Z.eqb_neq. intros H0.
    assert (Hb : Z.testbit (unused_words p) (word_bits - 1) = true).
    { rewrite Hu by lia. cmp_cases. }
    rewrite H0, Z.bits_0 in Hb. discriminate.
Qed.

Lemma filled_word_zero n p k :
  filled n p -> 0 <= k < word_bits -> (k + 1) * word_bits <= n ->
  slot_word p k = 0.
Proof.
  intros ((_ & _ & Hws) & _ & Hs) Hk Hn.
  apply in_word_ext; [auto | apply in_word_0 |].
  intros j Hj. rewrite Hs, Z.bits_0 by auto. cmp_cases.
Qed.

Lemma filled_step this n p :
  0 <= n < pool_size -> filled n p ->
  exists p', pool_allocate this p = Some (data_addr this n, p') /\
             filled (n + 1) p'.
Proof.
  intros Hn (Hwf & Hu & Hs). pose proof Hwf as (Hin & Hlen & Hws).
  pose proof word_bits_pos as Hpos.
  set (k0 := n / word_bits). set (s0 := n mod word_bits).
  assert (Hdm : n = word_bits * k0 + s0) by (apply Z.div_mod; lia).
  assert (Hs0 : 0 <= s0 < word_bits) by (apply Z.mod_pos_bound; lia).
  assert (Hk0 : 0 <= k0 < word_bits).
  { split; [apply Z.div_pos; lia |].
    apply Z.div_lt_upper_bound; [lia | unfold pool_size in Hn; lia]. }
  clearbody k0 s0.
  assert (Hlk : lowest_set_bit (unused_words p) k0).
  { split; [exact Hk0 | split].
    - rewrite Hu by lia. cmp_cases.
    - intros j Hj. rewrite Hu by lia. cmp_cases. }
  assert (Hls : lowest_set_bit (slot_word p k0) s0).
  { split; [exact Hs0 | split].
    - rewrite Hs by lia. cmp_cases.
    - intros j Hj. rewrite Hs by lia. cmp_cases. }
  eexists. split.
  { rewrite (pool_allocate_eq this p k0 s0 Hwf Hlk Hls).
    do 2 f_equal. unfold data_addr. f_equal. f_equal. lia. }
  set (w' := clear_bit (slot_word p k0) s0).
  assert (Hw'bits : forall j, 0 <= j < word_bits ->
            Z.testbit w' j = (n + 1 <=? k0 * word_bits + j)).
  { intros j Hj. unfold w'.
    rewrite testbit_clear_bit_word, Hs by (auto; lia). cmp_cases. }
  assert (Hsw : forall u k, 0 <= k < word_bits ->
            slot_word (mk_pool u (<[Z.to_nat k0 := w']> (unallocated_slots p))) k
            = if k =? k0 then w' else slot_word p k).
  { intros u k Hk. rewrite slot_word_insert by lia.
    destruct p; reflexivity. }
  split; [| split].
  - split; [| split].
    + simpl. destruct (w' =? 0); [apply clear_bit_in_word | exact Hin].
    + simpl. now rewrite length_insert.
    + intros k Hk. rewrite Hsw by auto.
      destruct (k =? k0); [apply clear_bit_in_word | auto].
  - intros k Hk. simpl unused_words.
    destruct (Z.eqb_spec w' 0) as [Hz|Hnz].
    + assert (Hb : Z.testbit w' (word_bits - 1) = false)
        by (rewrite Hz; apply Z.bits_0).
      rewrite Hw'bits in Hb by lia. apply Z.leb_gt in Hb.
      rewrite testbit_clear_bit_word, Hu by (auto; lia). cmp_cases.
    + destruct (word_nonzero_bit w' (clear_bit_in_word _ _) Hnz)
        as (j & Hj & Hset).
      rewrite Hw'bits in Hset by lia. apply Z.leb_le in Hset.
      rewrite Hu by lia. cmp_cases.
  - intros k s Hk Hsr. rewrite Hsw by auto.
    destruct (Z.eqb_spec k k0) as [->|Hne].
    + apply Hw'bits; lia.
    + rewrite Hs by lia. cmp_cases.
Qed.

Lemma pool_allocate_n_filled this (n : nat) :
  Z.of_nat n <= pool_size ->
  exists p,
    pool_allocate_n n this pool_init =
      Some (map (fun i => data_addr this (Z.of_nat i)) (seq 0 n), p) /\
    filled (Z.of_nat n) p.
Proof.
  induction n as [|n IH]; intros Hn.
  - exists pool_init. split; [reflexivity | apply pool_init_filled].
  - destruct IH as (p & Hrun & Hfill); [lia |].
    destruct (filled_step this (Z.of_nat n) p) as (p' & Halloc & Hfill');
      [lia | exact Hfill |].
    exists p'. split.
    + rewrite seq_S, map_app. simpl pool_allocate_n.
      rewrite Hrun; simpl. now rewrite Halloc.
    + now replace (Z.of_nat (S n)) with (Z.of_nat n + 1) by lia.
Qed.

(** C7. From [init()], [n <= b*b] calls of [allocate] in a row all
    succeed and hand out [data[0]], ..., [data[n-1]]; after them [full()]
    holds exactly when [n = b*b], and a further [allocate] on the pool
    that has handed out [b*b] slots is undefined ([ctz] of 0). *)
Theorem pool_capacity_exact this (n : nat) :
  Z.of_nat n <= pool_size ->
  exists p,
    pool_allocate_n n this pool_init =
      Some (map (fun i => data_addr this (Z.of_nat i)) (seq 0 n), p) /\
    pool_full p = (Z.of_nat n =? pool_size) /\
    (Z.of_nat n = pool_size -> pool_allocate this p = None).
Proof.
  intros Hn.
  destruct (pool_allocate_n_filled this n Hn) as (p & Hrun & Hfill).
  exists p. split; [exact Hrun |].
  assert (Hfull : pool_full p = (Z.of_nat n =? pool_size)).
  { rewrite (filled_full (Z.of_nat n) p) by (auto; lia).
    destruct (Z.leb_spec pool_size (Z.of_nat n)),
             (Z.eqb_spec (Z.of_nat n) pool_size); auto; lia. }
  split; [exact Hfull |].
  intros Heq. rewrite Heq, Z.eqb_refl in Hfull.
  unfold pool_full in Hfull. apply Z.eqb_eq in Hfull.
  unfold pool_allocate. now rewrite Hfull.
Qed.

(** ** Addresses *)

Lemma pool_size_pos : 0 < pool_size.
Proof. pose proof word_bits_pos. unfold pool_size. nia. Qed.

Lemma sizeof_pool_pos : 0 < sizeof_pool.
Proof. pose proof pool_size_pos. nia. Qed.

(** A slot lies in the [data] array of its pool. *)
Lemma slot_in_data idx :
  0 <= idx < pool_size ->
  0 <= idx * sizeof_T /\ data_offset + idx * sizeof_T < sizeof_pool.
Proof. intros Hidx. nia. Qed.

Lemma slot_addr_offset n i idx :
  slot_addr n i idx - malloc n = i * sizeof_pool + (data_offset + idx * sizeof_T).
Proof. unfold slot_addr, data_addr. lia. Qed.

(** A slot lies in the storage of its block. *)
Lemma slot_in_block n i idx :
  0 <= i < pools_in_block -> 0 <= idx < pool_size ->
  malloc n <= slot_addr n i idx < malloc n + pools_in_block * sizeof_pool.
Proof.
  intros Hi Hidx. pose proof (slot_in_data idx Hidx).
  pose proof (slot_addr_offset n i idx). pose proof sizeof_pool_pos. nia.
Qed.

(** The pool index computed for the owning block. *)
Lemma pool_idx_owner n i idx :
  malloc n <> 0 -> 0 <= i < pools_in_block -> 0 <= idx < pool_size ->
  u64 (slot_addr n i idx - malloc n) / sizeof_pool = i.
Proof.
  intros Hn Hi Hidx. pose proof (slot_in_data idx Hidx).
  pose proof (slot_in_block n i idx Hi Hidx).
  pose proof (malloc_range n Hn). pose proof sizeof_pool_pos.
  unfold u64. rewrite Z.mod_small by lia.
  rewrite slot_addr_offset. symmetry.
  apply (Z.div_unique _ _ i (data_offset + idx * sizeof_T)); lia.
Qed.

(** The pool index computed for any other block is out of range. *)
Lemma pool_idx_foreign n m i idx :
  n <> m -> malloc n <> 0 -> malloc m <> 0 ->
  0 <= i < pools_in_block -> 0 <= idx < pool_size ->
  pools_in_block <= u64 (slot_addr n i idx - malloc m) / sizeof_pool.
Proof.
  intros Hne Hn Hm Hi Hidx.
  pose proof (slot_in_block n i idx Hi Hidx).
  pose proof (malloc_range n Hn). pose proof (malloc_range m Hm).
  pose proof sizeof_pool_pos.
  apply Z.div_le_lower_bound; [lia |]. unfold u64.
  destruct (malloc_fresh n m Hne Hn Hm).
  - rewrite <- (Z.mod_add _ 1) by lia. rewrite Z.mod_small; lia.
  - rewrite Z.mod_small; lia.
Qed.

(** ** Deallocation *)

Lemma slot_coords idx :
  0 <= idx < pool_size ->
  0 <= idx / word_bits < word_bits /\ 0 <= idx mod word_bits < word_bits.
Proof.
  intros Hidx. pose proof word_bits_pos. unfold pool_size in Hidx.
  split; [split |].
  - apply Z.div_pos; lia.
  - apply Z.div_lt_upper_bound; lia.
  - apply Z.mod_pos_bound; lia.
Qed.

(** What [pool_t::deallocate] does with the address of [data[idx]]. *)
Lemma pool_deallocate_eq this idx p :
  pool_wf p -> 0 <= idx < pool_size ->
  pool_deallocate this (data_addr this idx) p =
  Some {| unused_words :=
            if set_bit (slot_word p (idx / word_bits)) (idx mod word_bits)
               =? all_ones
            then set_bit (unused_words p) (idx / word_bits)
            else unused_words p;
          unallocated_slots :=
            <[Z.to_nat (idx / word_bits) :=
                set_bit (slot_word p (idx / word_bits)) (idx mod word_bits)]>
              (unallocated_slots p) |}.
Proof.
  intros Hwf Hidx. destruct (slot_coords idx Hidx) as (Hk & Hs).
  unfold pool_deallocate.
  assert (Hindex : u32 ((data_addr this idx - data_addr this 0) / sizeof_T)
                   = idx).
  { unfold data_addr. replace (_ - _) with (idx * sizeof_T) by lia.
    rewrite Z.div_mul by lia. apply u32_small. word_lia. }
  rewrite Hindex. cbv zeta. rewrite (lookup_slot p _ Hwf Hk). reflexivity.
Qed.

Lemma pool_at_lookup blk i :
  length (pools blk) = Z.to_nat pools_in_block -> 0 <= i < pools_in_block ->
  pools blk !! Z.to_nat i = Some (pool_at blk i).
Proof.
  intros Hlen Hi. unfold pool_at.
  destruct (lookup_lt_is_Some_2 (pools blk) (Z.to_nat i)) as [q Hq];
    [lia | now rewrite Hq].
Qed.

(** Blocks behind the owner are passed over by the scan. *)
Lemma deallocate_loop_skip debug mp n i idx :
  mp_wf mp -> malloc n <> 0 ->
  0 <= i < pools_in_block -> 0 <= idx < pool_size ->
  forall m, (n < m <= length mp)%nat ->
    deallocate_loop debug m (slot_addr n i idx) mp =
    deallocate_loop debug (S n) (slot_addr n i idx) mp.
Proof.
  intros Hwf Hn Hi Hidx. induction m as [|m IH]; intros Hm; [lia |].
  destruct (Nat.eq_dec m n) as [->|Hne]; [reflexivity |].
  destruct (lookup_lt_is_Some_2 mp m) as [blk Hblk]; [lia |].
  destruct (Hwf m blk Hblk) as (Hptr & Hnz & _).
  simpl. rewrite Hblk, Hptr.
  pose proof (pool_idx_foreign n m i idx ltac:(lia) Hn Hnz Hi Hidx) as Hge.
  destruct (Z.ltb_spec (u64 (slot_addr n i idx - malloc m) / sizeof_pool)
              pools_in_block); [lia |].
  apply IH. lia.
Qed.

Lemma deallocate_eq debug cnt mp n blk i idx :
  mp_wf mp -> mp !! n = Some blk ->
  0 <= i < pools_in_block -> 0 <= idx < pool_size ->
  exists pool',
    pool_deallocate (pool_addr blk i) (slot_addr n i idx) (pool_at blk i)
      = Some pool' /\
    deallocate debug (slot_addr n i idx) cnt mp =
    Return tt
      (<[n := {| ptr := ptr blk;
                 unmaxed_pools := set_bit (unmaxed_pools blk) i;
                 pools := <[Z.to_nat i := pool']> (pools blk) |}]> mp).
Proof.
  intros Hwf Hblk Hi Hidx.
  destruct (Hwf n blk Hblk) as (Hptr & Hnz & Hin & Hlen & Hpools).
  assert (Hlt : (n < length mp)%nat) by (eapply lookup_lt_Some; eauto).
  assert (Hpa : pool_addr blk i = malloc n + i * sizeof_pool)
    by (unfold pool_addr; now rewrite Hptr).
  eexists. split.
  { rewrite Hpa. unfold slot_addr.
    apply pool_deallocate_eq; [apply Hpools |]; auto. }
  unfold deallocate.
  rewrite (deallocate_loop_skip debug mp n i idx) by (auto; lia).
  simpl. rewrite Hblk, Hptr, pool_idx_owner by auto.
  destruct (Z.ltb_spec i pools_in_block); [| lia].
  unfold deallocate_in. rewrite Hpa.
  assert (Hassert : (u64 (slot_addr n i idx - (malloc n + i * sizeof_pool))
                     <? sizeof_pool) = true).
  { pose proof (slot_in_data idx Hidx). apply Z.ltb_lt.
    unfold slot_addr, data_addr, u64. rewrite Z.mod_small; [lia |].
    pose proof (malloc_range n Hnz). pose proof sizeof_pool_pos. word_lia. }
  rewrite Hassert, andb_false_r, (pool_at_lookup blk i) by auto.
  unfold slot_addr at 1.
  rewrite pool_deallocate_eq by auto. now rewrite Hptr.
Qed.

Lemma pool_at_insert a u u' ps i q j :
  0 <= i -> 0 <= j -> (Z.to_nat i < length ps)%nat ->
  pool_at (mk_block a u (<[Z.to_nat i := q]> ps)) j =
  if j =? i then q else pool_at (mk_block a u' ps) j.
Proof.
  intros Hi Hj Hlen. unfold pool_at; simpl.
  destruct (Z.eqb_spec j i) as [->|Hne].
  - now rewrite list_lookup_insert_eq.
  - rewrite list_lookup_insert_ne by lia. reflexivity.
Qed.

(** [deallocate] of the address of slot [idx] of pool [i] of block [n]:
    the scan from the tail rejects each block behind block [n], finds
    [pool_idx = i < b] at block [n] with the address inside the [data]
    array of that pool, and ends: bit [i] of that block's [unmaxed_pools]
    is set, the bit of the slot is set by [pool_t::deallocate], and no
    other block, pool or slot bit changes. *)
Lemma deallocate_at_slot debug cnt mp n blk i idx :
  mp_wf mp -> mp !! n = Some blk ->
  0 <= i < pools_in_block -> 0 <= idx < pool_size ->
  (forall m blk', (n < m)%nat -> mp !! m = Some blk' ->
     ~ u64 (slot_addr n i idx - ptr blk') / sizeof_pool < pools_in_block) /\
  u64 (slot_addr n i idx - ptr blk) / sizeof_pool = i /\
  data_addr (pool_addr blk i) 0 <= slot_addr n i idx
    < data_addr (pool_addr blk i) pool_size /\
  exists pool' blk',
    pool_deallocate (pool_addr blk i) (slot_addr n i idx) (pool_at blk i)
      = Some pool' /\
    blk' = {| ptr := ptr blk;
              unmaxed_pools := set_bit (unmaxed_pools blk) i;
              pools := <[Z.to_nat i := pool']> (pools blk) |} /\
    deallocate debug (slot_addr n i idx) cnt mp = Return tt (<[n := blk']> mp) /\
    Z.testbit (unmaxed_pools blk') i = true /\
    (forall j, 0 <= j < pools_in_block -> j <> i ->
       Z.testbit (unmaxed_pools blk') j = Z.testbit (unmaxed_pools blk) j /\
       pool_at blk' j = pool_at blk j) /\
    pool_free (pool_at blk' i) idx = true /\
    (forall idx', 0 <= idx' < pool_size -> idx' <> idx ->
       pool_free (pool_at blk' i) idx' = pool_free (pool_at blk i) idx').
Proof.
  intros Hwf Hblk Hi Hidx.
  destruct (Hwf n blk Hblk) as (Hptr & Hnz & Hin & Hlen & Hpools).
  split; [| split; [| split]].
  - intros m blk' Hm Hblk'.
    destruct (Hwf m blk' Hblk') as (Hptr' & Hnz' & _). rewrite Hptr'.
    pose proof (pool_idx_foreign n m i idx ltac:(lia) Hnz Hnz' Hi Hidx). lia.
  - rewrite Hptr. now apply pool_idx_owner.
  - unfold pool_addr, slot_addr, data_addr. rewrite Hptr. nia.
  - destruct (deallocate_eq debug cnt mp n blk i idx Hwf Hblk Hi Hidx)
      as (pool' & Hpd & Hd).
    exists pool'. eexists. split; [exact Hpd | split; [reflexivity |]].
    split; [exact Hd |].
    assert (Hpa : pool_addr blk i = malloc n + i * sizeof_pool)
      by (unfold pool_addr; now rewrite Hptr).
    rewrite Hpa in Hpd. unfold slot_addr in Hpd.
    rewrite pool_deallocate_eq in Hpd by auto. injection Hpd as <-.
    destruct (slot_coords idx Hidx) as (Hk & Hs).
    pose proof (Hpools i Hi) as Hpwf. pose proof Hpwf as (_ & Hplen & Hpw).
    simpl unmaxed_pools. rewrite !(pool_at_insert _ _ 0 _ _ _ i) by lia.
    rewrite Z.eqb_refl. split; [| split; [| split]].
    + rewrite testbit_set_bit_word, Z.eqb_refl by auto. apply orb_true_r.
    + intros j Hj Hne. split.
      * rewrite testbit_set_bit_word by auto.
        destruct (Z.eqb_spec j i); [contradiction | apply orb_false_r].
      * rewrite (pool_at_insert _ _ (unmaxed_pools blk)) by lia.
        destruct (Z.eqb_spec j i); [contradiction |].
        destruct blk; reflexivity.
    + unfold pool_free.
      rewrite slot_word_insert, Z.eqb_refl by lia.
      rewrite testbit_set_bit_word, Z.eqb_refl by auto. apply orb_true_r.
    + intros idx' Hidx' Hne. unfold pool_free.
      destruct (slot_coords idx' Hidx') as (Hk' & Hs').
      rewrite slot_word_insert by lia.
      destruct (Z.eqb_spec (idx' / word_bits) (idx / word_bits)) as [Hek|Hnk].
      * rewrite Hek, testbit_set_bit_word by auto.
        destruct (Z.eqb_spec (idx' mod word_bits) (idx mod word_bits))
          as [Hes|Hns]; [| apply orb_false_r].
        exfalso. apply Hne. pose proof word_bits_pos.
        rewrite (Z.div_mod idx word_bits), (Z.div_mod idx' word_bits) by lia.
        now rewrite Hek, Hes.
      * destruct (pool_at blk i); reflexivity.
Qed.

(** ** The pool invariants under allocate and deallocate *)

Lemma pool_wf_update p k w u :
  pool_wf p -> 0 <= k < word_bits -> in_word w -> in_word u ->
  pool_wf (mk_pool u (<[Z.to_nat k := w]> (unallocated_slots p))).
Proof.
  intros (Hin & Hlen & Hws) Hk Hw Hu. split; [exact Hu | split].
  - simpl. now rewrite length_insert.
  - intros j Hj. rewrite slot_word_insert by lia.
    destruct (j =? k); [exact Hw |]. exact (Hws j Hj).
Qed.

Lemma slot_index_div k s :
  0 <= k < word_bits -> 0 <= s < word_bits ->
  (k * word_bits + s) / word_bits = k /\ (k * word_bits + s) mod word_bits = s.
Proof.
  intros Hk Hs. split.
  - symmetry. apply (Z.div_unique _ _ k s); lia.
  - symmetry. apply (Z.mod_unique _ _ k s); lia.
Qed.

Lemma pool_allocate_ok this p :
  pool_wf p -> pool_sound p -> pool_complete p -> pool_full p = false ->
  exists idx p',
    0 <= idx < pool_size /\
    pool_allocate this p = Some (data_addr this idx, p') /\
    pool_wf p' /\ pool_sound p' /\ pool_complete p' /\
    pool_free p idx = true /\ pool_free p' idx = false /\
    (forall idx', 0 <= idx' < pool_size -> idx' <> idx ->
       pool_free p' idx' = pool_free p idx').
Proof.
  intros Hwf Hsound Hcomp Hnf. pose proof Hwf as (Hu & Hlen & Hws).
  pose proof word_bits_pos as Hpos.
  destruct (ctz_spec _ Hu (pool_full_false p Hnf)) as (k & _ & Hk).
  pose proof Hk as (Hkr & Hkset & _).
  destruct (ctz_spec _ (Hws k Hkr) (Hsound k Hkr Hkset)) as (s & _ & Hs).
  pose proof Hs as (Hsr & Hsset & _).
  destruct (slot_index_div k s Hkr Hsr) as (Hdiv & Hmod).
  set (w' := clear_bit (slot_word p k) s).
  assert (Hw's : Z.testbit w' s = false).
  { unfold w'. rewrite testbit_clear_bit_word, Z.eqb_refl by (auto; lia).
    apply andb_false_r. }
  exists (k * word_bits + s). eexists.
  split; [unfold pool_size; nia |].
  split; [apply pool_allocate_eq; assumption |]. fold w'.
  assert (Hsw : forall u j, 0 <= j < word_bits ->
            slot_word (mk_pool u (<[Z.to_nat k := w']> (unallocated_slots p))) j
            = if j =? k then w' else slot_word p j).
  { intros u j Hj. rewrite slot_word_insert by lia. destruct p; reflexivity. }
  assert (Hub : forall j, 0 <= j < word_bits -> j <> k ->
            Z.testbit (if w' =? 0 then clear_bit (unused_words p) k
                       else unused_words p) j
            = Z.testbit (unused_words p) j).
  { intros j Hj Hne. destruct (w' =? 0); [| reflexivity].
    rewrite testbit_clear_bit_word by (auto; lia).
    destruct (Z.eqb_spec j k); [contradiction | apply andb_true_r]. }
  split; [| split; [| split; [| split; [| split]]]].
  - apply pool_wf_update; auto; [apply clear_bit_in_word |].
    destruct (w' =? 0); [apply clear_bit_in_word | exact Hu].
  - intros j Hj Hbit. rewrite Hsw by auto. simpl unused_words in Hbit.
    destruct (Z.eqb_spec j k) as [->|Hne].
    + destruct (Z.eqb_spec w' 0) as [Hz|Hnz]; [| exact Hnz].
      rewrite testbit_clear_bit_word, Z.eqb_refl, andb_false_r in Hbit
        by (auto; lia).
      discriminate.
    + rewrite Hub in Hbit by auto. auto.
  - intros j Hj Hall. rewrite Hsw in Hall by auto. simpl unused_words.
    destruct (Z.eqb_spec j k) as [->|Hne].
    + rewrite Hall, testbit_all_ones in Hw's.
      destruct (Z.leb_spec 0 s), (Z.ltb_spec s word_bits);
        simpl in Hw's; try discriminate; lia.
    + rewrite Hub by auto. auto.
  - unfold pool_free. now rewrite Hdiv, Hmod.
  - unfold pool_free. rewrite Hdiv, Hmod, Hsw, Z.eqb_refl by auto.
    exact Hw's.
  - intros idx' Hidx' Hne. unfold pool_free.
    destruct (slot_coords idx' Hidx') as (Hk' & Hs').
    rewrite Hsw by auto.
    destruct (Z.eqb_spec (idx' / word_bits) k) as [Hek|Hnk]; [| reflexivity].
    unfold w'. rewrite Hek, testbit_clear_bit_word by (auto; lia).
    destruct (Z.eqb_spec (idx' mod word_bits) s) as [Hes|Hns];
      [| apply andb_true_r].
    exfalso. apply Hne.
    rewrite (Z.div_mod idx' word_bits), Hek, Hes by lia. lia.
Qed.

Lemma pool_deallocate_ok this idx p :
  pool_wf p -> pool_sound p -> pool_complete p -> 0 <= idx < pool_size ->
  exists p',
    pool_deallocate this (data_addr this idx) p = Some p' /\
    pool_wf p' /\ pool_sound p' /\ pool_complete p' /\
    pool_free p' idx = true /\
    (forall idx', 0 <= idx' < pool_size -> idx' <> idx ->
       pool_free p' idx' = pool_free p idx').
Proof.
  intros Hwf Hsound Hcomp Hidx. pose proof Hwf as (Hu & Hlen & Hws).
  pose proof word_bits_pos as Hpos.
  destruct (slot_coords idx Hidx) as (Hk & Hs).
  set (k := idx / word_bits) in *. set (s := idx mod word_bits) in *.
  eexists. split; [apply pool_deallocate_eq; assumption |].
  fold k s. set (w' := set_bit (slot_word p k) s).
  assert (Hw's : Z.testbit w' s = true).
  { unfold w'. rewrite testbit_set_bit_word, Z.eqb_refl by auto.
    apply orb_true_r. }
  assert (Hsw : forall u j, 0 <= j < word_bits ->
            slot_word (mk_pool u (<[Z.to_nat k := w']> (unallocated_slots p))) j
            = if j =? k then w' else slot_word p j).
  { intros u j Hj. rewrite slot_word_insert by lia. destruct p; reflexivity. }
  assert (Hub : forall j, 0 <= j < word_bits -> j <> k ->
            Z.testbit (if w' =? all_ones then set_bit (unused_words p) k
                       else unused_words p) j
            = Z.testbit (unused_words p) j).
  { intros j Hj Hne. destruct (w' =? all_ones); [| reflexivity].
    rewrite testbit_set_bit_word by auto.
    destruct (Z.eqb_spec j k); [contradiction | apply orb_false_r]. }
  split; [| split; [| split; [| split]]].
  - apply pool_wf_update; auto; [apply set_bit_in_word |].
    destruct (w' =? all_ones); [apply set_bit_in_word | exact Hu].
  - intros j Hj Hbit. rewrite Hsw by auto. simpl unused_words in Hbit.
    destruct (Z.eqb_spec j k) as [->|Hne].
    + intros Hz. rewrite Hz, Z.bits_0 in Hw's. discriminate.
    + rewrite Hub in Hbit by auto. auto.
  - intros j Hj Hall. rewrite Hsw in Hall by auto. simpl unused_words.
    destruct (Z.eqb_spec j k) as [->|Hne].
    + rewrite Hall, Z.eqb_refl, testbit_set_bit_word, Z.eqb_refl by auto.
      apply orb_true_r.
    + rewrite Hub by auto. auto.
  - unfold pool_free. fold k s. rewrite Hsw, Z.eqb_refl by auto. exact Hw's.
  - intros idx' Hidx' Hne. unfold pool_free.
    destruct (slot_coords idx' Hidx') as (Hk' & Hs').
    rewrite Hsw by auto.
    destruct (Z.eqb_spec (idx' / word_bits) k) as [Hek|Hnk]; [| reflexivity].
    unfold w'. rewrite Hek, testbit_set_bit_word by auto.
    destruct (Z.eqb_spec (idx' mod word_bits) s) as [Hes|Hns];
      [| apply orb_false_r].
    exfalso. apply Hne.
    rewrite (Z.div_mod idx' word_bits), (Z.div_mod idx word_bits) by lia.
    fold k s. now rewrite Hek, Hes.
Qed.

Lemma pool_init_sound : pool_sound pool_init.
Proof.
  intros k Hk _. rewrite slot_word_init by auto. apply all_ones_nonzero.
Qed.

Lemma pool_init_complete : pool_complete pool_init.
Proof.
  intros k Hk _. simpl. rewrite testbit_all_ones.
  apply andb_true_intro. split; [apply Z.leb_le | apply Z.ltb_lt]; lia.
Qed.

Lemma pool_init_not_full : pool_full pool_init = false.
Proof. apply Z.eqb_neq, all_ones_nonzero. Qed.

Lemma pool_free_init idx :
  0 <= idx < pool_size -> pool_free pool_init idx = true.
Proof.
  intros Hidx. destruct (slot_coords idx Hidx) as (Hk & Hs).
  unfold pool_free. rewrite slot_word_init, testbit_all_ones by auto.
  apply andb_true_intro. split; [apply Z.leb_le | apply Z.ltb_lt]; lia.
Qed.

(** Every state of a pool satisfies the two half-invariants, and the
    pointers handed out are addresses of its slots. *)
Lemma pool_reachable_ok this p live :
  pool_reachable this p live ->
  pool_wf p /\ pool_sound p /\ pool_complete p /\
  forall q, In q live ->
    exists idx, 0 <= idx < pool_size /\ q = data_addr this idx.
Proof.
  induction 1 as [|p live q p' _ IH Hnf Ha|p live q p' _ IH Hin Hd].
  - split; [apply pool_init_wf | split; [apply pool_init_sound |]].
    split; [apply pool_init_complete | intros q []].
  - destruct IH as (Hwf & Hs & Hc & Hlive).
    destruct (pool_allocate_ok this p Hwf Hs Hc Hnf)
      as (idx & p1 & Hidx & Ha1 & Hwf' & Hs' & Hc' & _).
    rewrite Ha in Ha1. inversion Ha1; subst.
    split; [exact Hwf' | split; [exact Hs' | split; [exact Hc' |]]].
    intros q' [<-|Hq']; [eauto | auto].
  - destruct IH as (Hwf & Hs & Hc & Hlive).
    destruct (Hlive q Hin) as (idx & Hidx & ->).
    destruct (pool_deallocate_ok this idx p Hwf Hs Hc Hidx)
      as (p1 & Hd1 & Hwf' & Hs' & Hc' & _).
    rewrite Hd in Hd1. inversion Hd1; subst.
    split; [exact Hwf' | split; [exact Hs' | split; [exact Hc' |]]].
    intros q' Hq'. apply in_remove in Hq'. apply Hlive, Hq'.
Qed.

Lemma pool_allocate_Some_not_full this p x :
  pool_allocate this p = Some x -> pool_full p = false.
Proof.
  unfold pool_allocate, pool_full. intros H.
  destruct (ctz (unused_words p)) as [k|] eqn:E; [| discriminate].
  apply Z.eqb_neq. eapply ctz_Some_nonzero; eauto.
Qed.

Lemma pool_allocate_n_reachable this (n : nat) :
  forall p live ps p',
    pool_reachable this p live ->
    pool_allocate_n n this p = Some (ps, p') ->
    pool_reachable this p' (rev ps ++ live).
Proof.
  induction n as [|n IH]; intros p live ps p' Hr Hrun.
  - inversion Hrun; subst. exact Hr.
  - simpl in Hrun.
    destruct (pool_allocate_n n this p) as [[qs p1]|] eqn:E; [| discriminate].
    simpl in Hrun.
    destruct (pool_allocate this p1) as [[q p2]|] eqn:Ea; [| discriminate].
    inversion Hrun; subst. rewrite rev_app_distr. simpl.
    eapply pool_reach_allocate; [eapply IH; eauto | | exact Ea].
    eapply pool_allocate_Some_not_full; eauto.
Qed.

(** ** One allocate on a multi-pool *)

Lemma pools_in_block_eq : pools_in_block = word_bits.
Proof. reflexivity. Qed.

(** The pool chosen in block [m] is the lowest one offered by
    [unmaxed_pools]; the step is well-behaved when that pool is not full. *)
Lemma allocate_in_good mp m blk :
  mp_inv mp -> mp !! m = Some blk ->
  unmaxed_pools blk <> 0 ->
  (forall pi, lowest_set_bit (unmaxed_pools blk) pi ->
     pool_full (pool_at blk pi) = false) ->
  alloc_good mp (allocate_in m blk mp).
Proof.
  intros Hinv Hblk Hnz Hpf. pose proof pools_in_block_eq as Hpib.
  destruct (Hinv m blk Hblk) as ((Hptr & Hmnz & Hin & Hlen & Hpwf) & Hbc & Hps).
  assert (Hm : (m < length mp)%nat) by (eapply lookup_lt_Some; eauto).
  destruct (ctz_spec _ Hin Hnz) as (pi & Hctz & Hpi).
  pose proof Hpi as (Hpir & Hpiset & _).
  destruct (Hps pi Hpir) as (Hsound & Hcomp).
  destruct (pool_allocate_ok (pool_addr blk pi) (pool_at blk pi)
              (Hpwf pi Hpir) Hsound Hcomp (Hpf pi Hpi))
    as (idx & p' & Hidx & Halloc & Hwf' & Hsound' & Hcomp' & Hfree & Hfree' & Hother).
  unfold allocate_in. rewrite Hctz, (pool_at_lookup blk pi), Halloc by auto.
  set (um' := if pool_full p' then clear_bit (unmaxed_pools blk) pi
              else unmaxed_pools blk).
  set (blk' := {| ptr := ptr blk; unmaxed_pools := um';
                  pools := <[Z.to_nat pi := p']> (pools blk) |}).
  assert (Hpat : forall j, 0 <= j < pools_in_block ->
            pool_at blk' j = if j =? pi then p' else pool_at blk j).
  { intros j Hj. unfold blk'.
    rewrite (pool_at_insert _ _ (unmaxed_pools blk)) by lia.
    destruct blk; reflexivity. }
  assert (Hum : forall j, 0 <= j < pools_in_block -> j <> pi ->
            Z.testbit um' j = Z.testbit (unmaxed_pools blk) j).
  { intros j Hj Hne. unfold um'. destruct (pool_full p'); [| reflexivity].
    rewrite testbit_clear_bit_word by (auto; lia).
    destruct (Z.eqb_spec j pi); [contradiction | apply andb_true_r]. }
  assert (Hinv' : block_inv m blk').
  { split; [| split].
    - split; [exact Hptr | split; [exact Hmnz | split; [| split]]].
      + unfold blk', um'; simpl.
        destruct (pool_full p'); [apply clear_bit_in_word | exact Hin].
      + unfold blk'; simpl. now rewrite length_insert.
      + intros j Hj. rewrite Hpat by auto.
        destruct (j =? pi); auto.
    - intros j Hj Hnf. rewrite Hpat in Hnf by auto. simpl.
      destruct (Z.eqb_spec j pi) as [->|Hne].
      + unfold um'. now rewrite Hnf.
      + rewrite Hum by auto. auto.
    - intros j Hj. rewrite Hpat by auto.
      destruct (j =? pi); auto. }
  assert (Hsnd' : block_sound blk -> block_sound blk').
  { intros Hbs j Hj Hbit. rewrite Hpat by auto. simpl in Hbit.
    destruct (Z.eqb_spec j pi) as [->|Hne].
    - unfold um' in Hbit. destruct (pool_full p'); [| reflexivity].
      rewrite testbit_clear_bit_word, Z.eqb_refl, andb_false_r in Hbit
        by (auto; lia).
      discriminate.
    - rewrite Hum in Hbit by auto. auto. }
  assert (Hpa : pool_addr blk pi = malloc m + pi * sizeof_pool)
    by (unfold pool_addr; now rewrite Hptr).
  exists m, pi, idx, (<[m := blk']> mp).
  split; [unfold slot_addr; now rewrite Hpa |].
  rewrite length_insert.
  split; [exact Hm | split; [exact Hpir | split; [exact Hidx |]]].
  split; [| split; [| split; [lia |]]].
  - intros n' b' Hb'. destruct (Nat.eq_dec n' m) as [->|Hne].
    + rewrite list_lookup_insert_eq in Hb' by auto. now inversion Hb'.
    + rewrite list_lookup_insert_ne in Hb' by auto. auto.
  - intros Hsnd n' b' Hb'. destruct (Nat.eq_dec n' m) as [->|Hne].
    + rewrite list_lookup_insert_eq in Hb' by auto. inversion Hb'; subst.
      apply Hsnd', (Hsnd m blk Hblk).
    + rewrite list_lookup_insert_ne in Hb' by auto. eauto.
  - unfold free_bit. rewrite Hblk, list_lookup_insert_eq by auto.
    rewrite Hpat, Z.eqb_refl by auto.
    split; [exact Hfree | split; [exact Hfree' |]].
    intros n' i' idx' Hi' Hidx' Hne.
    destruct (Nat.eq_dec n' m) as [->|Hnm].
    + rewrite list_lookup_insert_eq, Hblk, Hpat by auto.
      destruct (Z.eqb_spec i' pi) as [->|Hni]; [| reflexivity].
      apply Hother; [auto |]. destruct Hne as [?|[?|?]]; congruence.
    + rewrite list_lookup_insert_ne by auto. reflexivity.
Qed.

Lemma pool_at_fresh n j :
  0 <= j < pools_in_block -> pool_at (fresh_block n) j = pool_init.
Proof.
  intros Hj. unfold pool_at, fresh_block; simpl.
  now rewrite lookup_replicate_2 by lia.
Qed.

Lemma fresh_block_inv n : malloc n <> 0 -> block_inv n (fresh_block n).
Proof.
  intros Hn. pose proof word_bits_pos. split; [| split].
  - split; [reflexivity | split; [exact Hn | split; [| split]]].
    + apply all_ones_in_word.
    + apply length_replicate.
    + intros i Hi. rewrite pool_at_fresh by auto. apply pool_init_wf.
  - intros i Hi _. simpl. rewrite testbit_all_ones.
    apply andb_true_intro.
    split; [apply Z.leb_le | apply Z.ltb_lt]; unfold pools_in_block in Hi; lia.
  - intros i Hi. rewrite pool_at_fresh by auto.
    split; [apply pool_init_sound | apply pool_init_complete].
Qed.

Lemma fresh_block_sound n : block_sound (fresh_block n).
Proof.
  intros i Hi _. rewrite pool_at_fresh by auto. apply pool_init_not_full.
Qed.

Lemma new_block_eq mp :
  granted (length mp) ->
  new_block mp = Return tt (mp ++ [fresh_block (length mp)]).
Proof.
  intros (Hp & Hn). unfold new_block; simpl. rewrite Hp; simpl.
  destruct (Z.eqb_spec (malloc (length mp)) 0); [contradiction | reflexivity].
Qed.

Lemma allocate_fresh_good mp :
  mp_inv mp -> granted (length mp) ->
  alloc_good mp (allocate_fresh mp).
Proof.
  intros Hinv Hg. pose proof Hg as (_ & Hn).
  pose proof pools_in_block_eq as Hpib.
  pose proof word_bits_pos as Hpos. set (n := length mp) in *.
  destruct (fresh_block_inv n Hn) as ((_ & _ & Hin & Hlen & Hpwf) & Hbc & Hps).
  destruct (pool_allocate_ok (malloc n) pool_init pool_init_wf
              pool_init_sound pool_init_complete pool_init_not_full)
    as (idx & p' & Hidx & Halloc & Hwf' & Hsound' & Hcomp' & _ & Hfree' & Hother).
  destruct (filled_step (malloc n) 0 pool_init) as (p1 & Halloc1 & Hfill1);
    [pose proof pool_size_pos; lia | apply pool_init_filled |].
  assert (Hp1 : p1 = p') by congruence. subst p1.
  assert (Hnf' : pool_full p' = false).
  { rewrite (filled_full 1 p') by (auto; lia).
    apply Z.leb_gt. word_lia. }
  unfold allocate_fresh. rewrite new_block_eq by exact Hg. fold n.
  rewrite last_snoc. simpl ptr. simpl pools.
  rewrite lookup_replicate_2 by lia. rewrite Halloc.
  rewrite length_app; simpl length. rewrite Nat.add_1_r, Nat.pred_succ.
  fold n. rewrite insert_app_r_alt, Nat.sub_diag by (fold n; lia).
  simpl. set (blk' := {| ptr := malloc n; unmaxed_pools := all_ones;
                         pools := <[0%nat := p']>
                           (replicate (Z.to_nat pools_in_block) pool_init) |}).
  assert (Hpat : forall j, 0 <= j < pools_in_block ->
            pool_at blk' j = if j =? 0 then p' else pool_init).
  { intros j Hj. unfold blk'. change 0%nat with (Z.to_nat 0).
    rewrite (pool_at_insert _ _ all_ones) by (rewrite ?length_replicate; lia).
    destruct (j =? 0); [reflexivity |].
    apply (pool_at_fresh n j Hj). }
  assert (Hinv' : block_inv n blk').
  { split; [| split].
    - split; [reflexivity | split; [exact Hn | split; [exact Hin | split]]].
      + unfold blk'; simpl. now rewrite length_insert, length_replicate.
      + intros j Hj. rewrite Hpat by auto.
        destruct (j =? 0); [exact Hwf' | apply pool_init_wf].
    - intros j Hj _. simpl. rewrite testbit_all_ones.
      apply andb_true_intro.
      split; [apply Z.leb_le | apply Z.ltb_lt]; lia.
    - intros j Hj. rewrite Hpat by auto.
      destruct (j =? 0); [auto |].
      split; [apply pool_init_sound | apply pool_init_complete]. }
  assert (Hsnd' : block_sound blk').
  { intros j Hj _. rewrite Hpat by auto.
    destruct (j =? 0); [exact Hnf' | apply pool_init_not_full]. }
  exists n, 0, idx, (mp ++ [blk']).
  split; [unfold slot_addr; do 2 f_equal; lia |].
  rewrite length_app; simpl length. fold n.
  split; [lia | split; [lia | split; [exact Hidx |]]].
  split; [| split; [| split; [lia |]]].
  - intros n' b' Hb'. destruct (Nat.eq_dec n' n) as [->|Hne].
    + rewrite lookup_app_r, Nat.sub_diag in Hb' by (fold n; lia).
      now inversion Hb'.
    + assert (Hlt : (n' < n)%nat).
      { apply lookup_lt_Some in Hb'. rewrite length_app in Hb'.
        simpl in Hb'. fold n in Hb'. lia. }
      rewrite lookup_app_l in Hb' by (fold n; lia). auto.
  - intros Hsnd n' b' Hb'. destruct (Nat.eq_dec n' n) as [->|Hne].
    + rewrite lookup_app_r, Nat.sub_diag in Hb' by (fold n; lia).
      now inversion Hb'.
    + assert (Hlt : (n' < n)%nat).
      { apply lookup_lt_Some in Hb'. rewrite length_app in Hb'.
        simpl in Hb'. fold n in Hb'. lia. }
      rewrite lookup_app_l in Hb' by (fold n; lia). eauto.
  - unfold free_bit.
    rewrite (lookup_ge_None_2 mp n) by (fold n; lia).
    rewrite lookup_app_r, Nat.sub_diag by (fold n; lia). simpl.
    rewrite Hpat, Z.eqb_refl by lia.
    split; [reflexivity | split; [exact Hfree' |]].
    intros n' i' idx' Hi' Hidx' Hne.
    destruct (Nat.lt_trichotomy n' n) as [Hlt|[->|Hgt]].
    + rewrite lookup_app_l by (fold n; lia). reflexivity.
    + rewrite lookup_app_r, Nat.sub_diag by (fold n; lia). simpl.
      rewrite (lookup_ge_None_2 mp n) by (fold n; lia).
      rewrite Hpat by auto.
      destruct (Z.eqb_spec i' 0) as [->|Hni].
      * rewrite Hother, pool_free_init; auto.
        destruct Hne as [?|[?|?]]; congruence.
      * now apply pool_free_init.
    + rewrite !lookup_ge_None_2; [reflexivity | fold n; lia |].
      rewrite length_app; simpl; fold n; lia.
Qed.

Lemma allocate_loop_good mp :
  mp_inv mp -> mp_sound mp -> granted (length mp) ->
  forall m, (m <= length mp)%nat -> alloc_good mp (allocate_loop m mp).
Proof.
  intros Hinv Hsnd Hn. induction m as [|m IH]; intros Hm.
  - now apply allocate_fresh_good.
  - destruct (lookup_lt_is_Some_2 mp m) as [blk Hblk]; [lia |].
    simpl. rewrite Hblk.
    destruct (Z.eqb_spec (unmaxed_pools blk) 0) as [Hz|Hnz].
    + apply IH. lia.
    + apply allocate_in_good; auto.
      intros pi (Hpir & Hpiset & _). now apply (Hsnd m blk Hblk).
Qed.

(** An [allocate] that returns is well-behaved, whatever [unmaxed_pools]
    promised. *)
Lemma allocate_loop_return mp q mp' :
  mp_inv mp ->
  forall m, (m <= length mp)%nat ->
    allocate_loop m mp = Return q mp' -> alloc_good mp (Return q mp').
Proof.
  intros Hinv. induction m as [|m IH]; intros Hm Hret.
  - rewrite <- Hret. apply allocate_fresh_good; [exact Hinv |].
    simpl in Hret. unfold allocate_fresh, new_block in Hret. split.
    + destruct (push_back_ok (length mp)); [reflexivity | discriminate].
    + intros Hz. rewrite Hz in Hret. simpl in Hret.
      destruct (push_back_ok (length mp)); discriminate.
  - destruct (lookup_lt_is_Some_2 mp m) as [blk Hblk]; [lia |].
    simpl in Hret. rewrite Hblk in Hret.
    destruct (Z.eqb_spec (unmaxed_pools blk) 0) as [Hz|Hnz].
    + apply IH; [lia | exact Hret].
    + rewrite <- Hret. apply allocate_in_good; auto.
      intros pi Hpi.
      destruct (Hinv m blk Hblk) as ((_ & _ & Hin & Hlen & _) & _).
      unfold allocate_in in Hret.
      rewrite (ctz_lowest _ pi Hin Hpi) in Hret.
      destruct Hpi as (Hpir & _).
      rewrite (pool_at_lookup blk pi) in Hret by auto.
      destruct (pool_allocate _ (pool_at blk pi)) as [x|] eqn:E;
        [| discriminate].
      eapply pool_allocate_Some_not_full; eauto.
Qed.

Lemma allocate_return debug mp q mp' :
  mp_inv mp -> allocate debug 1 mp = Return q mp' ->
  alloc_good mp (Return q mp').
Proof.
  intros Hinv. unfold allocate. simpl. rewrite andb_false_r.
  now apply allocate_loop_return.
Qed.

Lemma allocate_good debug mp :
  mp_inv mp -> mp_sound mp -> granted (length mp) ->
  alloc_good mp (allocate debug 1 mp).
Proof.
  intros Hinv Hsnd Hn. unfold allocate. simpl. rewrite andb_false_r.
  now apply allocate_loop_good.
Qed.

(** ** One deallocate on a multi-pool *)

Lemma deallocate_good debug cnt mp n i idx :
  mp_inv mp -> (n < length mp)%nat ->
  0 <= i < pools_in_block -> 0 <= idx < pool_size ->
  exists mp',
    deallocate debug (slot_addr n i idx) cnt mp = Return tt mp' /\
    mp_inv mp' /\ length mp' = length mp /\
    free_bit mp' n i idx = true /\
    forall n' i' idx',
      0 <= i' < pools_in_block -> 0 <= idx' < pool_size ->
      n' <> n \/ i' <> i \/ idx' <> idx ->
      free_bit mp' n' i' idx' = free_bit mp n' i' idx'.
Proof.
  intros Hinv Hn Hi Hidx. pose proof pools_in_block_eq as Hpib.
  destruct (lookup_lt_is_Some_2 mp n Hn) as [blk Hblk].
  destruct (Hinv n blk Hblk) as ((Hptr & Hmnz & Hin & Hlen & Hpwf) & Hbc & Hps).
  assert (Hwf : mp_wf mp) by (intros n' b' Hb'; apply (Hinv n' b' Hb')).
  destruct (deallocate_eq debug cnt mp n blk i idx Hwf Hblk Hi Hidx)
    as (p' & Hpd & Hd).
  destruct (Hps i Hi) as (Hsound & Hcomp).
  destruct (pool_deallocate_ok (pool_addr blk i) idx (pool_at blk i)
              (Hpwf i Hi) Hsound Hcomp Hidx)
    as (p1 & Hpd1 & Hwf' & Hsound' & Hcomp' & Hfree' & Hother).
  assert (Hpa : pool_addr blk i = malloc n + i * sizeof_pool)
    by (unfold pool_addr; now rewrite Hptr).
  unfold slot_addr in Hpd. rewrite <- Hpa, Hpd1 in Hpd.
  injection Hpd as ->.
  set (blk' := {| ptr := ptr blk;
                  unmaxed_pools := set_bit (unmaxed_pools blk) i;
                  pools := <[Z.to_nat i := p']> (pools blk) |}) in *.
  assert (Hpat : forall j, 0 <= j < pools_in_block ->
            pool_at blk' j = if j =? i then p' else pool_at blk j).
  { intros j Hj. unfold blk'.
    rewrite (pool_at_insert _ _ (unmaxed_pools blk)) by lia.
    destruct blk; reflexivity. }
  assert (Hinv' : block_inv n blk').
  { split; [| split].
    - split; [exact Hptr | split; [exact Hmnz | split; [| split]]].
      + apply set_bit_in_word.
      + unfold blk'; simpl. now rewrite length_insert.
      + intros j Hj. rewrite Hpat by auto. destruct (j =? i); auto.
    - intros j Hj Hnf. rewrite Hpat in Hnf by auto. simpl.
      rewrite testbit_set_bit_word by auto.
      destruct (Z.eqb_spec j i) as [->|Hne]; [apply orb_true_r |].
      rewrite orb_false_r. auto.
    - intros j Hj. rewrite Hpat by auto. destruct (j =? i); auto. }
  exists (<[n := blk']> mp). split; [exact Hd |]. rewrite length_insert.
  split; [| split; [reflexivity |]].
  - intros n' b' Hb'. destruct (Nat.eq_dec n' n) as [->|Hne].
    + rewrite list_lookup_insert_eq in Hb' by auto. now inversion Hb'.
    + rewrite list_lookup_insert_ne in Hb' by auto. auto.
  - unfold free_bit. rewrite list_lookup_insert_eq by auto.
    rewrite Hpat, Z.eqb_refl by auto. split; [exact Hfree' |].
    intros n' i' idx' Hi' Hidx' Hne.
    destruct (Nat.eq_dec n' n) as [->|Hnm].
    + rewrite list_lookup_insert_eq, Hblk, Hpat by auto.
      destruct (Z.eqb_spec i' i) as [->|Hni]; [| reflexivity].
      apply Hother; [auto |]. destruct Hne as [?|[?|?]]; congruence.
    + rewrite list_lookup_insert_ne by auto. reflexivity.
Qed.

(** ** Runs *)

Lemma multi_pool_new_eq :
  granted 0 -> multi_pool_new = Return tt [fresh_block 0].
Proof. intros H0. unfold multi_pool_new. now rewrite new_block_eq. Qed.

Lemma initial_inv : malloc 0 <> 0 -> mp_inv [fresh_block 0].
Proof.
  intros H0 [|n] blk Hblk; simpl in Hblk; [| discriminate].
  inversion Hblk; subst. now apply fresh_block_inv.
Qed.

Lemma initial_sound : mp_sound [fresh_block 0].
Proof.
  intros [|n] blk Hblk; simpl in Hblk; [| discriminate].
  inversion Hblk; subst. apply fresh_block_sound.
Qed.

Lemma free_bit_initial n i idx :
  0 <= i < pools_in_block -> 0 <= idx < pool_size ->
  free_bit [fresh_block 0] n i idx = true.
Proof.
  intros Hi Hidx. unfold free_bit. destruct n as [|n]; simpl; [| reflexivity].
  rewrite pool_at_fresh by auto. now apply pool_free_init.
Qed.

(** Allocations only: every call succeeds, and the slots that are taken
    afterwards are the ones that were handed out. *)
Lemma allocate_n_good debug (k : nat) :
  (forall n, (n <= k)%nat -> granted n) ->
  exists cs mp1,
    allocate_n debug k [fresh_block 0] = Return (map coord_addr cs) mp1 /\
    length cs = k /\
    mp_inv mp1 /\ mp_sound mp1 /\
    (1 <= length mp1 <= S k)%nat /\
    (forall c, In c cs -> coord_ok mp1 c) /\
    (forall n i idx, 0 <= i < pools_in_block -> 0 <= idx < pool_size ->
       free_bit mp1 n i idx = false -> In (n, i, idx) cs).
Proof.
  induction k as [|k IH]; intros Hm.
  - exists [], [fresh_block 0]. split; [reflexivity | split; [reflexivity |]].
    split; [apply initial_inv, (Hm 0%nat); lia | split; [apply initial_sound |]].
    split; [simpl; lia | split; [intros c [] |]].
    intros n i idx Hi Hidx Hf. rewrite free_bit_initial in Hf by auto.
    discriminate.
  - destruct IH as (cs & mp1 & Hrun & Hk & Hinv & Hsnd & Hlen & Hcs & Hfree).
    { intros n Hn. apply Hm. lia. }
    destruct (allocate_good debug mp1 Hinv Hsnd) as
      (n & i & idx & mp2 & Hout & Hn & Hi & Hidx & Hinv2 & Hsnd2 & Hlen2
         & _ & Hnew & Hother).
    { apply Hm. lia. }
    specialize (Hsnd2 Hsnd).
    exists (cs ++ [(n, i, idx)]), mp2. split.
    { simpl. rewrite Hrun, Hout, map_app. reflexivity. }
    split; [rewrite length_app; simpl; lia |].
    split; [exact Hinv2 | split; [exact Hsnd2 | split; [lia | split]]].
    + intros c Hc. apply in_app_iff in Hc. destruct Hc as [Hc|[<-|[]]].
      * destruct (Hcs c Hc) as (H1 & H2 & H3). split; [lia | auto].
      * split; [exact Hn | auto].
    + intros n' i' idx' Hi' Hidx' Hf. apply in_app_iff.
      destruct (Nat.eq_dec n' n) as [->|Hnn];
        [destruct (Z.eq_dec i' i) as [->|Hni];
         [destruct (Z.eq_dec idx' idx) as [->|Hnx] |] |].
      * right. now left.
      * left. apply Hfree; auto. rewrite <- Hother; auto.
      * left. apply Hfree; auto. rewrite <- Hother; auto.
      * left. apply Hfree; auto. rewrite <- Hother; auto.
Qed.

(** Deallocations only: every call succeeds, and the slots of the list
    are free afterwards along with those that were free before. *)
Lemma deallocate_all_good debug cs :
  forall mp,
    mp_inv mp -> (forall c, In c cs -> coord_ok mp c) ->
    exists mp',
      deallocate_all debug (map coord_addr cs) mp = Return tt mp' /\
      mp_inv mp' /\ length mp' = length mp /\
      forall n i idx, 0 <= i < pools_in_block -> 0 <= idx < pool_size ->
        free_bit mp n i idx = true \/ In (n, i, idx) cs ->
        free_bit mp' n i idx = true.
Proof.
  induction cs as [|[[n i] idx] cs IH]; intros mp Hinv Hcs.
  - exists mp. split; [reflexivity | split; [exact Hinv | split; [reflexivity |]]].
    intros n i idx _ _ [H|[]]. exact H.
  - destruct (Hcs (n, i, idx)) as (Hn & Hi & Hidx); [now left |].
    simpl in Hn, Hi, Hidx.
    destruct (deallocate_good debug 1 mp n i idx Hinv Hn Hi Hidx)
      as (mp1 & Hd & Hinv1 & Hlen1 & Hset & Hother).
    destruct (IH mp1 Hinv1) as (mp2 & Hrun & Hinv2 & Hlen2 & Hfree).
    { intros c Hc. destruct (Hcs c) as (H1 & H2); [now right |].
      split; [lia | exact H2]. }
    exists mp2. split.
    { simpl. unfold coord_addr at 1. simpl. now rewrite Hd. }
    split; [exact Hinv2 | split; [lia |]].
    intros n' i' idx' Hi' Hidx' Hf. apply Hfree; auto.
    destruct (Nat.eq_dec n' n) as [->|Hnn];
      [destruct (Z.eq_dec i' i) as [->|Hni];
       [destruct (Z.eq_dec idx' idx) as [->|Hnx] |] |].
    + now left.
    + destruct Hf as [Hf|[Heq|Hin]]; [| congruence | now right].
      left. rewrite Hother; auto.
    + destruct Hf as [Hf|[Heq|Hin]]; [| congruence | now right].
      left. rewrite Hother; auto.
    + destruct Hf as [Hf|[Heq|Hin]]; [| congruence | now right].
      left. rewrite Hother; auto.
Qed.

(** ** The states of a multi-pool *)

Lemma new_block_Return mp mp' :
  new_block mp = Return tt mp' ->
  granted (length mp) /\ mp' = mp ++ [fresh_block (length mp)].
Proof.
  unfold new_block, granted. simpl.
  destruct (push_back_ok (length mp)); simpl; [| discriminate].
  destruct (Z.eqb_spec (malloc (length mp)) 0); [discriminate |].
  intros H. inversion H. auto.
Qed.

(** Every state of a multi-pool satisfies [mp_inv], and the pointers
    handed out are addresses of slots of its blocks. *)
Lemma reachable_inv debug mp live :
  reachable debug mp live ->
  mp_inv mp /\
  forall q, In q live -> exists c, coord_ok mp c /\ q = coord_addr c.
Proof.
  induction 1 as [mp Hnew|mp live q mp' _ IH Ha|mp live q mp' _ IH Hin Hd].
  - apply new_block_Return in Hnew as ((_ & H0) & ->).
    split; [now apply initial_inv | intros q []].
  - destruct IH as (Hinv & Hlive).
    destruct (allocate_return debug mp q mp' Hinv Ha)
      as (n & i & idx & mp1 & Heq & Hn & Hi & Hidx & Hinv' & _ & Hlen & _).
    inversion Heq; subst. split; [exact Hinv' |].
    intros q' [<-|Hq'].
    + exists (n, i, idx). split; [split; [exact Hn | auto] | reflexivity].
    + destruct (Hlive q' Hq') as (c & (Hc1 & Hc2) & ->).
      exists c. split; [split; [lia | exact Hc2] | reflexivity].
  - destruct IH as (Hinv & Hlive).
    destruct (Hlive q Hin) as ([[n i] idx] & (Hn & Hi & Hidx) & ->).
    simpl in Hn, Hi, Hidx.
    destruct (deallocate_good debug 1 mp n i idx Hinv Hn Hi Hidx)
      as (mp1 & Hd1 & Hinv' & Hlen & _).
    unfold coord_addr in Hd. simpl in Hd. rewrite Hd in Hd1.
    inversion Hd1; subst. split; [exact Hinv' |].
    intros q' Hq'. apply in_remove in Hq'.
    destruct (Hlive q' (proj1 Hq')) as (c & (Hc1 & Hc2) & ->).
    exists c. split; [split; [lia | exact Hc2] | reflexivity].
Qed.

Lemma allocate_n_reachable debug (k : nat) :
  forall mp live ps mp',
    reachable debug mp live ->
    allocate_n debug k mp = Return ps mp' ->
    reachable debug mp' (rev ps ++ live).
Proof.
  induction k as [|k IH]; intros mp live ps mp' Hr Hrun.
  - inversion Hrun; subst. exact Hr.
  - simpl in Hrun.
    destruct (allocate_n debug k mp) as [qs mp1| | |] eqn:E; try discriminate.
    destruct (allocate debug 1 mp1) as [q mp2| | |] eqn:Ea; try discriminate.
    inversion Hrun; subst. rewrite rev_app_distr. simpl.
    eapply reach_allocate; [eapply IH; eauto | exact Ea].
Qed.

(** C4. In every state of a multi-pool, for every pointer [p] handed out
    and not yet given back: [p] is the address of a slot [idx] of a pool
    [i] of a block [n]; the scan of [deallocate(p, count)] from the tail
    rejects each block behind block [n], finds [pool_idx = i < b] at block
    [n] with [p] inside the [data] array of that pool, and ends: bit [i] of
    that block's [unmaxed_pools] is set, the bit of the slot is set by
    [pool_t::deallocate], and no other block, pool or slot bit changes. *)
Theorem deallocate_owner debug cnt mp live p :
  reachable debug mp live -> In p live ->
  exists n blk i idx,
    mp !! n = Some blk /\
    0 <= i < pools_in_block /\ 0 <= idx < pool_size /\
    p = slot_addr n i idx /\
    (forall m blk', (n < m)%nat -> mp !! m = Some blk' ->
       ~ u64 (p - ptr blk') / sizeof_pool < pools_in_block) /\
    u64 (p - ptr blk) / sizeof_pool = i /\
    data_addr (pool_addr blk i) 0 <= p
      < data_addr (pool_addr blk i) pool_size /\
    exists pool' blk',
      pool_deallocate (pool_addr blk i) p (pool_at blk i) = Some pool' /\
      blk' = {| ptr := ptr blk;
                unmaxed_pools := set_bit (unmaxed_pools blk) i;
                pools := <[Z.to_nat i := pool']> (pools blk) |} /\
      deallocate debug p cnt mp = Return tt (<[n := blk']> mp) /\
      Z.testbit (unmaxed_pools blk') i = true /\
      (forall j, 0 <= j < pools_in_block -> j <> i ->
         Z.testbit (unmaxed_pools blk') j = Z.testbit (unmaxed_pools blk) j /\
         pool_at blk' j = pool_at blk j) /\
      pool_free (pool_at blk' i) idx = true /\
      (forall idx', 0 <= idx' < pool_size -> idx' <> idx ->
         pool_free (pool_at blk' i) idx' = pool_free (pool_at blk i) idx').
Proof.
  intros Hr Hin. destruct (reachable_inv debug mp live Hr) as (Hinv & Hlive).
  destruct (Hlive p Hin) as ([[n i] idx] & (Hn & Hi & Hidx) & ->).
  simpl in Hn, Hi, Hidx. unfold coord_addr. simpl.
  destruct (lookup_lt_is_Some_2 mp n Hn) as [blk Hblk].
  assert (Hwf : mp_wf mp) by (intros n' b' Hb'; apply (Hinv n' b' Hb')).
  exists n, blk, i, idx.
  split; [exact Hblk | split; [exact Hi | split; [exact Hidx |]]].
  split; [reflexivity |].
  exact (deallocate_at_slot debug cnt mp n blk i idx Hwf Hblk Hi Hidx).
Qed.

(** ** All slots free again *)

Lemma word_all_set w :
  in_word w -> (forall j, 0 <= j < word_bits -> Z.testbit w j = true) ->
  w = all_ones.
Proof.
  intros Hw Hall. apply in_word_ext; [exact Hw | apply all_ones_in_word |].
  intros j Hj. rewrite Hall, testbit_all_ones by auto.
  symmetry. apply andb_true_intro.
  split; [apply Z.leb_le | apply Z.ltb_lt]; lia.
Qed.

Lemma pool_all_free p :
  pool_wf p -> pool_complete p ->
  (forall idx, 0 <= idx < pool_size -> pool_free p idx = true) ->
  p = pool_init.
Proof.
  intros (Hin & Hlen & Hws) Hcomp Hfree. pose proof word_bits_pos as Hpos.
  assert (Hw : forall k, 0 <= k < word_bits -> slot_word p k = all_ones).
  { intros k Hk. apply word_all_set; [auto |]. intros s Hs.
    destruct (slot_index_div k s Hk Hs) as (Hdiv & Hmod).
    specialize (Hfree (k * word_bits + s)). unfold pool_free in Hfree.
    rewrite Hdiv, Hmod in Hfree. apply Hfree. unfold pool_size. nia. }
  assert (Hu : unused_words p = all_ones).
  { apply word_all_set; [exact Hin |]. intros k Hk. apply Hcomp; auto. }
  destruct p as [u l]. simpl in *. unfold pool_init. f_equal; [exact Hu |].
  apply list_eq. intros j.
  destruct (Nat.lt_ge_cases j (Z.to_nat word_bits)) as [Hlt|Hge].
  - rewrite lookup_replicate_2 by lia.
    specialize (Hw (Z.of_nat j) ltac:(lia)). unfold slot_word in Hw.
    simpl in Hw. rewrite Nat2Z.id in Hw.
    destruct (lookup_lt_is_Some_2 l j) as [w Hl]; [lia |].
    rewrite Hl in Hw |- *. simpl in Hw. now subst.
  - rewrite !lookup_ge_None_2; [reflexivity | | lia].
    rewrite length_replicate. lia.
Qed.

Lemma block_all_free n blk :
  block_inv n blk ->
  (forall i idx, 0 <= i < pools_in_block -> 0 <= idx < pool_size ->
     pool_free (pool_at blk i) idx = true) ->
  blk = fresh_block n.
Proof.
  intros ((Hptr & Hmnz & Hin & Hlen & Hpwf) & Hbc & Hps) Hfree.
  pose proof word_bits_pos as Hpos. pose proof pools_in_block_eq as Hpib.
  assert (Hp : forall i, 0 <= i < pools_in_block -> pool_at blk i = pool_init).
  { intros i Hi. apply pool_all_free; [auto | apply Hps; auto | auto]. }
  assert (Hu : unmaxed_pools blk = all_ones).
  { apply word_all_set; [exact Hin |]. intros i Hi.
    apply Hbc; [lia |]. rewrite Hp by lia. apply pool_init_not_full. }
  destruct blk as [a u l]. simpl in *. unfold fresh_block. f_equal; auto.
  apply list_eq. intros j.
  destruct (Nat.lt_ge_cases j (Z.to_nat pools_in_block)) as [Hlt|Hge].
  - rewrite lookup_replicate_2 by lia.
    specialize (Hp (Z.of_nat j) ltac:(lia)). unfold pool_at in Hp.
    simpl in Hp. rewrite Nat2Z.id in Hp.
    destruct (lookup_lt_is_Some_2 l j) as [q Hl]; [lia |].
    rewrite Hl in Hp |- *. simpl in Hp. now subst.
  - rewrite !lookup_ge_None_2; [reflexivity | | lia].
    rewrite length_replicate. lia.
Qed.

(** C9. From a freshly constructed multi-pool, [k] allocations succeed,
    and deallocating the [k] returned pointers, in any order, succeeds and
    leaves every block as [new_block] made it: [unmaxed_pools], every
    [unused_words] and every [unallocated_slots] word all-ones. No block
    is released, so the state is the post-construction one whenever no
    second block was needed. *)
Theorem allocate_deallocate_all_restores debug (k : nat) :
  (forall n, (n <= k)%nat -> granted n) ->
  exists ps mp1,
    multi_pool_new = Return tt [fresh_block 0] /\
    allocate_n debug k [fresh_block 0] = Return ps mp1 /\
    length ps = k /\
    forall qs, Permutation ps qs ->
      exists mp2,
        deallocate_all debug qs mp1 = Return tt mp2 /\
        mp2 = map fresh_block (seq 0 (length mp1)) /\
        (length mp1 = 1%nat -> mp2 = [fresh_block 0]).
Proof.
  intros Hm.
  destruct (allocate_n_good debug k Hm)
    as (cs & mp1 & Hrun & Hk & Hinv & Hsnd & Hlen & Hcs & Hfree).
  exists (map coord_addr cs), mp1.
  split; [apply multi_pool_new_eq, Hm; lia | split; [exact Hrun |]].
  split; [now rewrite length_map |].
  intros qs Hperm.
  destruct (Permutation_map_inv _ _ (Permutation_sym Hperm))
    as (cs' & -> & Hperm').
  destruct (deallocate_all_good debug cs' mp1 Hinv)
    as (mp2 & Hd & Hinv2 & Hlen2 & Hfree2).
  { intros c Hc. apply Hcs. eapply Permutation_in; [| exact Hc].
    now apply Permutation_sym. }
  exists mp2. split; [exact Hd |].
  assert (Hall : mp2 = map fresh_block (seq 0 (length mp1))).
  { apply list_eq. intros n.
    destruct (Nat.lt_ge_cases n (length mp1)) as [Hlt|Hge].
    - destruct (lookup_lt_is_Some_2 mp2 n) as [blk Hblk]; [lia |].
      rewrite Hblk, list_lookup_fmap, lookup_seq_lt by auto. simpl. f_equal.
      apply block_all_free; [exact (Hinv2 n blk Hblk) |].
      intros i idx Hi Hidx.
      specialize (Hfree2 n i idx Hi Hidx). unfold free_bit in Hfree2.
      rewrite Hblk in Hfree2. apply Hfree2.
      destruct (free_bit mp1 n i idx) eqn:Hf; [now left | right].
      eapply Permutation_in; [exact Hperm' |]. now apply Hfree.
    - rewrite !lookup_ge_None_2; [reflexivity | | lia].
      rewrite length_map, length_seq. lia. }
  split; [exact Hall |]. intros H1. rewrite Hall, H1. reflexivity.
Qed.

(** ** Filling the first pool *)

Lemma lowest_set_bit_all_ones : lowest_set_bit all_ones 0.
Proof.
  pose proof word_bits_pos. split; [lia | split].
  - rewrite testbit_all_ones. cmp_cases.
  - intros j Hj. lia.
Qed.

Lemma first_block_fresh : first_block all_ones pool_init = fresh_block 0.
Proof.
  pose proof word_bits_pos. unfold first_block, fresh_block. f_equal.
  apply list_insert_id. apply lookup_replicate_2.
  unfold pools_in_block. lia.
Qed.

(** One allocate while pool 0 of the only block still has room. *)
Lemma allocate_first_pool debug n p :
  0 <= n < pool_size -> filled n p ->
  exists p',
    allocate debug 1 [first_block all_ones p] =
      Return (slot_addr 0 0 n)
        [first_block (if n + 1 <? pool_size then all_ones
                      else clear_bit all_ones 0) p'] /\
    filled (n + 1) p'.
Proof.
  intros Hn Hfill. pose proof word_bits_pos as Hpos.
  destruct (filled_step (malloc 0 + 0 * sizeof_pool) n p Hn Hfill)
    as (p' & Halloc & Hfill').
  exists p'. split; [| exact Hfill'].
  unfold allocate. simpl length. rewrite andb_false_r.
  unfold allocate_loop. simpl lookup. cbv iota beta. simpl unmaxed_pools.
  destruct (Z.eqb_spec all_ones 0) as [Hz|_];
    [now apply all_ones_nonzero in Hz |].
  unfold allocate_in. simpl unmaxed_pools.
  rewrite (ctz_lowest all_ones 0 all_ones_in_word lowest_set_bit_all_ones).
  simpl pools. change (Z.to_nat 0) with 0%nat.
  rewrite list_lookup_insert_eq
    by (rewrite length_replicate; unfold pools_in_block; lia).
  unfold pool_addr. simpl ptr. rewrite Halloc.
  rewrite (filled_full (n + 1) p') by (auto; lia).
  rewrite list_insert_insert_eq. unfold slot_addr, first_block. simpl.
  destruct (Z.leb_spec pool_size (n + 1)), (Z.ltb_spec (n + 1) pool_size);
    try lia; reflexivity.
Qed.

Lemma allocate_n_first_pool debug (n : nat) :
  malloc 0 <> 0 -> Z.of_nat n <= pool_size ->
  exists p,
    allocate_n debug n [fresh_block 0] =
      Return (map (fun j => slot_addr 0 0 (Z.of_nat j)) (seq 0 n))
        [first_block (if Z.of_nat n <? pool_size then all_ones
                      else clear_bit all_ones 0) p] /\
    filled (Z.of_nat n) p.
Proof.
  intros H0. pose proof pool_size_pos as Hps.
  induction n as [|n IH]; intros Hn.
  - exists pool_init. split; [| apply pool_init_filled].
    change (Z.of_nat 0) with 0.
    destruct (Z.ltb_spec 0 pool_size); [| lia].
    rewrite first_block_fresh. reflexivity.
  - destruct IH as (p & Hrun & Hfill); [lia |].
    destruct (Z.ltb_spec (Z.of_nat n) pool_size) as [Hlt|]; [| lia].
    destruct (allocate_first_pool debug (Z.of_nat n) p) as (p' & Ha & Hfill');
      [lia | exact Hfill |].
    exists p'. replace (Z.of_nat (S n)) with (Z.of_nat n + 1) by lia.
    split; [| exact Hfill'].
    rewrite seq_S, map_app. simpl allocate_n. rewrite Hrun, Ha.
    reflexivity.
Qed.

Lemma pool_at_first_block u p : pool_at (first_block u p) 0 = p.
Proof.
  pose proof word_bits_pos. unfold pool_at, first_block; simpl.
  rewrite list_lookup_insert_eq; [reflexivity |].
  rewrite length_replicate. unfold pools_in_block. lia.
Qed.

Lemma lowest_set_bit_second : lowest_set_bit (clear_bit all_ones 0) 1.
Proof.
  pose proof all_ones_in_word. split; [word_lia | split].
  - rewrite testbit_clear_bit_word, testbit_all_ones by (auto; lia).
    cmp_cases.
  - intros j Hj. replace j with 0 by lia.
    rewrite testbit_clear_bit_word by (auto; lia). apply andb_false_r.
Qed.

(** The allocate that follows the one filling pool 0. *)
Lemma allocate_second_pool debug p :
  exists mp2,
    allocate debug 1 [first_block (clear_bit all_ones 0) p] =
      Return (slot_addr 0 1 0) mp2.
Proof.
  pose proof word_bits_pos as Hpos. pose proof pool_size_pos as Hps.
  destruct (filled_step (malloc 0 + 1 * sizeof_pool) 0 pool_init)
    as (p' & Halloc & _); [lia | apply pool_init_filled |].
  unfold allocate. simpl length. rewrite andb_false_r.
  unfold allocate_loop. simpl lookup. cbv iota beta. simpl unmaxed_pools.
  destruct (Z.eqb_spec (clear_bit all_ones 0) 0) as [Hz|_].
  { exfalso. revert Hz.
    apply (lowest_set_bit_nonzero _ 1), lowest_set_bit_second. }
  unfold allocate_in. simpl unmaxed_pools.
  rewrite (ctz_lowest _ 1 (clear_bit_in_word _ _) lowest_set_bit_second).
  simpl pools. change (Z.to_nat 1) with 1%nat.
  rewrite list_lookup_insert_ne, lookup_replicate_2
    by (unfold pools_in_block; word_lia || lia).
  unfold pool_addr. simpl ptr. rewrite Halloc. eexists. reflexivity.
Qed.

(** C8. From a freshly constructed multi-pool, the first [b*b]
    allocations return [data[0]], ..., [data[b*b-1]] of pool 0 of the first
    block; bit 0 of that block's [unmaxed_pools] is set up to the
    [b*b]-th allocation, which fills pool 0 and clears it; the next
    allocation returns [data[0]] of pool 1 of the first block. *)
Theorem fill_first_pool debug :
  granted 0 ->
  multi_pool_new = Return tt [fresh_block 0] /\
  (forall n : nat, Z.of_nat n <= pool_size ->
     exists blk,
       allocate_n debug n [fresh_block 0] =
         Return (map (fun j => slot_addr 0 0 (Z.of_nat j)) (seq 0 n)) [blk] /\
       pool_full (pool_at blk 0) = (Z.of_nat n =? pool_size) /\
       Z.testbit (unmaxed_pools blk) 0 = (Z.of_nat n <? pool_size)) /\
  exists ps mp1 mp2,
    allocate_n debug (Z.to_nat pool_size) [fresh_block 0] = Return ps mp1 /\
    allocate debug 1 mp1 = Return (slot_addr 0 1 0) mp2 /\
    data_addr (malloc 0 + 1 * sizeof_pool) 0 <= slot_addr 0 1 0
      < data_addr (malloc 0 + 1 * sizeof_pool) pool_size.
Proof.
  intros Hg. pose proof Hg as (_ & H0). pose proof pool_size_pos as Hps.
  split; [now apply multi_pool_new_eq | split].
  - intros n Hn.
    destruct (allocate_n_first_pool debug n H0 Hn) as (p & Hrun & Hfill).
    eexists. split; [exact Hrun |]. rewrite pool_at_first_block.
    rewrite (filled_full (Z.of_nat n) p) by (auto; lia). simpl unmaxed_pools.
    split.
    + destruct (Z.leb_spec pool_size (Z.of_nat n)),
               (Z.eqb_spec (Z.of_nat n) pool_size); auto; lia.
    + destruct (Z.ltb_spec (Z.of_nat n) pool_size).
      * rewrite testbit_all_ones. pose proof word_bits_pos. cmp_cases.
      * rewrite testbit_clear_bit_word by (auto using all_ones_in_word; lia).
        apply andb_false_r.
  - destruct (allocate_n_first_pool debug (Z.to_nat pool_size) H0)
      as (p & Hrun & Hfill); [lia |].
    rewrite Z2Nat.id in * by lia. rewrite Z.ltb_irrefl in Hrun.
    destruct (allocate_second_pool debug p) as (mp2 & Ha).
    eexists _, _, mp2. split; [exact Hrun | split; [exact Ha |]].
    unfold slot_addr, data_addr. nia.
Qed.

(** ** Filling the first block *)

Lemma fresh_block_filled : malloc 0 <> 0 -> block_filled 0 (fresh_block 0).
Proof.
  intros H0. pose proof pool_size_pos as Hps. pose proof word_bits_pos.
  split; [apply (fresh_block_inv 0 H0) | split].
  - intros i Hi. simpl. rewrite testbit_all_ones.
    unfold pools_in_block in Hi. cmp_cases; nia.
  - intros i Hi. rewrite pool_at_fresh by auto.
    replace (pool_share 0 i) with 0; [apply pool_init_filled |].
    unfold pool_share. unfold pools_in_block in Hi. nia.
Qed.

(** One allocate while the only block still has room: the slots are
    handed out in address order. *)
Lemma block_filled_step debug m blk :
  0 <= m < pools_in_block * pool_size -> block_filled m blk ->
  exists blk',
    allocate debug 1 [blk] =
      Return (slot_addr 0 (m / pool_size) (m mod pool_size)) [blk'] /\
    block_filled (m + 1) blk'.
Proof.
  intros Hm ((Hptr & H0 & Hin & Hlen & Hpwf) & Hbits & Hpools).
  pose proof pool_size_pos as Hps. pose proof word_bits_pos as Hpos.
  pose proof pools_in_block_eq as Hpib.
  set (i0 := m / pool_size). set (r := m mod pool_size).
  assert (Hdm : m = pool_size * i0 + r) by (apply Z.div_mod; lia).
  assert (Hr : 0 <= r < pool_size) by (apply Z.mod_pos_bound; lia).
  assert (Hi0 : 0 <= i0 < pools_in_block).
  { split; [apply Z.div_pos; lia | apply Z.div_lt_upper_bound; lia]. }
  clearbody i0 r.
  assert (Hl : lowest_set_bit (unmaxed_pools blk) i0).
  { split; [lia | split].
    - rewrite Hbits by lia. cmp_cases.
    - intros j Hj. rewrite Hbits by lia. cmp_cases. }
  assert (Hshare : pool_share m i0 = r) by (unfold pool_share; nia).
  pose proof (Hpools i0 Hi0) as Hfill. rewrite Hshare in Hfill.
  destruct (filled_step (pool_addr blk i0) r (pool_at blk i0) Hr Hfill)
    as (p' & Ha & Hfill').
  unfold allocate. simpl length. rewrite andb_false_r.
  unfold allocate_loop. simpl lookup. cbv iota beta.
  destruct (Z.eqb_spec (unmaxed_pools blk) 0) as [Hz|_];
    [now apply lowest_set_bit_nonzero in Hl |].
  unfold allocate_in.
  rewrite (ctz_lowest _ i0 Hin Hl), (pool_at_lookup blk i0), Ha by auto.
  rewrite (filled_full (r + 1) p') by (auto; lia).
  set (um' := if pool_size <=? r + 1 then clear_bit (unmaxed_pools blk) i0
              else unmaxed_pools blk).
  set (blk' := {| ptr := ptr blk; unmaxed_pools := um';
                  pools := <[Z.to_nat i0 := p']> (pools blk) |}).
  exists blk'. split.
  { simpl. unfold slot_addr, pool_addr. now rewrite Hptr. }
  assert (Hpat : forall j, 0 <= j < pools_in_block ->
            pool_at blk' j = if j =? i0 then p' else pool_at blk j).
  { intros j Hj. unfold blk'.
    rewrite (pool_at_insert _ _ (unmaxed_pools blk)) by lia.
    destruct blk; reflexivity. }
  split; [| split].
  - split; [exact Hptr | split; [exact H0 | split; [| split]]].
    + unfold blk', um'; simpl.
      destruct (pool_size <=? r + 1); [apply clear_bit_in_word | exact Hin].
    + unfold blk'; simpl. now rewrite length_insert.
    + intros j Hj. rewrite Hpat by auto.
      destruct (j =? i0); [apply Hfill' | auto].
  - intros j Hj. simpl. unfold um'.
    destruct (Z.leb_spec pool_size (r + 1)).
    + rewrite testbit_clear_bit_word, Hbits by (auto; lia). cmp_cases.
    + rewrite Hbits by lia. cmp_cases.
  - intros j Hj. rewrite Hpat by auto.
    destruct (Z.eqb_spec j i0) as [->|Hne].
    + replace (pool_share (m + 1) i0) with (r + 1);
        [exact Hfill' | unfold pool_share; nia].
    + replace (pool_share (m + 1) j) with (pool_share m j); [auto |].
      unfold pool_share. word_lia.
Qed.

Lemma allocate_n_block_filled debug (n : nat) :
  malloc 0 <> 0 -> Z.of_nat n <= pools_in_block * pool_size ->
  exists blk,
    allocate_n debug n [fresh_block 0] =
      Return (map (fun j => slot_addr 0 (Z.of_nat j / pool_size)
                              (Z.of_nat j mod pool_size)) (seq 0 n)) [blk] /\
    block_filled (Z.of_nat n) blk.
Proof.
  intros H0. induction n as [|n IH]; intros Hn.
  - exists (fresh_block 0). split; [reflexivity | now apply fresh_block_filled].
  - destruct IH as (blk & Hrun & Hfill); [lia |].
    destruct (block_filled_step debug (Z.of_nat n) blk) as (blk' & Ha & Hfill');
      [lia | exact Hfill |].
    exists blk'. replace (Z.of_nat (S n)) with (Z.of_nat n + 1) by lia.
    split; [| exact Hfill'].
    rewrite seq_S, map_app. simpl allocate_n. rewrite Hrun, Ha. reflexivity.
Qed.

Lemma filled_exhausted p : filled pool_size p -> p = exhausted_pool.
Proof.
  intros Hfill. pose proof pool_size_pos as Hps. pose proof word_bits_pos.
  assert (Hu : unused_words p = 0).
  { apply Z.eqb_eq. change (pool_full p = true).
    rewrite (filled_full pool_size p) by (auto; lia). now apply Z.leb_le. }
  assert (Hw : forall k, 0 <= k < word_bits -> slot_word p k = 0).
  { intros k Hk. apply (filled_word_zero pool_size); auto.
    unfold pool_size. nia. }
  destruct Hfill as ((_ & Hlen & _) & _).
  destruct p as [u l]. simpl in *. unfold exhausted_pool. f_equal; [exact Hu |].
  apply list_eq. intros j.
  destruct (Nat.lt_ge_cases j (Z.to_nat word_bits)) as [Hlt|Hge].
  - rewrite lookup_replicate_2 by lia.
    specialize (Hw (Z.of_nat j) ltac:(lia)). unfold slot_word in Hw.
    simpl in Hw. rewrite Nat2Z.id in Hw.
    destruct (lookup_lt_is_Some_2 l j) as [w Hl]; [lia |].
    rewrite Hl in Hw |- *. simpl in Hw. now subst.
  - rewrite !lookup_ge_None_2; [reflexivity | | lia].
    rewrite length_replicate. lia.
Qed.

Lemma block_filled_exhausted blk :
  block_filled (pools_in_block * pool_size) blk -> blk = exhausted_block.
Proof.
  intros ((Hptr & H0 & Hin & Hlen & Hpwf) & Hbits & Hpools).
  pose proof pool_size_pos as Hps. pose proof word_bits_pos.
  pose proof pools_in_block_eq as Hpib.
  assert (Hu : unmaxed_pools blk = 0).
  { apply in_word_ext; [exact Hin | apply in_word_0 |].
    intros j Hj. rewrite Hbits, Z.bits_0 by lia. cmp_cases; nia. }
  assert (Hp : forall i, 0 <= i < pools_in_block ->
            pool_at blk i = exhausted_pool).
  { intros i Hi. apply filled_exhausted.
    replace pool_size with (pool_share (pools_in_block * pool_size) i) at 1;
      [auto | unfold pool_share; nia]. }
  destruct blk as [a u l]. simpl in *. unfold exhausted_block.
  f_equal; auto.
  apply list_eq. intros j.
  destruct (Nat.lt_ge_cases j (Z.to_nat pools_in_block)) as [Hlt|Hge].
  - rewrite lookup_replicate_2 by lia.
    specialize (Hp (Z.of_nat j) ltac:(lia)). unfold pool_at in Hp.
    simpl in Hp. rewrite Nat2Z.id in Hp.
    destruct (lookup_lt_is_Some_2 l j) as [q Hl]; [lia |].
    rewrite Hl in Hp |- *. simpl in Hp. now subst.
  - rewrite !lookup_ge_None_2; [reflexivity | | lia].
    rewrite length_replicate. lia.
Qed.

(** [b*b*b] allocations from the construction fill the first block. *)
Lemma exhausted_block_reachable debug :
  granted 0 -> exists live, reachable debug [exhausted_block] live.
Proof.
  intros Hg. pose proof Hg as (_ & H0).
  pose proof pool_size_pos as Hps. pose proof word_bits_pos.
  destruct (allocate_n_block_filled debug
              (Z.to_nat (pools_in_block * pool_size)) H0)
    as (blk & Hrun & Hfill); [unfold pools_in_block; nia |].
  rewrite Z2Nat.id in Hfill by (unfold pools_in_block; nia).
  apply block_filled_exhausted in Hfill. subst blk.
  eexists. eapply allocate_n_reachable; [| exact Hrun].
  apply reach_new. now apply multi_pool_new_eq.
Qed.

(** ** The count argument and the failure path *)

(** C10. In a release build [allocate(n)] is [allocate(1)] for every
    [n]: same result and same effect on the state. Whatever [n] is, the
    call hands out exactly one slot: whenever it returns, in a state of
    the multi-pool, the address returned is the address of one slot that
    was free, that slot is marked as taken, at most one block is appended
    and no other slot bit changes ([alloc_good]); and it does return, in
    every state of the right shape in which the pools offered are not
    full, when [new_block] gets its block. [deallocate(p, n)] is
    [deallocate(p, 1)] in every build; only the debug build of [allocate]
    looks at [n]. *)
Theorem count_argument_ignored (debug : bool) (n p : Z) (mp : multi_pool_t) :
  allocate false n mp = allocate false 1 mp /\
  deallocate debug p n mp = deallocate debug p 1 mp /\
  allocate true n mp = (if n =? 1 then allocate true 1 mp else AssertFailed) /\
  (forall dbg live q mp',
     reachable dbg mp live -> allocate false n mp = Return q mp' ->
     alloc_good mp (Return q mp')) /\
  (mp_inv mp -> mp_sound mp -> granted (length mp) ->
   alloc_good mp (allocate false n mp)).
Proof.
  split; [reflexivity | split; [reflexivity | split; [| split]]].
  - unfold allocate. destruct (n =? 1); reflexivity.
  - intros dbg live q mp' Hr Ha.
    destruct (reachable_inv dbg mp live Hr) as (Hinv & _).
    exact (allocate_return false mp q mp' Hinv Ha).
  - intros Hinv Hsnd Hg.
    exact (allocate_good false mp Hinv Hsnd Hg).
Qed.

Lemma allocate_in_no_failure i blk mp s :
  allocate_in i blk mp <> AllocFailure s.
Proof.
  unfold allocate_in.
  destruct (ctz _); [| discriminate].
  destruct (_ !! _); [| discriminate].
  destruct (pool_allocate _ _) as [[q p']|]; discriminate.
Qed.

(** A failure is reported only by [push_back], and with the blocks as
    they were. *)
Lemma allocate_fresh_failure mp s :
  allocate_fresh mp = AllocFailure s ->
  s = mp /\ push_back_ok (length mp) = false.
Proof.
  unfold allocate_fresh, new_block.
  destruct (push_back_ok (length mp)); simpl.
  - destruct (_ =? 0); [discriminate |].
    destruct (last _); [| discriminate].
    destruct (_ !! _); [| discriminate].
    destruct (pool_allocate _ _) as [[q p']|]; discriminate.
  - intros H. inversion H. auto.
Qed.

Lemma allocate_loop_failure mp s m :
  allocate_loop m mp = AllocFailure s ->
  s = mp /\ push_back_ok (length mp) = false.
Proof.
  induction m as [|m IH]; simpl.
  - apply allocate_fresh_failure.
  - destruct (mp !! m); [| discriminate].
    destruct (_ =? 0); [exact IH |].
    intros H. now apply allocate_in_no_failure in H.
Qed.

(** With no block offering a pool, the scan falls through. *)
Lemma allocate_loop_exhausted mp :
  (forall blk, In blk mp -> unmaxed_pools blk = 0) ->
  forall m, (m <= length mp)%nat -> allocate_loop m mp = allocate_fresh mp.
Proof.
  intros Hall. induction m as [|m IH]; intros Hm; [reflexivity |].
  destruct (lookup_lt_is_Some_2 mp m) as [blk Hblk]; [lia |].
  simpl. rewrite Hblk, (Hall blk); [apply IH; lia |].
  apply list_elem_of_In, list_elem_of_lookup. eauto.
Qed.

Lemma allocate_fresh_eq mp :
  granted (length mp) ->
  exists p',
    allocate_fresh mp =
      Return (slot_addr (length mp) 0 0)
        (mp ++ [{| ptr := malloc (length mp);
                   unmaxed_pools := all_ones;
                   pools := <[0%nat := p']>
                     (replicate (Z.to_nat pools_in_block) pool_init) |}]) /\
    filled 1 p'.
Proof.
  intros Hg. pose proof word_bits_pos as Hpos.
  destruct (filled_step (malloc (length mp)) 0 pool_init)
    as (p' & Halloc & Hfill);
    [pose proof pool_size_pos; lia | apply pool_init_filled |].
  exists p'. split; [| exact Hfill].
  unfold allocate_fresh. rewrite new_block_eq by exact Hg.
  rewrite last_snoc. simpl ptr. simpl pools.
  rewrite lookup_replicate_2 by (unfold pools_in_block; lia).
  rewrite Halloc, length_app. simpl length.
  rewrite Nat.add_1_r, Nat.pred_succ.
  rewrite insert_app_r_alt, Nat.sub_diag by lia.
  unfold slot_addr. simpl. do 2 f_equal. lia.
Qed.

(** C5, as the code has it. The only failure [allocate(1)] reports is
    the exception of [memory_blocks.push_back], and it leaves the blocks as
    they were. When no block offers a pool and [push_back] succeeds: if
    [malloc] returned a block, it is appended, the blocks already present
    are kept, and [data[0]] of its pool 0 is returned; if [malloc] returned
    null, no failure is reported: the pointer is used unchecked, which is
    undefined. *)
Theorem allocate_failure_not_surfaced debug mp :
  (forall s, allocate debug 1 mp = AllocFailure s ->
     s = mp /\ push_back_ok (length mp) = false) /\
  ((forall blk, In blk mp -> unmaxed_pools blk = 0) ->
     (push_back_ok (length mp) = false ->
        allocate debug 1 mp = AllocFailure mp) /\
     (push_back_ok (length mp) = true -> malloc (length mp) = 0 ->
        allocate debug 1 mp = Undefined) /\
     (push_back_ok (length mp) = true -> malloc (length mp) <> 0 ->
        exists blk,
          allocate debug 1 mp =
            Return (slot_addr (length mp) 0 0) (mp ++ [blk]))).
Proof.
  unfold allocate. simpl. rewrite andb_false_r. split.
  - intros s. apply allocate_loop_failure.
  - intros Hall. rewrite allocate_loop_exhausted by auto.
    split; [| split].
    + intros Hp. unfold allocate_fresh, new_block. now rewrite Hp.
    + intros Hp Hz. unfold allocate_fresh, new_block. simpl.
      now rewrite Hp, Hz.
    + intros Hp Hnz.
      destruct (allocate_fresh_eq mp (conj Hp Hnz)) as (p' & -> & _).
      eauto.
Qed.

(** ** Deallocation into an exhausted bucket *)

Lemma set_bit_zero_not_all_ones s :
  0 <= s < word_bits -> set_bit 0 s <> all_ones.
Proof.
  intros Hs Heq.
  assert (Hj : exists j, 0 <= j < word_bits /\ j <> s).
  { destruct (Z.eq_dec s 0); [exists 1 | exists 0]; split; word_lia. }
  destruct Hj as (j & Hj & Hne).
  assert (Hb : Z.testbit (set_bit 0 s) j = false).
  { rewrite testbit_set_bit_word, Z.bits_0 by (auto using in_word_0).
    simpl. now apply Z.eqb_neq. }
  rewrite Heq, testbit_all_ones in Hb. apply andb_false_iff in Hb.
  destruct Hb as [Hb|Hb]; [apply Z.leb_gt in Hb | apply Z.ltb_ge in Hb]; lia.
Qed.

(** Freeing a slot of a bucket that has no free slot: the slot bit is
    set, [unused_words] is left as it is. *)
Lemma pool_deallocate_exhausted this idx p :
  pool_wf p -> 0 <= idx < pool_size ->
  slot_word p (idx / word_bits) = 0 ->
  pool_deallocate this (data_addr this idx) p =
  Some {| unused_words := unused_words p;
          unallocated_slots :=
            <[Z.to_nat (idx / word_bits) := set_bit 0 (idx mod word_bits)]>
              (unallocated_slots p) |}.
Proof.
  intros Hwf Hidx Hz. destruct (slot_coords idx Hidx) as (Hk & Hs).
  rewrite pool_deallocate_eq, Hz by auto.
  destruct (Z.eqb_spec (set_bit 0 (idx mod word_bits)) all_ones) as [He|];
    [| reflexivity].
  now apply set_bit_zero_not_all_ones in He.
Qed.

(** ** The first block on its own *)

Lemma first_block_wf u p :
  malloc 0 <> 0 -> in_word u -> pool_wf p -> mp_wf [first_block u p].
Proof.
  intros H0 Hu Hp [|n] blk Hblk; simpl in Hblk; [| discriminate].
  inversion Hblk; subst. pose proof word_bits_pos.
  split; [reflexivity | split; [exact H0 | split; [exact Hu | split]]].
  - unfold first_block; simpl. now rewrite length_insert, length_replicate.
  - intros i Hi. unfold first_block. change 0%nat with (Z.to_nat 0).
    rewrite (pool_at_insert _ _ all_ones)
      by (rewrite ?length_replicate; unfold pools_in_block in *; lia).
    destruct (i =? 0); [exact Hp |].
    change (pool_wf (pool_at (fresh_block 0) i)).
    rewrite (pool_at_fresh 0 i Hi). apply pool_init_wf.
Qed.

Lemma first_block_insert u p u' p' :
  <[0%nat := {| ptr := ptr (first_block u p);
                unmaxed_pools := u';
                pools := <[Z.to_nat 0 := p']> (pools (first_block u p)) |}]>
    [first_block u p] = [first_block u' p'].
Proof.
  unfold first_block; simpl. now rewrite list_insert_insert_eq.
Qed.

Lemma allocate_first_block debug u p :
  in_word u -> lowest_set_bit u 0 ->
  allocate debug 1 [first_block u p] =
  match pool_allocate (malloc 0 + 0 * sizeof_pool) p with
  | Some (q, p') =>
      Return q [first_block (if pool_full p' then clear_bit u 0 else u) p']
  | None => Undefined
  end.
Proof.
  intros Hu Hl. pose proof word_bits_pos as Hpos.
  unfold allocate. simpl length. rewrite andb_false_r.
  unfold allocate_loop. simpl lookup. cbv iota beta.
  change (unmaxed_pools (first_block u p)) with u.
  destruct (Z.eqb_spec u 0) as [Hz|_];
    [now apply lowest_set_bit_nonzero in Hl |].
  unfold allocate_in.
  change (unmaxed_pools (first_block u p)) with u.
  rewrite (ctz_lowest u 0 Hu Hl).
  rewrite (pool_at_lookup (first_block u p) 0), pool_at_first_block;
    [| unfold first_block; simpl;
       now rewrite length_insert, length_replicate
     | unfold pools_in_block; lia].
  change (pool_addr (first_block u p) 0) with (malloc 0 + 0 * sizeof_pool).
  destruct (pool_allocate _ p) as [[q p']|]; [| reflexivity].
  now rewrite first_block_insert.
Qed.

Lemma deallocate_first_block debug cnt u p idx :
  malloc 0 <> 0 -> in_word u -> pool_wf p -> 0 <= idx < pool_size ->
  exists p',
    pool_deallocate (malloc 0 + 0 * sizeof_pool) (slot_addr 0 0 idx) p
      = Some p' /\
    deallocate debug (slot_addr 0 0 idx) cnt [first_block u p] =
      Return tt [first_block (set_bit u 0) p'].
Proof.
  intros H0 Hu Hp Hidx. pose proof word_bits_pos as Hpos.
  destruct (deallocate_eq debug cnt [first_block u p] 0 (first_block u p)
              0 idx) as (p' & Hpd & Hd);
    [now apply first_block_wf | reflexivity | unfold pools_in_block; lia
    | exact Hidx |].
  rewrite pool_at_first_block in Hpd.
  exists p'. split; [exact Hpd |].
  rewrite Hd. now rewrite first_block_insert.
Qed.

(** ** Where P1, B1 and the reuse of a freed slot fail *)

Lemma set_bit_zero_nonzero s : 0 <= s < word_bits -> set_bit 0 s <> 0.
Proof.
  intros Hs Hz.
  assert (Hb : Z.testbit (set_bit 0 s) s = true).
  { rewrite testbit_set_bit_word, Z.eqb_refl by (auto using in_word_0).
    apply orb_true_r. }
  rewrite Hz, Z.bits_0 in Hb. discriminate.
Qed.

(** C2 at its failing run: [b] allocations from [init()] use up bucket 0
    and clear bit 0 of [unused_words]; deallocating [data[0]], which is
    live, makes [unallocated_slots[0]] non-zero again, but the word is
    not all-ones, so bit 0 of [unused_words] stays clear: the state [p2]
    is one the pool reaches under the preconditions of its operations, and
    P1 does not hold in it. *)
Theorem pool_deallocate_breaks_P1 this :
  exists ps p1 p2 live,
    pool_allocate_n (Z.to_nat word_bits) this pool_init = Some (ps, p1) /\
    In (data_addr this 0) ps /\
    pool_deallocate this (data_addr this 0) p1 = Some p2 /\
    pool_reachable this p2 live /\
    slot_word p2 0 <> 0 /\
    Z.testbit (unused_words p2) 0 = false /\
    ~ P1 p2.
Proof.
  pose proof word_bits_pos as Hpos. pose proof pool_size_pos as Hps.
  destruct (pool_allocate_n_filled this (Z.to_nat word_bits))
    as (p1 & Hrun & Hfill); [word_lia |].
  rewrite Z2Nat.id in Hfill by lia.
  pose proof Hfill as (Hwf & Hu & _).
  assert (Hz : slot_word p1 (0 / word_bits) = 0).
  { rewrite Z.div_0_l by lia. apply (filled_word_zero word_bits); auto; lia. }
  assert (Hin : In (data_addr this 0)
                  (map (fun i => data_addr this (Z.of_nat i))
                     (seq 0 (Z.to_nat word_bits)))).
  { apply in_map_iff. exists 0%nat. split; [reflexivity |].
    apply in_seq. lia. }
  assert (Hd := pool_deallocate_exhausted this 0 p1 Hwf ltac:(lia) Hz).
  eexists _, p1, _, _. split; [exact Hrun | split; [exact Hin |]].
  split; [exact Hd | split].
  { eapply pool_reach_deallocate; [| | exact Hd].
    - eapply pool_allocate_n_reachable; [apply pool_reach_init | exact Hrun].
    - rewrite app_nil_r. apply in_rev. now rewrite rev_involutive. }
  rewrite Z.div_0_l, Z.mod_0_l by lia. change (Z.to_nat 0) with 0%nat.
  assert (Hw : slot_word
            {| unused_words := unused_words p1;
               unallocated_slots := <[0%nat := set_bit 0 0]>
                                      (unallocated_slots p1) |} 0 <> 0).
  { change 0%nat with (Z.to_nat 0).
    rewrite slot_word_insert, Z.eqb_refl by (destruct Hwf as (_ & ? & _); lia).
    apply set_bit_zero_nonzero. lia. }
  assert (Hb : Z.testbit (unused_words p1) 0 = false).
  { rewrite Hu by lia. cmp_cases. }
  split; [exact Hw | split; [exact Hb |]].
  intros HP. destruct (HP 0 ltac:(lia)) as [_ H].
  simpl unused_words in H. rewrite H in Hb; [discriminate | exact Hw].
Qed.

Lemma set_clear_first : set_bit (clear_bit all_ones 0) 0 = all_ones.
Proof.
  pose proof word_bits_pos.
  apply in_word_ext; [apply set_bit_in_word | apply all_ones_in_word |].
  intros j Hj.
  rewrite testbit_set_bit_word by (auto using clear_bit_in_word; lia).
  rewrite testbit_clear_bit_word by (auto using all_ones_in_word; lia).
  rewrite testbit_all_ones.
  destruct (Z.eqb_spec j 0); cmp_cases.
Qed.

(** C3 at its failing run: [b*b] allocations fill pool 0 of the first
    block; [deallocate] of the first pointer, which is live, sets bit 0
    of [unmaxed_pools], but pool 0 still has [unused_words = 0], so it is
    still full: in this state, which the multi-pool reaches under the
    preconditions of its operations, B1 does not hold, and the next
    [allocate] calls [ctz] on 0. *)
Theorem deallocate_breaks_B1 debug :
  granted 0 ->
  exists ps mp1 blk live,
    multi_pool_new = Return tt [fresh_block 0] /\
    allocate_n debug (Z.to_nat pool_size) [fresh_block 0] = Return ps mp1 /\
    In (slot_addr 0 0 0) ps /\
    deallocate debug (slot_addr 0 0 0) 1 mp1 = Return tt [blk] /\
    reachable debug [blk] live /\
    Z.testbit (unmaxed_pools blk) 0 = true /\
    pool_full (pool_at blk 0) = true /\
    ~ B1 blk /\
    allocate debug 1 [blk] = Undefined.
Proof.
  intros Hg. pose proof Hg as (_ & H0).
  pose proof word_bits_pos as Hpos. pose proof pool_size_pos as Hps.
  destruct (allocate_n_first_pool debug (Z.to_nat pool_size) H0)
    as (p & Hrun & Hfill); [lia |].
  assert (Hin : In (slot_addr 0 0 0)
                  (map (fun j => slot_addr 0 0 (Z.of_nat j))
                     (seq 0 (Z.to_nat pool_size)))).
  { apply in_map_iff. exists 0%nat. split; [reflexivity |].
    apply in_seq. lia. }
  assert (Hr1 := allocate_n_reachable debug _ _ [] _ _
                   (reach_new debug _ (multi_pool_new_eq Hg)) Hrun).
  rewrite Z2Nat.id in * by lia. rewrite Z.ltb_irrefl in Hrun, Hr1.
  pose proof Hfill as (Hwf & _).
  assert (Hfull : unused_words p = 0).
  { apply Z.eqb_eq. change (pool_full p = true).
    rewrite (filled_full pool_size p) by (auto; lia). now apply Z.leb_le. }
  destruct (deallocate_first_block debug 1 (clear_bit all_ones 0) p 0 H0)
    as (p' & Hpd & Hd); [apply clear_bit_in_word | exact Hwf | lia |].
  unfold slot_addr in Hpd.
  rewrite pool_deallocate_exhausted in Hpd; [| exact Hwf | lia |].
  2:{ rewrite Z.div_0_l by lia.
      apply (filled_word_zero pool_size); auto; word_lia. }
  injection Hpd as <-. rewrite Hfull, set_clear_first in Hd.
  eexists _, _, _, _.
  split; [now apply multi_pool_new_eq | split; [exact Hrun |]].
  split; [exact Hin | split; [exact Hd | split]].
  { eapply reach_deallocate; [exact Hr1 | | exact Hd].
    rewrite app_nil_r. apply in_rev. now rewrite rev_involutive. }
  rewrite pool_at_first_block.
  change (unmaxed_pools (first_block all_ones ?q)) with all_ones.
  assert (Hb : Z.testbit all_ones 0 = true)
    by (rewrite testbit_all_ones; cmp_cases).
  split; [exact Hb | split; [reflexivity | split]].
  - intros HB. destruct (HB 0) as [H _]; [unfold pools_in_block; lia |].
    rewrite pool_at_first_block in H. specialize (H Hb). discriminate.
  - rewrite allocate_first_block
      by (auto using all_ones_in_word, lowest_set_bit_all_ones).
    unfold pool_allocate. simpl unused_words. rewrite ctz_zero. reflexivity.
Qed.

(** In the state reached by [b - 1] allocations, [allocate] returns
    [p1 = &data[b-1]], the last free slot of bucket 0; [deallocate(p1)]
    frees the slot but does not offer bucket 0 again; the next [allocate]
    returns [&data[b]], not [p1]. *)
Lemma reallocate_next_bucket debug :
  granted 0 ->
  exists ps mp0 mp1 mp2 mp3 live,
    multi_pool_new = Return tt [fresh_block 0] /\
    allocate_n debug (Z.to_nat (word_bits - 1)) [fresh_block 0]
      = Return ps mp0 /\
    reachable debug mp0 live /\
    allocate debug 1 mp0 = Return (slot_addr 0 0 (word_bits - 1)) mp1 /\
    deallocate debug (slot_addr 0 0 (word_bits - 1)) 1 mp1 = Return tt mp2 /\
    allocate debug 1 mp2 = Return (slot_addr 0 0 word_bits) mp3 /\
    slot_addr 0 0 word_bits <> slot_addr 0 0 (word_bits - 1).
Proof.
  intros Hg. pose proof Hg as (_ & H0).
  pose proof word_bits_pos as Hpos. pose proof pool_size_pos as Hps.
  destruct (allocate_n_first_pool debug (Z.to_nat (word_bits - 1)) H0)
    as (p0 & Hrun & Hfill0); [word_lia |].
  assert (Hr0 := allocate_n_reachable debug _ _ [] _ _
                   (reach_new debug _ (multi_pool_new_eq Hg)) Hrun).
  rewrite Z2Nat.id in * by word_lia.
  destruct (Z.ltb_spec (word_bits - 1) pool_size) as [_|]; [| word_lia].
  destruct (allocate_first_pool debug (word_bits - 1) p0) as (p1 & Ha1 & Hfill1);
    [word_lia | exact Hfill0 |].
  replace (word_bits - 1 + 1) with word_bits in * by lia.
  destruct (Z.ltb_spec word_bits pool_size) as [_|]; [| word_lia].
  pose proof Hfill1 as (Hwf1 & Hu1 & Hs1).
  destruct (slot_coords (word_bits - 1)) as (Hk & Hs); [word_lia |].
  assert (Hdiv : (word_bits - 1) / word_bits = 0)
    by (apply Z.div_small; lia).
  destruct (deallocate_first_block debug 1 all_ones p1 (word_bits - 1) H0)
    as (p2 & Hpd & Hd); [apply all_ones_in_word | exact Hwf1 | word_lia |].
  unfold slot_addr in Hpd.
  rewrite pool_deallocate_exhausted in Hpd; [| exact Hwf1 | word_lia |].
  2:{ rewrite Hdiv. apply (filled_word_zero word_bits); auto; lia. }
  injection Hpd as <-. rewrite Hdiv in Hd.
  assert (Hset : set_bit all_ones 0 = all_ones).
  { apply in_word_ext; [apply set_bit_in_word | apply all_ones_in_word |].
    intros j Hj.
    rewrite testbit_set_bit_word by (auto using all_ones_in_word; lia).
    rewrite testbit_all_ones. cmp_cases. }
  rewrite Hset in Hd.
  set (p2 := {| unused_words := unused_words p1;
                unallocated_slots :=
                  <[Z.to_nat 0 := set_bit 0 ((word_bits - 1) mod word_bits)]>
                    (unallocated_slots p1) |}) in *.
  assert (Hwf2 : pool_wf p2).
  { apply pool_wf_update; auto; [lia | apply set_bit_in_word |].
    now destruct Hwf1. }
  assert (Hw2 : slot_word p2 1 = slot_word p1 1).
  { unfold p2. rewrite slot_word_insert by (destruct Hwf1 as (_ & ? & _); lia).
    destruct p1; reflexivity. }
  assert (Hl1 : lowest_set_bit (unused_words p2) 1).
  { change (unused_words p2) with (unused_words p1).
    split; [word_lia | split].
    - rewrite Hu1 by word_lia. cmp_cases.
    - intros j Hj. rewrite Hu1 by lia. cmp_cases. }
  assert (Hl2 : lowest_set_bit (slot_word p2 1) 0).
  { rewrite Hw2. split; [lia | split].
    - rewrite Hs1 by word_lia. cmp_cases.
    - intros j Hj. lia. }
  pose proof (pool_allocate_eq (malloc 0 + 0 * sizeof_pool) p2 1 0
                Hwf2 Hl1 Hl2) as Ha2.
  eexists _, _, _, _, _, _.
  split; [now apply multi_pool_new_eq | split; [exact Hrun |]].
  split; [exact Hr0 |].
  split; [exact Ha1 | split; [exact Hd | split]].
  - rewrite allocate_first_block
      by (auto using all_ones_in_word, lowest_set_bit_all_ones).
    rewrite Ha2. unfold slot_addr. do 2 f_equal. lia.
  - unfold slot_addr, data_addr. nia.
Qed.

(** In the state reached by [b*b - 1] allocations, [allocate] returns
    [p1 = &data[b*b-1]], the last free slot of pool 0; [deallocate(p1)]
    sets bit 0 of [unmaxed_pools] but leaves the pool full; the next
    [allocate] selects pool 0 and calls [ctz] on 0. *)
Lemma reallocate_full_pool debug :
  granted 0 ->
  exists ps mp0 mp1 mp2 live,
    allocate_n debug (Z.to_nat (pool_size - 1)) [fresh_block 0]
      = Return ps mp0 /\
    reachable debug mp0 live /\
    allocate debug 1 mp0 = Return (slot_addr 0 0 (pool_size - 1)) mp1 /\
    deallocate debug (slot_addr 0 0 (pool_size - 1)) 1 mp1 = Return tt mp2 /\
    allocate debug 1 mp2 = Undefined.
Proof.
  intros Hg. pose proof Hg as (_ & H0).
  pose proof word_bits_pos as Hpos. pose proof pool_size_pos as Hps.
  destruct (allocate_n_first_pool debug (Z.to_nat (pool_size - 1)) H0)
    as (p0 & Hrun & Hfill0); [lia |].
  assert (Hr0 := allocate_n_reachable debug _ _ [] _ _
                   (reach_new debug _ (multi_pool_new_eq Hg)) Hrun).
  rewrite Z2Nat.id in * by lia.
  destruct (Z.ltb_spec (pool_size - 1) pool_size) as [_|]; [| lia].
  destruct (allocate_first_pool debug (pool_size - 1) p0) as (p1 & Ha1 & Hfill1);
    [lia | exact Hfill0 |].
  replace (pool_size - 1 + 1) with pool_size in * by lia.
  rewrite Z.ltb_irrefl in Ha1.
  pose proof Hfill1 as (Hwf1 & _).
  assert (Hfull : unused_words p1 = 0).
  { apply Z.eqb_eq. change (pool_full p1 = true).
    rewrite (filled_full pool_size p1) by (auto; lia). now apply Z.leb_le. }
  destruct (slot_coords (pool_size - 1)) as (Hk & Hs); [lia |].
  destruct (deallocate_first_block debug 1 (clear_bit all_ones 0) p1
              (pool_size - 1) H0)
    as (p2 & Hpd & Hd); [apply clear_bit_in_word | exact Hwf1 | lia |].
  unfold slot_addr in Hpd.
  rewrite pool_deallocate_exhausted in Hpd; [| exact Hwf1 | lia |].
  2:{ apply (filled_word_zero pool_size); auto.
      assert (Hdm := Z.div_mod (pool_size - 1) word_bits ltac:(lia)).
      unfold pool_size in *. nia. }
  injection Hpd as <-. rewrite Hfull, set_clear_first in Hd.
  eexists _, _, _, _, _.
  split; [exact Hrun | split; [exact Hr0 |]].
  split; [exact Ha1 | split; [exact Hd |]].
  rewrite allocate_first_block
    by (auto using all_ones_in_word, lowest_set_bit_all_ones).
  unfold pool_allocate. simpl unused_words. rewrite ctz_zero. reflexivity.
Qed.

(** C6 at its failing runs. After [deallocate(p1)] the next [allocate]
    does not return [p1] when [p1] was the last free slot of its bucket:
    it returns the first slot of the next bucket, and when [p1] was the
    last free slot of its pool it does not return at all ([ctz] of 0). *)
Theorem reallocate_returns_other_slot debug :
  granted 0 ->
  (exists mp0 mp1 mp2 mp3 live,
     reachable debug mp0 live /\
     allocate debug 1 mp0 = Return (slot_addr 0 0 (word_bits - 1)) mp1 /\
     deallocate debug (slot_addr 0 0 (word_bits - 1)) 1 mp1 = Return tt mp2 /\
     allocate debug 1 mp2 = Return (slot_addr 0 0 word_bits) mp3 /\
     slot_addr 0 0 word_bits <> slot_addr 0 0 (word_bits - 1)) /\
  (exists mp0 mp1 mp2 live,
     reachable debug mp0 live /\
     allocate debug 1 mp0 = Return (slot_addr 0 0 (pool_size - 1)) mp1 /\
     deallocate debug (slot_addr 0 0 (pool_size - 1)) 1 mp1 = Return tt mp2 /\
     allocate debug 1 mp2 = Undefined).
Proof.
  intros Hg. split.
  - destruct (reallocate_next_bucket debug Hg)
      as (ps & mp0 & mp1 & mp2 & mp3 & live & _ & _ & Hr & Ha1 & Hd & Ha2 & Hne).
    exists mp0, mp1, mp2, mp3, live. auto.
  - destruct (reallocate_full_pool debug Hg)
      as (ps & mp0 & mp1 & mp2 & live & _ & Hr & Ha1 & Hd & Ha2).
    exists mp0, mp1, mp2, live. auto.
Qed.

(** * Further properties of the code *)

(** ** Bit operations *)

Lemma set_bit_id w k :
  in_word w -> 0 <= k < word_bits -> Z.testbit w k = true -> set_bit w k = w.
Proof.
  intros Hw Hk Hb. apply in_word_ext; [apply set_bit_in_word | exact Hw |].
  intros j Hj. rewrite testbit_set_bit_word by auto.
  destruct (Z.eqb_spec j k) as [->|]; [now rewrite Hb | apply orb_false_r].
Qed.

Lemma clear_bit_id w k :
  in_word w -> 0 <= k < word_bits -> Z.testbit w k = false ->
  clear_bit w k = w.
Proof.
  intros Hw Hk Hb. apply in_word_ext; [apply clear_bit_in_word | exact Hw |].
  intros j Hj. rewrite testbit_clear_bit_word by (auto; lia).
  destruct (Z.eqb_spec j k) as [->|]; [now rewrite Hb | apply andb_true_r].
Qed.

Lemma set_clear_bit w k :
  in_word w -> 0 <= k < word_bits -> Z.testbit w k = true ->
  set_bit (clear_bit w k) k = w.
Proof.
  intros Hw Hk Hb. apply in_word_ext; [apply set_bit_in_word | exact Hw |].
  intros j Hj.
  rewrite testbit_set_bit_word by (auto using clear_bit_in_word).
  rewrite testbit_clear_bit_word by (auto; lia).
  destruct (Z.eqb_spec j k) as [->|]; [now rewrite Hb |].
  now rewrite orb_false_r, andb_true_r.
Qed.

Lemma clear_set_bit w k :
  in_word w -> 0 <= k < word_bits -> Z.testbit w k = false ->
  clear_bit (set_bit w k) k = w.
Proof.
  intros Hw Hk Hb. apply in_word_ext; [apply clear_bit_in_word | exact Hw |].
  intros j Hj.
  rewrite testbit_clear_bit_word by (auto using set_bit_in_word; lia).
  rewrite testbit_set_bit_word by auto.
  destruct (Z.eqb_spec j k) as [->|]; [now rewrite Hb |].
  now rewrite orb_false_r, andb_true_r.
Qed.

Lemma clear_bit_changes w k :
  in_word w -> 0 <= k < word_bits -> Z.testbit w k = true ->
  clear_bit w k <> w.
Proof.
  intros Hw Hk Hb Heq.
  assert (Hc : Z.testbit (clear_bit w k) k = false).
  { rewrite testbit_clear_bit_word, Z.eqb_refl by (auto; lia).
    apply andb_false_r. }
  rewrite Heq in Hc. congruence.
Qed.

(** X2. On a word of [WordType] and bit indices inside the word,
    [set_bit] and [clear_bit] store a value of [WordType] again, and
    [test_bit] afterwards reads: the bit itself as set, respectively
    cleared, and every other bit as it was. *)
Theorem set_clear_test_bit w k j :
  in_word w -> 0 <= k < word_bits -> 0 <= j < word_bits ->
  in_word (set_bit w k) /\ in_word (clear_bit w k) /\
  test_bit (set_bit w k) j = test_bit w j || (j =? k) /\
  test_bit (clear_bit w k) j = test_bit w j && negb (j =? k).
Proof.
  intros Hw Hk Hj.
  split; [apply set_bit_in_word | split; [apply clear_bit_in_word |]].
  rewrite !test_bit_spec by auto.
  split; [now apply testbit_set_bit_word |].
  apply testbit_clear_bit_word; auto; lia.
Qed.

(** X3. [clear_bit] undoes [set_bit] on a bit that was clear, [set_bit]
    undoes [clear_bit] on a bit that was set, and each of the two is
    idempotent. *)
Theorem set_clear_bit_round_trip w k :
  in_word w -> 0 <= k < word_bits ->
  (test_bit w k = false -> clear_bit (set_bit w k) k = w) /\
  (test_bit w k = true -> set_bit (clear_bit w k) k = w) /\
  set_bit (set_bit w k) k = set_bit w k /\
  clear_bit (clear_bit w k) k = clear_bit w k.
Proof.
  intros Hw Hk. rewrite test_bit_spec by auto.
  split; [now apply clear_set_bit | split; [now apply set_clear_bit |]].
  split.
  - apply set_bit_id; [apply set_bit_in_word | exact Hk |].
    rewrite testbit_set_bit_word, Z.eqb_refl by auto. apply orb_true_r.
  - apply clear_bit_id; [apply clear_bit_in_word | exact Hk |].
    rewrite testbit_clear_bit_word, Z.eqb_refl by (auto; lia).
    apply andb_false_r.
Qed.

(** ** The variants of ctz *)

(** X1. On every non-zero word the portable [ctz] loop ends inside the
    word and returns the index of the lowest set bit: that bit is set,
    every bit below it is clear, and [test_bit] reads it as set. *)
Theorem ctz_finds_lowest_set_bit n :
  in_word n -> n <> 0 ->
  exists k,
    ctz n = Some k /\ 0 <= k < word_bits /\
    Z.testbit n k = true /\
    (forall j, 0 <= j < k -> Z.testbit n j = false) /\
    test_bit n k = true.
Proof.
  intros Hw Hnz. destruct (ctz_spec n Hw Hnz) as (k & E & Hr & Hb & Hlow).
  exists k. rewrite test_bit_spec by exact Hr. auto.
Qed.

Lemma testbit_below n w k :
  0 <= w -> 0 <= n < 2 ^ w -> Z.testbit n k = true -> k < w.
Proof.
  intros Hw Hn Hb. destruct (Z.lt_ge_cases k w) as [|Hge]; [assumption |].
  rewrite <- (Z.mod_small n (2 ^ w)) in Hb by exact Hn.
  rewrite Z.mod_pow2_bits_high in Hb by lia. discriminate.
Qed.

(** X18. For a word type narrower than 32 bits, [ctz] widens the word to
    [u32_t] and scans that: on every non-zero word of [w < 32] bits it
    returns the index of the lowest set bit, which lies inside the
    narrow word. *)
Theorem ctz_sub32_lowest_set_bit w n :
  0 < w < 32 -> 0 < n < 2 ^ w ->
  exists k,
    ctz_sub32 n = Some k /\ 0 <= k < w /\
    Z.testbit n k = true /\
    forall j, 0 <= j < k -> Z.testbit n j = false.
Proof.
  intros Hw Hn.
  assert (Hlt : 2 ^ w < 2 ^ 32) by (apply Z.pow_lt_mono_r; lia).
  unfold ctz_sub32. rewrite u32_small by lia. cbv zeta.
  destruct (Z.eqb_spec n 0) as [|_]; [lia |].
  destruct (ctz_loop_spec n 32 0) as (Hr & Hb & Hlow); [lia | |].
  - exists (Z.log2 n). split; [| apply Z.bit_log2; lia].
    split; [apply Z.log2_nonneg |].
    apply Z.log2_lt_pow2; lia.
  - eexists. split; [reflexivity |].
    split; [| split; [exact Hb | exact Hlow]].
    split; [lia |]. apply (testbit_below n w); [lia | lia | exact Hb].
Qed.

Lemma ctz_builtin n :
  in_word n -> builtin_ctz word_bits (n mod 2 ^ word_bits) = ctz n.
Proof.
  intros Hw. rewrite Z.mod_small by exact Hw. reflexivity.
Qed.

(** X19. The GNUC variant of [ctz]. Where [unsigned long] has 64 bits,
    and for [u32_t] everywhere, it returns what the portable loop
    returns, on every word. Where [unsigned long] has 32 bits, the
    conversion of a [u64_t] argument drops its upper half: on a non-zero
    word whose lower 32 bits are clear the built-in is called on 0, which
    is undefined, while the portable loop returns an index from 32 on. *)
Theorem ctz_gnuc_unsigned_long long_bits n :
  in_word n ->
  (word_bits = 32 \/ long_bits = 64 -> ctz_gnuc long_bits n = ctz n) /\
  (word_bits = 64 -> long_bits = 32 -> n <> 0 -> n mod 2 ^ 32 = 0 ->
     ctz_gnuc long_bits n = None /\
     exists k, ctz n = Some k /\ 32 <= k < 64).
Proof.
  intros Hw. split.
  - intros Hcase. unfold ctz_gnuc.
    destruct word_bits_u32_u64 as [Hb|Hb].
    + rewrite <- (ctz_builtin n Hw). rewrite Hb. reflexivity.
    + destruct Hcase as [H32|Hl]; [lia |]. subst long_bits.
      rewrite <- (ctz_builtin n Hw). rewrite Hb. reflexivity.
  - intros Hb Hl Hnz Hlow. unfold ctz_gnuc. subst long_bits.
    rewrite Hb, Hlow. split; [reflexivity |].
    destruct (ctz_spec n Hw Hnz) as (k & E & Hr & Hset & _).
    exists k. split; [exact E |]. split; [| lia].
    destruct (Z.lt_ge_cases k 32) as [Hlt|]; [| assumption].
    assert (Hk : Z.testbit (n mod 2 ^ 32) k = true)
      by (rewrite Z.mod_pow2_bits_low by lia; exact Hset).
    rewrite Hlow, Z.bits_0 in Hk. discriminate.
Qed.

(** X20. Words with a clear lower half reach [ctz] in
    [pool_t::allocate]: once [m] slots of a fresh pool are handed out,
    [32 <= m < 64], the next [allocate] scans bucket 0, whose word is
    non-zero with its lower 32 bits clear; the portable loop returns [m]
    on it, the GNUC variant with a 32-bit [unsigned long] is undefined on
    it. *)
Theorem pool_allocate_ctz_upper_half this (m : nat) :
  word_bits = 64 -> 32 <= Z.of_nat m < 64 ->
  exists ps p,
    pool_allocate_n m this pool_init = Some (ps, p) /\
    pool_full p = false /\
    ctz (unused_words p) = Some 0 /\
    ctz (slot_word p 0) = Some (Z.of_nat m) /\
    ctz_gnuc 32 (slot_word p 0) = None.
Proof.
  intros Hb Hm. pose proof word_bits_pos as Hpos.
  destruct (pool_allocate_n_filled this m) as (p & Hrun & Hfill);
    [unfold pool_size; rewrite Hb; lia |].
  pose proof Hfill as (Hwf & Hu & Hs). pose proof Hwf as (Hin & _ & Hws).
  assert (Hl0 : lowest_set_bit (unused_words p) 0).
  { split; [lia | split; [| intros j Hj; lia]].
    rewrite Hu by lia. apply Z.ltb_lt. lia. }
  assert (Hlm : lowest_set_bit (slot_word p 0) (Z.of_nat m)).
  { split; [lia | split].
    - rewrite Hs by lia. apply Z.leb_le. lia.
    - intros j Hj. rewrite Hs by lia. apply Z.leb_gt. lia. }
  assert (Hlow : slot_word p 0 mod 2 ^ 32 = 0).
  { apply Z.bits_inj'. intros j Hj. rewrite Z.bits_0.
    destruct (Z.lt_ge_cases j 32).
    - rewrite Z.mod_pow2_bits_low, Hs by lia. apply Z.leb_gt. lia.
    - apply Z.mod_pow2_bits_high. lia. }
  exists (map (fun i => data_addr this (Z.of_nat i)) (seq 0 m)), p.
  split; [exact Hrun |].
  split; [apply Z.eqb_neq; now apply (lowest_set_bit_nonzero _ 0) |].
  split; [now apply ctz_lowest |].
  split; [apply ctz_lowest; [apply Hws; lia | exact Hlm] |].
  unfold ctz_gnuc. rewrite Hb, Hlow. reflexivity.
Qed.

(** ** Live pointers of a pool *)

Lemma data_addr_inj this i j : data_addr this i = data_addr this j -> i = j.
Proof. unfold data_addr. intros H. nia. Qed.

Lemma NoDup_remove_eq (q : Z) l : NoDup l -> NoDup (List.remove Z.eq_dec q l).
Proof.
  induction 1 as [|a l Hn Hd IH]; simpl; [constructor |].
  destruct (Z.eq_dec q a); [exact IH |].
  constructor; [| exact IH].
  intros Hin. apply Hn, list_elem_of_In.
  apply list_elem_of_In in Hin. apply in_remove in Hin. apply Hin.
Qed.

(** In every state of a pool the pointers handed out are pairwise
    distinct, and a slot bit is clear exactly when the address of the slot
    is among them. *)
Lemma pool_reachable_live this p live :
  pool_reachable this p live ->
  NoDup live /\
  forall idx, 0 <= idx < pool_size ->
    (pool_free p idx = false <-> In (data_addr this idx) live).
Proof.
  induction 1 as [|p live q p' Hr IH Hnf Ha|p live q p' Hr IH Hin Hd].
  - split; [constructor |]. intros idx Hidx.
    rewrite pool_free_init by exact Hidx. split; [discriminate | intros []].
  - destruct IH as (Hnd & Hiff).
    destruct (pool_reachable_ok this p live Hr) as (Hwf & Hs & Hc & Hlive).
    destruct (pool_allocate_ok this p Hwf Hs Hc Hnf)
      as (idx & p1 & Hidx & Ha1 & _ & _ & _ & Hfree & Hfree' & Hother).
    rewrite Ha in Ha1. inversion Ha1; subst. split.
    + constructor; [| exact Hnd]. intros Hq. apply list_elem_of_In in Hq.
      apply Hiff in Hq; [congruence | exact Hidx].
    + intros idx' Hidx'. destruct (Z.eq_dec idx' idx) as [->|Hne].
      * split; [intros _; now left | intros _; exact Hfree'].
      * rewrite Hother by auto. rewrite Hiff by auto. simpl.
        split; [now right |]. intros [Heq|Hq]; [| exact Hq].
        apply data_addr_inj in Heq. congruence.
  - destruct IH as (Hnd & Hiff).
    destruct (pool_reachable_ok this p live Hr) as (Hwf & Hs & Hc & Hlive).
    destruct (Hlive q Hin) as (idx & Hidx & ->).
    destruct (pool_deallocate_ok this idx p Hwf Hs Hc Hidx)
      as (p1 & Hd1 & _ & _ & _ & Hfree' & Hother).
    rewrite Hd in Hd1. inversion Hd1; subst.
    split; [now apply NoDup_remove_eq |].
    intros idx' Hidx'. destruct (Z.eq_dec idx' idx) as [->|Hne].
    + rewrite Hfree'. split; [discriminate |].
      intros Hq. now apply remove_In in Hq.
    + rewrite Hother by auto. rewrite Hiff by auto. split.
      * intros Hq. apply in_in_remove; [| exact Hq].
        intros Heq. apply data_addr_inj in Heq. congruence.
      * intros Hq. apply in_remove in Hq. apply Hq.
Qed.

(** X4. In every state a pool reaches from [init()], the pointers handed
    out and not yet given back are pairwise distinct addresses of slots of
    the pool, and the bit of a slot is clear exactly when its address is
    one of them. *)
Theorem pool_live_slots this p live :
  pool_reachable this p live ->
  NoDup live /\
  (forall q, In q live ->
     exists idx, 0 <= idx < pool_size /\ q = data_addr this idx) /\
  (forall idx, 0 <= idx < pool_size ->
     (pool_free p idx = false <-> In (data_addr this idx) live)).
Proof.
  intros Hr. destruct (pool_reachable_live this p live Hr) as (Hnd & Hiff).
  destruct (pool_reachable_ok this p live Hr) as (_ & _ & _ & Hlive).
  auto.
Qed.

(** X5. In every state of a pool in which [full()] is false,
    [allocate] is defined and returns the address of a slot inside
    [data] that is not among the pointers handed out; the pool it leaves
    is again such a state. *)
Theorem pool_allocate_fresh_slot this p live :
  pool_reachable this p live -> pool_full p = false ->
  exists idx p',
    0 <= idx < pool_size /\
    pool_allocate this p = Some (data_addr this idx, p') /\
    ~ In (data_addr this idx) live /\
    data_addr this 0 <= data_addr this idx /\
    data_addr this idx + sizeof_T <= data_addr this pool_size /\
    pool_reachable this p' (data_addr this idx :: live).
Proof.
  intros Hr Hnf.
  destruct (pool_reachable_live this p live Hr) as (_ & Hiff).
  destruct (pool_reachable_ok this p live Hr) as (Hwf & Hs & Hc & _).
  destruct (pool_allocate_ok this p Hwf Hs Hc Hnf)
    as (idx & p' & Hidx & Ha & _ & _ & _ & Hfree & _).
  exists idx, p'. split; [exact Hidx | split; [exact Ha |]].
  split; [| split; [| split]].
  - intros Hq. apply Hiff in Hq; [congruence | exact Hidx].
  - unfold data_addr. nia.
  - unfold data_addr. nia.
  - eapply pool_reach_allocate; eauto.
Qed.

(** X6. For a pool whose [WordType] is [u32_t] or [u64_t] (the widths
    of this development; [multi_pool_t] uses [u64_t]): whenever every
    pointer handed out has been given back, in whatever order the calls
    were made, the pool is as [init()] left it. Narrower word types, for
    which line 291 compares the word with [~WordType(0)] after integer
    promotion, are not covered. *)
Theorem pool_all_returned_init this p :
  pool_reachable this p [] -> p = pool_init.
Proof.
  intros Hr.
  destruct (pool_reachable_live this p [] Hr) as (_ & Hiff).
  destruct (pool_reachable_ok this p [] Hr) as (Hwf & _ & Hc & _).
  apply pool_all_free; [exact Hwf | exact Hc |].
  intros idx Hidx. destruct (pool_free p idx) eqn:E; [reflexivity |].
  now apply Hiff in E.
Qed.

(** ** allocate followed by deallocate, on a pool *)

Lemma pool_allocate_inv this p q p' :
  pool_wf p -> pool_allocate this p = Some (q, p') ->
  exists k s,
    lowest_set_bit (unused_words p) k /\
    lowest_set_bit (slot_word p k) s /\
    q = data_addr this (k * word_bits + s) /\
    p' = {| unused_words :=
              if clear_bit (slot_word p k) s =? 0
              then clear_bit (unused_words p) k else unused_words p;
            unallocated_slots :=
              <[Z.to_nat k := clear_bit (slot_word p k) s]>
                (unallocated_slots p) |}.
Proof.
  intros Hwf Ha. pose proof Hwf as (Hu & Hlen & Hws).
  pose proof Ha as H0. unfold pool_allocate in H0.
  destruct (ctz (unused_words p)) as [k0|] eqn:E1; [| discriminate].
  destruct (ctz_spec _ Hu (ctz_Some_nonzero _ _ E1)) as (k & Ek & Hk).
  pose proof Hk as (Hkr & _).
  assert (k0 = k) by congruence. subst k0. simpl in H0.
  rewrite (lookup_slot p k Hwf Hkr) in H0. simpl in H0.
  destruct (ctz (slot_word p k)) as [s0|] eqn:E2; [| discriminate].
  destruct (ctz_spec _ (Hws k Hkr) (ctz_Some_nonzero _ _ E2))
    as (s & Es & Hs).
  clear H0. rewrite (pool_allocate_eq this p k s Hwf Hk Hs) in Ha.
  inversion Ha; subst. exists k, s. auto.
Qed.

(** [deallocate] after [allocate], with the pool written out. *)
Lemma pool_round_trip this p q p' :
  pool_wf p -> pool_allocate this p = Some (q, p') ->
  exists p2,
    pool_deallocate this q p' = Some p2 /\
    (p2 = p <-> unused_words p' = unused_words p).
Proof.
  intros Hwf Ha. pose proof Hwf as (Hu & Hlen & Hws).
  pose proof word_bits_pos as Hpos.
  destruct (pool_allocate_inv this p q p' Hwf Ha)
    as (k & s & Hk & Hs & -> & ->).
  pose proof Hk as (Hkr & Hkset & _). pose proof Hs as (Hsr & Hsset & _).
  destruct (slot_index_div k s Hkr Hsr) as (Hdiv & Hmod).
  set (w := slot_word p k) in *. set (w' := clear_bit w s).
  set (u' := if w' =? 0 then clear_bit (unused_words p) k
             else unused_words p).
  assert (Hwin : in_word w) by (apply Hws; exact Hkr).
  assert (Hu' : in_word u').
  { unfold u'. destruct (w' =? 0); [apply clear_bit_in_word | exact Hu]. }
  assert (Hwf' : pool_wf (mk_pool u' (<[Z.to_nat k := w']>
                                        (unallocated_slots p)))).
  { apply pool_wf_update; auto. apply clear_bit_in_word. }
  rewrite pool_deallocate_eq; [| exact Hwf' | unfold pool_size; nia].
  rewrite Hdiv, Hmod. rewrite slot_word_insert, Z.eqb_refl by lia.
  assert (Hsc : set_bit w' s = w) by (now apply set_clear_bit).
  rewrite !Hsc. simpl unused_words. simpl unallocated_slots.
  rewrite list_insert_insert_eq.
  rewrite (list_insert_id (unallocated_slots p) (Z.to_nat k) w)
    by (apply lookup_slot; auto).
  eexists. split; [reflexivity |].
  unfold u'. destruct (Z.eqb_spec w' 0) as [Hz|Hnz].
  - assert (Hw0 : w = set_bit 0 s).
    { rewrite <- Hz. unfold w'. symmetry. now apply set_clear_bit. }
    destruct (Z.eqb_spec w all_ones) as [Hall|_].
    { rewrite Hw0 in Hall. now apply set_bit_zero_not_all_ones in Hall. }
    assert (Hne : clear_bit (unused_words p) k <> unused_words p)
      by (now apply clear_bit_changes).
    split; [| intros H; contradiction].
    intros Heq. apply (f_equal unused_words) in Heq. simpl in Heq.
    contradiction.
  - split; [reflexivity | intros _].
    destruct p as [u l]. simpl in *. f_equal.
    destruct (w =? all_ones); [| reflexivity].
    now apply set_bit_id.
Qed.

(** X7. [deallocate] of the pointer that [allocate] has just returned
    is defined, and it restores the pool exactly if and only if the
    allocation left [unused_words] as it was, that is, unless it took the
    last free slot of its bucket: [allocate] then cleared the bit of the
    bucket, and [deallocate], which sets it only for a bucket with every
    slot free, does not set it again. *)
Theorem pool_allocate_deallocate_round_trip this p q p' :
  pool_wf p -> pool_allocate this p = Some (q, p') ->
  exists p2,
    pool_deallocate this q p' = Some p2 /\
    (p2 = p <-> unused_words p' = unused_words p).
Proof. exact (pool_round_trip this p q p'). Qed.

(** A second [deallocate] of the same slot address changes nothing. *)
Lemma pool_deallocate_twice this idx p p1 :
  pool_wf p -> 0 <= idx < pool_size ->
  pool_deallocate this (data_addr this idx) p = Some p1 ->
  pool_wf p1 /\ pool_deallocate this (data_addr this idx) p1 = Some p1.
Proof.
  intros Hwf Hidx Hd. pose proof Hwf as (Hu & Hlen & Hws).
  destruct (slot_coords idx Hidx) as (Hk & Hs).
  rewrite pool_deallocate_eq in Hd by auto. inversion Hd as [Hp1].
  set (k := idx / word_bits) in *. set (s := idx mod word_bits) in *.
  set (w1 := set_bit (slot_word p k) s) in *.
  set (u1 := if w1 =? all_ones then set_bit (unused_words p) k
             else unused_words p) in *.
  assert (Hu1 : in_word u1).
  { unfold u1. destruct (w1 =? all_ones); [apply set_bit_in_word | exact Hu]. }
  assert (Hwf1 : pool_wf (mk_pool u1 (<[Z.to_nat k := w1]>
                                        (unallocated_slots p)))).
  { apply pool_wf_update; auto. apply set_bit_in_word. }
  split; [exact Hwf1 |].
  rewrite pool_deallocate_eq by auto. fold k s.
  rewrite slot_word_insert, Z.eqb_refl by lia.
  assert (Hw1 : set_bit w1 s = w1).
  { apply set_bit_id; [apply set_bit_in_word | exact Hs |].
    unfold w1. rewrite testbit_set_bit_word, Z.eqb_refl by auto.
    apply orb_true_r. }
  rewrite Hw1. simpl unused_words. simpl unallocated_slots.
  rewrite list_insert_insert_eq. do 2 f_equal.
  unfold u1. destruct (w1 =? all_ones); [| reflexivity].
  apply set_bit_id; [apply set_bit_in_word | exact Hk |].
  rewrite testbit_set_bit_word, Z.eqb_refl by auto. apply orb_true_r.
Qed.

(** ** Live pointers of a multi-pool *)

(** Two slots with the same address are the same slot. *)
Lemma slot_addr_inj n i idx n' i' idx' :
  malloc n <> 0 -> malloc n' <> 0 ->
  0 <= i < pools_in_block -> 0 <= idx < pool_size ->
  0 <= i' < pools_in_block -> 0 <= idx' < pool_size ->
  slot_addr n i idx = slot_addr n' i' idx' ->
  n = n' /\ i = i' /\ idx = idx'.
Proof.
  intros Hn Hn' Hi Hidx Hi' Hidx' Heq.
  pose proof (slot_in_block n i idx Hi Hidx) as Hb.
  pose proof (slot_in_block n' i' idx' Hi' Hidx') as Hb'.
  assert (Hnn : n = n').
  { destruct (Nat.eq_dec n n') as [|Hne]; [assumption | exfalso].
    destruct (malloc_fresh n n' Hne Hn Hn'); lia. }
  subst n'. split; [reflexivity |].
  pose proof (slot_in_data idx Hidx) as Hd.
  pose proof (slot_in_data idx' Hidx') as Hd'.
  pose proof (slot_addr_offset n i idx) as Ho.
  pose proof (slot_addr_offset n i' idx') as Ho'.
  assert (Hii : i = i') by nia.
  subst i'. split; [reflexivity | nia].
Qed.

Lemma mp_inv_malloc mp n :
  mp_inv mp -> (n < length mp)%nat -> malloc n <> 0.
Proof.
  intros Hinv Hn. destruct (lookup_lt_is_Some_2 mp n Hn) as [blk Hblk].
  now destruct (Hinv n blk Hblk) as ((_ & H & _) & _).
Qed.

(** In every state of a multi-pool the pointers handed out are pairwise
    distinct, and the bit of a slot of a block is clear exactly when the
    address of the slot is among them. *)
Lemma reachable_live debug mp live :
  reachable debug mp live ->
  NoDup live /\
  forall n i idx,
    (n < length mp)%nat -> 0 <= i < pools_in_block -> 0 <= idx < pool_size ->
    (free_bit mp n i idx = false <-> In (slot_addr n i idx) live).
Proof.
  induction 1 as [mp Hnew|mp live q mp' Hr IH Ha|mp live q mp' Hr IH Hin Hd].
  - apply new_block_Return in Hnew as (_ & ->).
    split; [constructor |]. intros n i idx _ Hi Hidx.
    change ([] ++ [fresh_block (length ([] : multi_pool_t))])
      with [fresh_block 0].
    rewrite free_bit_initial by auto. split; [discriminate | intros []].
  - destruct IH as (Hnd & Hiff).
    destruct (reachable_inv debug mp live Hr) as (Hinv & Hlive).
    destruct (allocate_return debug mp q mp' Hinv Ha)
      as (n0 & i0 & idx0 & mp1 & Heq & Hn0 & Hi0 & Hidx0 & Hinv' & _ & Hlen
            & Hfree & Hfree' & Hother).
    inversion Heq; subst q mp1. clear Heq.
    assert (Hm0 : malloc n0 <> 0) by (eapply mp_inv_malloc; eauto).
    assert (Hold : forall n i idx,
              0 <= i < pools_in_block -> 0 <= idx < pool_size ->
              In (slot_addr n i idx) live -> malloc n <> 0 ->
              (n < length mp)%nat).
    { intros n i idx Hi Hidx Hq Hm.
      destruct (Hlive _ Hq) as ([[n1 i1] idx1] & (Hn1 & Hi1 & Hidx1) & Hc).
      unfold coord_addr in Hc. simpl in Hn1, Hi1, Hidx1, Hc.
      assert (Hm1 : malloc n1 <> 0) by exact (mp_inv_malloc mp n1 Hinv Hn1).
      destruct (slot_addr_inj n i idx n1 i1 idx1 Hm Hm1 Hi Hidx Hi1 Hidx1 Hc)
        as (-> & _).
      exact Hn1. }
    split.
    + constructor; [| exact Hnd]. intros Hq. apply list_elem_of_In in Hq.
      pose proof (Hold n0 i0 idx0 Hi0 Hidx0 Hq Hm0) as Hlt.
      apply Hiff in Hq; auto. congruence.
    + intros n i idx Hn Hi Hidx.
      assert (Hm : malloc n <> 0) by (eapply mp_inv_malloc; eauto).
      destruct (Nat.eq_dec n n0) as [->|Hnn];
        [destruct (Z.eq_dec i i0) as [->|Hni];
         [destruct (Z.eq_dec idx idx0) as [->|Hnx] |] |].
      * split; [intros _; now left | intros _; exact Hfree'].
      * rewrite Hother by auto. simpl.
        destruct (Nat.lt_ge_cases n0 (length mp)) as [Hlt|Hge].
        -- rewrite Hiff by auto. split; [now right |].
           intros [Heq|Hq]; [| exact Hq].
           apply slot_addr_inj in Heq; auto. lia.
        -- unfold free_bit. rewrite (lookup_ge_None_2 mp n0) by lia.
           split; [discriminate |]. intros [Heq|Hq].
           ++ apply slot_addr_inj in Heq; auto. lia.
           ++ pose proof (Hold n0 i0 idx Hi Hidx Hq Hm0). lia.
      * rewrite Hother by auto. simpl.
        destruct (Nat.lt_ge_cases n0 (length mp)) as [Hlt|Hge].
        -- rewrite Hiff by auto. split; [now right |].
           intros [Heq|Hq]; [| exact Hq].
           apply slot_addr_inj in Heq; auto. lia.
        -- unfold free_bit. rewrite (lookup_ge_None_2 mp n0) by lia.
           split; [discriminate |]. intros [Heq|Hq].
           ++ apply slot_addr_inj in Heq; auto. lia.
           ++ pose proof (Hold n0 i idx Hi Hidx Hq Hm0). lia.
      * rewrite Hother by auto. simpl.
        destruct (Nat.lt_ge_cases n (length mp)) as [Hlt|Hge].
        -- rewrite Hiff by auto. split; [now right |].
           intros [Heq|Hq]; [| exact Hq].
           apply slot_addr_inj in Heq; auto. lia.
        -- unfold free_bit. rewrite (lookup_ge_None_2 mp n) by lia.
           split; [discriminate |]. intros [Heq|Hq].
           ++ apply slot_addr_inj in Heq; auto. lia.
           ++ pose proof (Hold n i idx Hi Hidx Hq Hm). lia.
  - destruct IH as (Hnd & Hiff).
    destruct (reachable_inv debug mp live Hr) as (Hinv & Hlive).
    destruct (Hlive q Hin) as ([[n0 i0] idx0] & (Hn0 & Hi0 & Hidx0) & ->).
    simpl in Hn0, Hi0, Hidx0. unfold coord_addr in *. simpl in Hd, Hin.
    simpl.
    destruct (deallocate_good debug 1 mp n0 i0 idx0 Hinv Hn0 Hi0 Hidx0)
      as (mp1 & Hd1 & Hinv' & Hlen & Hfree' & Hother).
    rewrite Hd in Hd1. inversion Hd1; subst mp1. clear Hd1.
    assert (Hm0 : malloc n0 <> 0) by exact (mp_inv_malloc mp n0 Hinv Hn0).
    split; [now apply NoDup_remove_eq |].
    intros n i idx Hn Hi Hidx. rewrite Hlen in Hn.
    assert (Hm : malloc n <> 0) by exact (mp_inv_malloc mp n Hinv Hn).
    assert (Hcase : (n = n0 /\ i = i0 /\ idx = idx0) \/
                    (n <> n0 \/ i <> i0 \/ idx <> idx0)).
    { destruct (Nat.eq_dec n n0), (Z.eq_dec i i0), (Z.eq_dec idx idx0);
        auto. }
    destruct Hcase as [(-> & -> & ->)|Hne].
    + rewrite Hfree'. split; [discriminate |].
      intros Hq. now apply remove_In in Hq.
    + rewrite Hother by auto. rewrite Hiff by auto. split.
      * intros Hq. apply in_in_remove; [| exact Hq].
        intros Heq. apply slot_addr_inj in Heq; auto. lia.
      * intros Hq. apply in_remove in Hq. apply Hq.
Qed.

Lemma reachable_length debug mp live :
  reachable debug mp live -> (1 <= length mp)%nat.
Proof.
  induction 1 as [mp Hnew|mp live q mp' Hr IH Ha|mp live q mp' Hr IH Hin Hd].
  - apply new_block_Return in Hnew as (_ & ->). simpl. lia.
  - destruct (reachable_inv debug mp live Hr) as (Hinv & _).
    destruct (allocate_return debug mp q mp' Hinv Ha)
      as (n0 & i0 & idx0 & mp1 & Heq & _ & _ & _ & _ & _ & Hlen & _).
    inversion Heq; subst. lia.
  - destruct (reachable_inv debug mp live Hr) as (Hinv & Hlive).
    destruct (Hlive q Hin) as ([[n0 i0] idx0] & (Hn0 & Hi0 & Hidx0) & ->).
    simpl in Hn0, Hi0, Hidx0. unfold coord_addr in Hd. simpl in Hd.
    destruct (deallocate_good debug 1 mp n0 i0 idx0 Hinv Hn0 Hi0 Hidx0)
      as (mp1 & Hd1 & _ & Hlen & _).
    rewrite Hd in Hd1. inversion Hd1; subst. lia.
Qed.

(** X9. In every state a multi-pool reaches from its construction, the
    pointers handed out and not yet given back are pairwise distinct
    addresses of slots of its blocks, and the bit of a slot is clear
    exactly when its address is one of them. *)
Theorem multi_pool_live_slots debug mp live :
  reachable debug mp live ->
  NoDup live /\
  (forall q, In q live ->
     exists n i idx,
       (n < length mp)%nat /\ 0 <= i < pools_in_block /\
       0 <= idx < pool_size /\ q = slot_addr n i idx) /\
  (forall n i idx,
     (n < length mp)%nat -> 0 <= i < pools_in_block ->
     0 <= idx < pool_size ->
     (free_bit mp n i idx = false <-> In (slot_addr n i idx) live)).
Proof.
  intros Hr. destruct (reachable_live debug mp live Hr) as (Hnd & Hiff).
  destruct (reachable_inv debug mp live Hr) as (_ & Hlive).
  split; [exact Hnd | split; [| exact Hiff]].
  intros q Hq. destruct (Hlive q Hq) as ([[n i] idx] & (Hn & Hi & Hidx) & ->).
  exists n, i, idx. auto.
Qed.

(** X10. In every state of a multi-pool, an [allocate(1)] that returns
    hands out the address of a slot that is not among the pointers handed
    out: it is not null and the slot lies inside the storage of one of
    the blocks; the state it leaves is again a state of the multi-pool. *)
Theorem allocate_returns_fresh_slot debug mp live q mp' :
  reachable debug mp live -> allocate debug 1 mp = Return q mp' ->
  ~ In q live /\ q <> 0 /\
  (exists n i idx,
     (n < length mp')%nat /\ 0 <= i < pools_in_block /\
     0 <= idx < pool_size /\ q = slot_addr n i idx /\
     malloc n <= q /\ q + sizeof_T <= malloc n + pools_in_block * sizeof_pool) /\
  reachable debug mp' (q :: live).
Proof.
  intros Hr Ha.
  assert (Hr' : reachable debug mp' (q :: live))
    by (eapply reach_allocate; eauto).
  destruct (reachable_live debug mp' (q :: live) Hr') as (Hnd & _).
  destruct (reachable_inv debug mp' (q :: live) Hr') as (Hinv' & Hlive').
  destruct (Hlive' q ltac:(now left))
    as ([[n i] idx] & (Hn & Hi & Hidx) & ->).
  simpl in Hn, Hi, Hidx. unfold coord_addr in *. simpl in *.
  assert (Hm : malloc n <> 0) by (eapply mp_inv_malloc; eauto).
  pose proof (slot_in_block n i idx Hi Hidx) as Hb.
  pose proof (malloc_range n Hm) as Hrange.
  split; [| split; [lia | split; [| exact Hr']]].
  - inversion Hnd as [|x l Hx Hl]; subst. intros Hq. apply Hx.
    now apply list_elem_of_In.
  - exists n, i, idx. repeat (split; [assumption || lia |]).
    pose proof (slot_addr_offset n i idx) as Ho.
    pose proof sizeof_pool_pos. nia.
Qed.

(** X11. Whenever every pointer handed out has been given back, in
    whatever order [allocate] and [deallocate] were called, every block
    is as [new_block] made it; the blocks themselves stay, at least the
    one of the constructor. *)
Theorem multi_pool_all_returned_fresh debug mp :
  reachable debug mp [] ->
  (1 <= length mp)%nat /\ mp = map fresh_block (seq 0 (length mp)).
Proof.
  intros Hr. split; [eapply reachable_length; eauto |].
  destruct (reachable_live debug mp [] Hr) as (_ & Hiff).
  destruct (reachable_inv debug mp [] Hr) as (Hinv & _).
  apply list_eq. intros n.
  destruct (Nat.lt_ge_cases n (length mp)) as [Hlt|Hge].
  - destruct (lookup_lt_is_Some_2 mp n Hlt) as [blk Hblk].
    rewrite Hblk, list_lookup_fmap, lookup_seq_lt by auto. simpl. f_equal.
    apply block_all_free; [exact (Hinv n blk Hblk) |].
    intros i idx Hi Hidx.
    destruct (pool_free (pool_at blk i) idx) eqn:E; [reflexivity |].
    exfalso. apply (Hiff n i idx Hlt Hi Hidx).
    unfold free_bit. now rewrite Hblk.
  - rewrite !lookup_ge_None_2; [reflexivity | | lia].
    rewrite length_map, length_seq. lia.
Qed.

(** ** deallocate on any pointer *)

(** The assertion of [deallocate] compares a remainder of the division by
    [sizeof(pool_t<T>)] with the divisor. *)
Lemma deallocate_assert_holds p a :
  (u64 (p - (a + u64 (p - a) / sizeof_pool * sizeof_pool)) <? sizeof_pool)
  = true.
Proof.
  pose proof sizeof_pool_pos as HS. apply Z.ltb_lt. unfold u64.
  set (M := 2 ^ 64). assert (HM : 0 < M) by (unfold M; lia).
  set (d := (p - a) mod M).
  assert (Hd : 0 <= d < M) by (apply Z.mod_pos_bound; exact HM).
  replace (p - (a + d / sizeof_pool * sizeof_pool))
    with ((p - a) - d / sizeof_pool * sizeof_pool) by lia.
  rewrite <- Zminus_mod_idemp_l. fold d.
  pose proof (Z.mod_pos_bound d sizeof_pool HS) as Hr.
  pose proof (Z.mod_eq d sizeof_pool ltac:(lia)) as He.
  assert (Hle : d mod sizeof_pool <= d) by (apply Z.mod_le; lia).
  rewrite Z.mod_small; lia.
Qed.

Lemma deallocate_in_debug debug i blk p mp :
  let pool_idx := u64 (p - ptr blk) / sizeof_pool in
  deallocate_in debug i blk pool_idx p mp =
  deallocate_in false i blk pool_idx p mp.
Proof.
  intros pool_idx. unfold deallocate_in, pool_addr, pool_idx.
  rewrite deallocate_assert_holds, andb_false_r. reflexivity.
Qed.

Lemma deallocate_loop_debug debug p mp m :
  deallocate_loop debug m p mp = deallocate_loop false m p mp.
Proof.
  induction m as [|m IH]; [reflexivity |]. simpl.
  destruct (mp !! m) as [blk|]; [| reflexivity].
  destruct (_ <? _); [apply deallocate_in_debug | exact IH].
Qed.

Lemma deallocate_in_shape i blk pool_idx p mp :
  mp !! i = Some blk ->
  match deallocate_in false i blk pool_idx p mp with
  | Return _ mp' => length mp' = length mp /\ map ptr mp' = map ptr mp
  | Undefined => True
  | _ => False
  end.
Proof.
  intros Hblk. unfold deallocate_in. simpl.
  destruct (pools blk !! Z.to_nat pool_idx) as [pool|]; [| exact I].
  destruct (pool_deallocate _ p pool) as [pool'|]; [| exact I].
  split; [apply length_insert |].
  change (ptr <$> <[i := {| ptr := ptr blk;
                            unmaxed_pools := set_bit (unmaxed_pools blk) pool_idx;
                            pools := <[Z.to_nat pool_idx := pool']> (pools blk) |}]> mp
          = ptr <$> mp).
  rewrite list_fmap_insert. simpl. apply list_insert_id.
  rewrite list_lookup_fmap, Hblk. reflexivity.
Qed.

Lemma deallocate_loop_shape p mp m :
  match deallocate_loop false m p mp with
  | Return _ mp' => length mp' = length mp /\ map ptr mp' = map ptr mp
  | Undefined => True
  | _ => False
  end.
Proof.
  induction m as [|m IH]; simpl; [auto |].
  destruct (mp !! m) as [blk|] eqn:Hblk; [| exact I].
  destruct (_ <? _); [now apply deallocate_in_shape | exact IH].
Qed.

(** X12. [deallocate], for every pointer and every state of the block
    list: the [assert] never fails, so the debug and release builds do
    the same; no failure is reported; and a call that returns leaves the
    number of blocks and the address of every block as they were, so that
    no block is given back to the system by [deallocate]. *)
Theorem deallocate_never_asserts debug p cnt mp :
  deallocate debug p cnt mp = deallocate false p cnt mp /\
  deallocate debug p cnt mp <> AssertFailed /\
  (forall s, deallocate debug p cnt mp <> AllocFailure s) /\
  (forall mp', deallocate debug p cnt mp = Return tt mp' ->
     length mp' = length mp /\ map ptr mp' = map ptr mp).
Proof.
  unfold deallocate. rewrite (deallocate_loop_debug debug).
  pose proof (deallocate_loop_shape p mp (length mp)) as Hs.
  destruct (deallocate_loop false (length mp) p mp) as [[] mp1|s| |];
    try contradiction.
  - split; [reflexivity | split; [discriminate | split; [discriminate |]]].
    intros mp' H. inversion H; subst. exact Hs.
  - split; [reflexivity | split; [discriminate | split; discriminate]].
Qed.

(** The pool index computed for a block that the address is not in. *)
Lemma pool_idx_outside p n :
  malloc n <> 0 -> 0 <= p < 2 ^ 64 ->
  p < malloc n \/ malloc n + pools_in_block * sizeof_pool <= p ->
  pools_in_block <= u64 (p - malloc n) / sizeof_pool.
Proof.
  intros Hn Hp Hout. pose proof (malloc_range n Hn) as Hr.
  pose proof sizeof_pool_pos as HS.
  assert (Hb : 0 <= pools_in_block * sizeof_pool)
    by (pose proof word_bits_pos; unfold pools_in_block; nia).
  apply Z.div_le_lower_bound; [lia |]. unfold u64.
  destruct Hout as [Hlt|Hge].
  - rewrite <- (Z.mod_add _ 1) by lia. rewrite Z.mod_small; lia.
  - rewrite Z.mod_small; lia.
Qed.

Lemma deallocate_loop_outside debug p mp :
  mp_wf mp -> 0 <= p < 2 ^ 64 ->
  (forall n, (n < length mp)%nat ->
     p < malloc n \/ malloc n + pools_in_block * sizeof_pool <= p) ->
  forall m, (m <= length mp)%nat ->
    deallocate_loop debug m p mp = Return tt mp.
Proof.
  intros Hwf Hp Hout. induction m as [|m IH]; intros Hm; [reflexivity |].
  destruct (lookup_lt_is_Some_2 mp m) as [blk Hblk]; [lia |].
  destruct (Hwf m blk Hblk) as (Hptr & Hnz & _).
  simpl. rewrite Hblk, Hptr.
  pose proof (pool_idx_outside p m Hnz Hp (Hout m ltac:(lia))) as Hge.
  destruct (Z.ltb_spec (u64 (p - malloc m) / sizeof_pool) pools_in_block);
    [lia |].
  apply IH. lia.
Qed.

(** X13. [deallocate] of an address that lies in the storage of none of
    the blocks, the null pointer among them, visits every block, finds
    [pool_idx >= b] each time, and returns with the state unchanged. *)
Theorem deallocate_foreign_pointer debug p cnt mp :
  mp_wf mp -> 0 <= p < 2 ^ 64 ->
  (forall n, (n < length mp)%nat ->
     p < malloc n \/ malloc n + pools_in_block * sizeof_pool <= p) ->
  deallocate debug p cnt mp = Return tt mp.
Proof.
  intros Hwf Hp Hout. unfold deallocate.
  now apply deallocate_loop_outside.
Qed.

(** X8. A second [deallocate] of a pointer that was handed out is not
    detected: it returns, and leaves the state exactly as the first one
    left it. *)
Theorem deallocate_twice debug mp live q :
  reachable debug mp live -> In q live ->
  exists mp1,
    deallocate debug q 1 mp = Return tt mp1 /\
    deallocate debug q 1 mp1 = Return tt mp1.
Proof.
  intros Hr Hin. destruct (reachable_inv debug mp live Hr) as (Hinv & Hlive).
  destruct (Hlive q Hin) as ([[n i] idx] & (Hn & Hi & Hidx) & ->).
  simpl in Hn, Hi, Hidx. unfold coord_addr. simpl.
  destruct (lookup_lt_is_Some_2 mp n Hn) as [blk Hblk].
  assert (Hwf : mp_wf mp) by (intros n' b' Hb'; apply (Hinv n' b' Hb')).
  destruct (Hwf n blk Hblk) as (Hptr & Hnz & Hin' & Hlen & Hpools).
  destruct (deallocate_eq debug 1 mp n blk i idx Hwf Hblk Hi Hidx)
    as (p1 & Hpd & Hd).
  destruct (deallocate_good debug 1 mp n i idx Hinv Hn Hi Hidx)
    as (mp1 & Hd1 & Hinv1 & _).
  rewrite Hd in Hd1. inversion Hd1 as [Hmp1]. clear Hd1.
  set (blk1 := {| ptr := ptr blk;
                  unmaxed_pools := set_bit (unmaxed_pools blk) i;
                  pools := <[Z.to_nat i := p1]> (pools blk) |}) in *.
  assert (Hwf1 : mp_wf (<[n := blk1]> mp)).
  { rewrite Hmp1. intros n' b' Hb'. apply (Hinv1 n' b' Hb'). }
  assert (Hblk1 : <[n := blk1]> mp !! n = Some blk1)
    by (now apply list_lookup_insert_eq).
  destruct (deallocate_eq debug 1 _ n blk1 i idx Hwf1 Hblk1 Hi Hidx)
    as (p2 & Hpd2 & Hd2).
  assert (Hpa : pool_addr blk i = malloc n + i * sizeof_pool)
    by (unfold pool_addr; now rewrite Hptr).
  assert (Hp1 : pool_at blk1 i = p1).
  { unfold blk1. rewrite (pool_at_insert _ _ (unmaxed_pools blk)) by lia.
    now rewrite Z.eqb_refl. }
  change (pool_addr blk1 i) with (pool_addr blk i) in Hpd2.
  rewrite Hp1 in Hpd2. rewrite Hpa in Hpd, Hpd2. unfold slot_addr in Hpd, Hpd2.
  destruct (pool_deallocate_twice _ idx _ p1 (Hpools i Hi) Hidx Hpd)
    as (_ & Htw).
  rewrite Htw in Hpd2. inversion Hpd2; subst p2.
  exists (<[n := blk1]> mp). split; [exact Hd |].
  rewrite Hd2. f_equal. rewrite list_insert_insert_eq. f_equal.
  unfold blk1. simpl. rewrite list_insert_insert_eq. f_equal.
  apply set_bit_id; [apply set_bit_in_word | exact Hi |].
  rewrite testbit_set_bit_word, Z.eqb_refl by auto. apply orb_true_r.
Qed.

(** ** Which block serves an allocate *)

(** Blocks behind block [m] that offer no pool are passed over. *)
Lemma allocate_loop_skip mp m :
  (forall j blk', (m < j)%nat -> mp !! j = Some blk' ->
     unmaxed_pools blk' = 0) ->
  forall k, (m < k <= length mp)%nat ->
    allocate_loop k mp = allocate_loop (S m) mp.
Proof.
  intros Hz. induction k as [|k IH]; intros Hk; [lia |].
  destruct (Nat.eq_dec k m) as [->|Hne]; [reflexivity |].
  destruct (lookup_lt_is_Some_2 mp k) as [blk Hblk]; [lia |].
  simpl. rewrite Hblk, (Hz k blk) by (auto; lia). simpl.
  apply IH. lia.
Qed.

(** The block that serves the request offers a full pool at its lowest
    set bit: [pool_t::allocate] scans the zero word [unused_words]. *)
Lemma allocate_serving_full debug mp m blk i :
  mp_inv mp -> mp !! m = Some blk ->
  (forall j blk', (m < j)%nat -> mp !! j = Some blk' ->
     unmaxed_pools blk' = 0) ->
  lowest_set_bit (unmaxed_pools blk) i ->
  pool_full (pool_at blk i) = true ->
  allocate debug 1 mp = Undefined.
Proof.
  intros Hinv Hblk Hlater Hlow Hfull.
  destruct (Hinv m blk Hblk) as ((_ & _ & Hin & Hlen & _) & _).
  assert (Hm : (m < length mp)%nat) by (eapply lookup_lt_Some; eauto).
  pose proof Hlow as (Hir & _).
  unfold allocate. simpl andb. rewrite andb_false_r.
  rewrite (allocate_loop_skip mp m Hlater) by lia.
  simpl allocate_loop. rewrite Hblk.
  destruct (Z.eqb_spec (unmaxed_pools blk) 0) as [Hz|_];
    [now apply lowest_set_bit_nonzero in Hlow |].
  unfold allocate_in.
  rewrite (ctz_lowest _ i Hin Hlow), (pool_at_lookup blk i Hlen Hir).
  unfold pool_allocate. unfold pool_full in Hfull.
  apply Z.eqb_eq in Hfull. rewrite Hfull, ctz_zero. reflexivity.
Qed.

(** X14. [allocate(1)] serves the request from the last block of the
    list whose [unmaxed_pools] is non-zero, from the pool at the lowest
    set bit of that word, whatever the other pools of the block are like:
    when that pool is not full, the address of one of its slots is
    returned, no block is appended and no other block is touched; when it
    is full, the call is undefined. *)
Theorem allocate_last_offering_block debug mp m blk :
  mp_inv mp -> mp !! m = Some blk ->
  unmaxed_pools blk <> 0 ->
  (forall j blk', (m < j)%nat -> mp !! j = Some blk' ->
     unmaxed_pools blk' = 0) ->
  exists i,
    lowest_set_bit (unmaxed_pools blk) i /\
    (pool_full (pool_at blk i) = false ->
     exists idx mp',
       0 <= idx < pool_size /\
       allocate debug 1 mp = Return (slot_addr m i idx) mp' /\
       length mp' = length mp /\
       forall j, j <> m -> mp' !! j = mp !! j) /\
    (pool_full (pool_at blk i) = true ->
     allocate debug 1 mp = Undefined).
Proof.
  intros Hinv Hblk Hnz Hlater.
  destruct (Hinv m blk Hblk) as ((Hptr & Hmnz & Hin & Hlen & Hpwf) & Hbc & Hps).
  assert (Hm : (m < length mp)%nat) by (eapply lookup_lt_Some; eauto).
  destruct (ctz_spec _ Hin Hnz) as (pi & Hctz & Hpi).
  pose proof Hpi as (Hpir & Hpiset & _).
  exists pi. split; [exact Hpi | split].
  - intros Hnf. destruct (Hps pi Hpir) as (Hsound & Hcomp).
    destruct (pool_allocate_ok (pool_addr blk pi) (pool_at blk pi)
                (Hpwf pi Hpir) Hsound Hcomp Hnf)
      as (idx & p' & Hidx & Halloc & _).
    exists idx. eexists. split; [exact Hidx |]. split; [| split].
    + unfold allocate. simpl. rewrite andb_false_r.
      rewrite (allocate_loop_skip mp m Hlater) by lia.
      simpl. rewrite Hblk.
      destruct (Z.eqb_spec (unmaxed_pools blk) 0); [contradiction |].
      unfold allocate_in.
      rewrite Hctz, (pool_at_lookup blk pi), Halloc by auto.
      unfold slot_addr, pool_addr. rewrite Hptr. reflexivity.
    + apply length_insert.
    + intros j Hj. apply list_lookup_insert_ne. auto.
  - intros Hfull.
    exact (allocate_serving_full debug mp m blk pi Hinv Hblk Hlater Hpi Hfull).
Qed.

(** ** Filling the first block *)

(** X15. From a freshly constructed multi-pool the first [b*b*b]
    allocations are all served by the first block, pool after pool and
    slot after slot in address order; they leave every word of the block
    zero, and the next allocation appends a second block and returns
    [data[0]] of its pool 0. *)
Theorem fill_first_block debug :
  granted 0 -> granted 1 ->
  (forall n : nat, Z.of_nat n <= pools_in_block * pool_size ->
     exists blk,
       allocate_n debug n [fresh_block 0] =
         Return (map (fun j => slot_addr 0 (Z.of_nat j / pool_size)
                                 (Z.of_nat j mod pool_size)) (seq 0 n))
           [blk]) /\
  exists ps mp2,
    allocate_n debug (Z.to_nat (pools_in_block * pool_size)) [fresh_block 0]
      = Return ps [exhausted_block] /\
    allocate debug 1 [exhausted_block] = Return (slot_addr 1 0 0) mp2 /\
    length mp2 = 2%nat.
Proof.
  intros Hg0 Hg1. pose proof Hg0 as (_ & H0).
  pose proof pool_size_pos as Hps. pose proof word_bits_pos as Hpos.
  split.
  - intros n Hn.
    destruct (allocate_n_block_filled debug n H0 Hn) as (blk & Hrun & _).
    eauto.
  - destruct (allocate_n_block_filled debug
                (Z.to_nat (pools_in_block * pool_size)) H0)
      as (blk & Hrun & Hfill); [unfold pools_in_block; nia |].
    rewrite Z2Nat.id in Hfill by (unfold pools_in_block; nia).
    apply block_filled_exhausted in Hfill. subst blk.
    destruct (allocate_fresh_eq [exhausted_block] Hg1) as (p' & Ha & _).
    eexists _, _. split; [exact Hrun |].
    unfold allocate. simpl length. rewrite andb_false_r.
    rewrite allocate_loop_exhausted;
      [| intros b [<-|[]]; reflexivity | simpl; lia].
    split; [exact Ha |]. reflexivity.
Qed.

(** ** The destructor *)

Lemma multi_pool_delete_eq mp : multi_pool_delete mp = map ptr mp.
Proof.
  unfold multi_pool_delete.
  assert (H : forall acc,
            fold_left (fun freed b => freed ++ [ptr b]) mp acc
            = acc ++ map ptr mp).
  { induction mp as [|b mp IH]; intros acc; simpl.
    - now rewrite app_nil_r.
    - rewrite IH, <- app_assoc. reflexivity. }
  apply (H []).
Qed.

Lemma malloc_inj n m :
  malloc n <> 0 -> malloc m <> 0 -> malloc n = malloc m -> n = m.
Proof.
  intros Hn Hm Heq. destruct (Nat.eq_dec n m) as [|Hne]; [assumption |].
  exfalso. pose proof sizeof_pool_pos. pose proof word_bits_pos.
  assert (0 < pools_in_block * sizeof_pool) by (unfold pools_in_block; nia).
  destruct (malloc_fresh n m Hne Hn Hm); lia.
Qed.

(** X16. In every state of a multi-pool the destructor calls [free]
    once for each block, in the order the blocks were obtained, with the
    address [malloc] returned for it: no address is freed twice and the
    null pointer is not among them. Pointers still handed out are not
    looked at. *)
Theorem destructor_frees_each_block_once debug mp live :
  reachable debug mp live ->
  multi_pool_delete mp = map malloc (seq 0 (length mp)) /\
  (1 <= length (multi_pool_delete mp))%nat /\
  NoDup (multi_pool_delete mp) /\
  ~ In 0 (multi_pool_delete mp).
Proof.
  intros Hr. destruct (reachable_inv debug mp live Hr) as (Hinv & _).
  pose proof (reachable_length debug mp live Hr) as Hlen.
  assert (Heq : multi_pool_delete mp = map malloc (seq 0 (length mp))).
  { rewrite multi_pool_delete_eq. apply list_eq. intros n.
    change (map ptr mp) with (ptr <$> mp).
    change (map malloc (seq 0 (length mp)))
      with (malloc <$> seq 0 (length mp)).
    rewrite !list_lookup_fmap.
    destruct (Nat.lt_ge_cases n (length mp)) as [Hlt|Hge].
    - destruct (lookup_lt_is_Some_2 mp n Hlt) as [blk Hblk].
      rewrite Hblk, lookup_seq_lt by auto. simpl. f_equal.
      now destruct (Hinv n blk Hblk) as ((Hptr & _) & _).
    - rewrite (lookup_ge_None_2 mp n) by lia.
      rewrite (lookup_ge_None_2 (seq 0 (length mp)) n)
        by (rewrite length_seq; lia).
      reflexivity. }
  split; [exact Heq |]. rewrite Heq.
  split; [rewrite length_map, length_seq; exact Hlen | split].
  - change (NoDup (malloc <$> seq 0 (length mp))).
    apply NoDup_fmap_2_strong; [| apply NoDup_seq].
    intros n m Hn Hm E. apply elem_of_seq in Hn, Hm.
    apply malloc_inj; [| | exact E]; eapply mp_inv_malloc; eauto; lia.
  - intros H0. apply in_map_iff in H0 as (n & E & Hn).
    apply in_seq in Hn. revert E. eapply mp_inv_malloc; eauto. lia.
Qed.

(** ** allocate followed by deallocate, on a multi-pool *)

Lemma allocate_in_inv mp m blk q mp1 :
  mp_inv mp -> mp !! m = Some blk ->
  allocate_in m blk mp = Return q mp1 ->
  exists i idx p',
    0 <= i < pools_in_block /\ 0 <= idx < pool_size /\
    Z.testbit (unmaxed_pools blk) i = true /\
    pool_allocate (pool_addr blk i) (pool_at blk i) = Some (q, p') /\
    q = slot_addr m i idx /\
    mp1 = <[m := {| ptr := ptr blk;
                    unmaxed_pools :=
                      if pool_full p' then clear_bit (unmaxed_pools blk) i
                      else unmaxed_pools blk;
                    pools := <[Z.to_nat i := p']> (pools blk) |}]> mp.
Proof.
  intros Hinv Hblk Ha.
  destruct (Hinv m blk Hblk) as ((Hptr & Hmnz & Hin & Hlen & Hpwf) & _).
  unfold allocate_in in Ha.
  destruct (ctz (unmaxed_pools blk)) as [i0|] eqn:E; [| discriminate].
  destruct (ctz_spec _ Hin (ctz_Some_nonzero _ _ E)) as (i & Ei & Hi).
  assert (i0 = i) by congruence. subst i0.
  pose proof Hi as (Hir & Hiset & _).
  rewrite (pool_at_lookup blk i Hlen Hir) in Ha.
  destruct (pool_allocate (pool_addr blk i) (pool_at blk i))
    as [[r p']|] eqn:Ep; [| discriminate].
  inversion Ha; subst r mp1. clear Ha.
  destruct (pool_allocate_inv _ _ _ _ (Hpwf i Hir) Ep)
    as (k & s & (Hkr & _) & (Hsr & _) & Hq & _).
  exists i, (k * word_bits + s), p'.
  split; [exact Hir | split; [unfold pool_size; nia |]].
  split; [exact Hiset | split; [exact Ep | split; [| reflexivity]]].
  rewrite Hq. unfold slot_addr, pool_addr. now rewrite Hptr.
Qed.

Lemma allocate_fresh_length mp q mp1 :
  allocate_fresh mp = Return q mp1 -> length mp1 = S (length mp).
Proof.
  intros Ha. assert (Hg : granted (length mp)).
  { unfold allocate_fresh, new_block, granted in *. simpl in Ha.
    destruct (push_back_ok (length mp)); [| discriminate]. simpl in Ha.
    destruct (Z.eqb_spec (malloc (length mp)) 0); [discriminate | auto]. }
  destruct (allocate_fresh_eq mp Hg) as (p' & E & _).
  rewrite E in Ha. inversion Ha; subst.
  rewrite length_app. simpl. lia.
Qed.

Lemma allocate_loop_inv mp q mp1 :
  length mp1 = length mp ->
  forall k, (k <= length mp)%nat ->
    allocate_loop k mp = Return q mp1 ->
    exists m blk, mp !! m = Some blk /\ allocate_in m blk mp = Return q mp1.
Proof.
  intros Hlen. induction k as [|k IH]; intros Hk Ha.
  - apply allocate_fresh_length in Ha. lia.
  - simpl in Ha. destruct (mp !! k) as [blk|] eqn:Hblk; [| discriminate].
    destruct (unmaxed_pools blk =? 0); [apply IH; [lia | exact Ha] |].
    eauto.
Qed.

(** [deallocate] after [allocate], when no block was appended and no
    bucket was used up. *)
Lemma allocate_round_trip debug mp q mp1 :
  mp_inv mp -> allocate debug 1 mp = Return q mp1 ->
  length mp1 = length mp -> same_unused mp mp1 ->
  deallocate debug q 1 mp1 = Return tt mp.
Proof.
  intros Hinv Ha Hlen Hsame.
  assert (Hinv1 : mp_inv mp1).
  { destruct (allocate_return debug mp q mp1 Hinv Ha)
      as (n0 & i0 & idx0 & mp0 & Heq & _ & _ & _ & H & _).
    inversion Heq; subst. exact H. }
  unfold allocate in Ha. simpl in Ha. rewrite andb_false_r in Ha.
  destruct (allocate_loop_inv mp q mp1 Hlen (length mp) ltac:(lia) Ha)
    as (m & blk & Hblk & Hin).
  destruct (allocate_in_inv mp m blk q mp1 Hinv Hblk Hin)
    as (i & idx & p' & Hi & Hidx & Hbit & Hpa & -> & Hmp1).
  destruct (Hinv m blk Hblk) as ((Hptr & Hmnz & Hinw & Hplen & Hpwf) & _).
  assert (Hm : (m < length mp)%nat) by (eapply lookup_lt_Some; eauto).
  set (blk1 := {| ptr := ptr blk;
                  unmaxed_pools :=
                    if pool_full p' then clear_bit (unmaxed_pools blk) i
                    else unmaxed_pools blk;
                  pools := <[Z.to_nat i := p']> (pools blk) |}) in *.
  assert (Hblk1 : mp1 !! m = Some blk1)
    by (rewrite Hmp1; now apply list_lookup_insert_eq).
  assert (Hp1 : pool_at blk1 i = p').
  { unfold blk1. rewrite (pool_at_insert _ _ (unmaxed_pools blk)) by lia.
    now rewrite Z.eqb_refl. }
  assert (Hu : unused_words p' = unused_words (pool_at blk i)).
  { rewrite <- Hp1. now apply (Hsame m blk blk1 i). }
  assert (Hnf : pool_full p' = false).
  { unfold pool_full. rewrite Hu.
    now apply (pool_allocate_Some_not_full _ _ _ Hpa). }
  destruct (pool_round_trip _ _ _ _ (Hpwf i Hi) Hpa) as (p2 & Hpd & Hiff).
  apply Hiff in Hu. subst p2.
  assert (Hwf1 : mp_wf mp1)
    by (intros n' b' Hb'; apply (Hinv1 n' b' Hb')).
  destruct (deallocate_eq debug 1 mp1 m blk1 i idx Hwf1 Hblk1 Hi Hidx)
    as (p3 & Hpd3 & Hd).
  change (pool_addr blk1 i) with (pool_addr blk i) in Hpd3.
  rewrite Hp1, Hpd in Hpd3. inversion Hpd3; subst p3. clear Hpd3.
  rewrite Hd. f_equal. rewrite Hmp1, list_insert_insert_eq.
  apply list_insert_id. rewrite Hblk. f_equal.
  unfold blk1. simpl. rewrite Hnf, list_insert_insert_eq.
  rewrite (list_insert_id (pools blk)) by (now apply pool_at_lookup).
  rewrite set_bit_id by auto. destruct blk; reflexivity.
Qed.

(** X17. When an [allocate(1)] neither appended a block nor changed
    [unused_words] of a pool (it did not take the last free slot of a
    bucket), [deallocate] of the pointer it returned restores the state
    exactly, so that the next [allocate(1)] returns that pointer again. *)
Theorem allocate_deallocate_round_trip debug mp live q mp1 :
  reachable debug mp live -> allocate debug 1 mp = Return q mp1 ->
  length mp1 = length mp -> same_unused mp mp1 ->
  deallocate debug q 1 mp1 = Return tt mp /\
  exists mp2,
    deallocate debug q 1 mp1 = Return tt mp2 /\
    allocate debug 1 mp2 = Return q mp1.
Proof.
  intros Hr Ha Hlen Hsame.
  destruct (reachable_inv debug mp live Hr) as (Hinv & _).
  pose proof (allocate_round_trip debug mp q mp1 Hinv Ha Hlen Hsame) as Hd.
  split; [exact Hd |]. exists mp. auto.
Qed.

(** ** Objects handed out do not overlap *)

Lemma slot_addr_apart n i idx n' i' idx' :
  malloc n <> 0 -> malloc n' <> 0 ->
  0 <= i < pools_in_block -> 0 <= idx < pool_size ->
  0 <= i' < pools_in_block -> 0 <= idx' < pool_size ->
  slot_addr n i idx <> slot_addr n' i' idx' ->
  slot_addr n i idx + sizeof_T <= slot_addr n' i' idx' \/
  slot_addr n' i' idx' + sizeof_T <= slot_addr n i idx.
Proof.
  intros Hn Hn' Hi Hidx Hi' Hidx' Hne.
  pose proof (slot_addr_offset n i idx) as Ho.
  pose proof (slot_addr_offset n' i' idx') as Ho'.
  pose proof sizeof_pool_pos as HS.
  assert (He : data_offset + idx * sizeof_T + sizeof_T <= sizeof_pool) by nia.
  assert (He' : data_offset + idx' * sizeof_T + sizeof_T <= sizeof_pool)
    by nia.
  assert (Hp : 0 <= idx * sizeof_T) by nia.
  assert (Hp' : 0 <= idx' * sizeof_T) by nia.
  destruct (Nat.eq_dec n n') as [<-|Hnn].
  - destruct (Z.lt_trichotomy i i') as [Hlt|[<-|Hgt]].
    + left. assert ((i + 1) * sizeof_pool <= i' * sizeof_pool) by nia. lia.
    + assert (Hx : idx <> idx') by congruence.
      destruct (Z.lt_trichotomy idx idx') as [Hl|[Heq|Hg]];
        [left | contradiction | right]; nia.
    + right. assert ((i' + 1) * sizeof_pool <= i * sizeof_pool) by nia. lia.
  - assert (Hb : (i + 1) * sizeof_pool <= pools_in_block * sizeof_pool)
      by nia.
    assert (Hb' : (i' + 1) * sizeof_pool <= pools_in_block * sizeof_pool)
      by nia.
    assert (Hq : 0 <= i * sizeof_pool) by nia.
    assert (Hq' : 0 <= i' * sizeof_pool) by nia.
    destruct (malloc_fresh n n' Hnn Hn Hn'); [left | right]; lia.
Qed.

(** X21. In every state of a multi-pool, two different pointers among
    those handed out are at least [sizeof(T)] apart: the objects of type
    [T] they point to do not overlap. *)
Theorem live_objects_disjoint debug mp live q1 q2 :
  reachable debug mp live -> In q1 live -> In q2 live -> q1 <> q2 ->
  q1 + sizeof_T <= q2 \/ q2 + sizeof_T <= q1.
Proof.
  intros Hr H1 H2 Hne.
  destruct (reachable_inv debug mp live Hr) as (Hinv & Hlive).
  destruct (Hlive q1 H1) as ([[n i] idx] & (Hn & Hi & Hidx) & ->).
  destruct (Hlive q2 H2) as ([[n' i'] idx'] & (Hn' & Hi' & Hidx') & ->).
  unfold coord_addr in *. simpl in Hn, Hi, Hidx, Hn', Hi', Hidx', Hne.
  simpl. apply slot_addr_apart; auto; eapply mp_inv_malloc; eauto.
Qed.

(** ** When allocate is undefined *)

Lemma allocate_in_undefined mp m blk :
  mp_inv mp -> mp !! m = Some blk -> unmaxed_pools blk <> 0 ->
  allocate_in m blk mp = Undefined ->
  exists i, lowest_set_bit (unmaxed_pools blk) i /\
            pool_full (pool_at blk i) = true.
Proof.
  intros Hinv Hblk Hnz Hu.
  destruct (Hinv m blk Hblk) as ((_ & _ & Hin & _) & _).
  destruct (ctz_spec _ Hin Hnz) as (i & _ & Hi). exists i.
  split; [exact Hi |].
  destruct (pool_full (pool_at blk i)) eqn:Hf; [reflexivity | exfalso].
  destruct (allocate_in_good mp m blk Hinv Hblk Hnz)
    as (n0 & i0 & idx0 & mp' & Heq & _).
  - intros pi Hpi.
    now rewrite (lowest_set_bit_unique _ _ _ Hpi Hi).
  - rewrite Hu in Heq. discriminate.
Qed.

Lemma allocate_fresh_undefined mp :
  allocate_fresh mp = Undefined ->
  push_back_ok (length mp) = true /\ malloc (length mp) = 0.
Proof.
  intros Hu. destruct (push_back_ok (length mp)) eqn:Hp.
  - split; [reflexivity |].
    destruct (Z.eq_dec (malloc (length mp)) 0) as [|Hnz]; [assumption |].
    destruct (allocate_fresh_eq mp (conj Hp Hnz)) as (p' & E & _).
    rewrite E in Hu. discriminate.
  - unfold allocate_fresh, new_block in Hu. rewrite Hp in Hu. discriminate.
Qed.

Lemma allocate_loop_undefined mp :
  mp_inv mp ->
  forall k, (k <= length mp)%nat ->
    (forall j blk', (k <= j)%nat -> mp !! j = Some blk' ->
       unmaxed_pools blk' = 0) ->
    allocate_loop k mp = Undefined ->
    (exists m blk i,
       mp !! m = Some blk /\
       (forall j blk', (m < j)%nat -> mp !! j = Some blk' ->
          unmaxed_pools blk' = 0) /\
       lowest_set_bit (unmaxed_pools blk) i /\
       pool_full (pool_at blk i) = true) \/
    ((forall blk, In blk mp -> unmaxed_pools blk = 0) /\
     push_back_ok (length mp) = true /\ malloc (length mp) = 0).
Proof.
  intros Hinv. induction k as [|k IH]; intros Hk Hlater Hu.
  - right. split; [| now apply allocate_fresh_undefined].
    intros blk Hb. apply list_elem_of_In, list_elem_of_lookup in Hb.
    destruct Hb as (j & Hj). apply (Hlater j blk); [lia | exact Hj].
  - destruct (lookup_lt_is_Some_2 mp k) as [blk Hblk]; [lia |].
    simpl in Hu. rewrite Hblk in Hu.
    destruct (Z.eqb_spec (unmaxed_pools blk) 0) as [Hz|Hnz].
    + apply IH; [lia | | exact Hu].
      intros j blk' Hj Hb'. destruct (Nat.eq_dec j k) as [->|Hne].
      * rewrite Hblk in Hb'. inversion Hb'; subst. exact Hz.
      * apply (Hlater j blk'); [lia | exact Hb'].
    + left. destruct (allocate_in_undefined mp k blk Hinv Hblk Hnz Hu)
        as (i & Hi & Hf).
      exists k, blk, i. split; [exact Hblk | split; [| auto]].
      intros j blk' Hj Hb'. apply (Hlater j blk'); [lia | exact Hb'].
Qed.

Lemma allocate_refused_undefined debug mp :
  (forall blk, In blk mp -> unmaxed_pools blk = 0) ->
  push_back_ok (length mp) = true -> malloc (length mp) = 0 ->
  allocate debug 1 mp = Undefined.
Proof.
  intros Hall Hp Hz. unfold allocate. simpl andb. rewrite andb_false_r.
  rewrite (allocate_loop_exhausted mp Hall) by lia.
  unfold allocate_fresh, new_block. simpl. now rewrite Hp, Hz.
Qed.

(** X22. In every state of a multi-pool, [allocate(1)] is undefined in
    exactly two cases. Either the block that serves the request (block
    [m]: its [unmaxed_pools] is non-zero and that of every block behind
    it is zero) offers, at the lowest set bit of its [unmaxed_pools], a
    pool that is full, so that the call scans the zero word
    [unused_words]; or no block offers a pool, [push_back] succeeds and
    [malloc] returns the null pointer. *)
Theorem allocate_undefined_causes debug mp live :
  reachable debug mp live ->
  (allocate debug 1 mp = Undefined <->
   (exists m blk i,
      mp !! m = Some blk /\
      (forall j blk', (m < j)%nat -> mp !! j = Some blk' ->
         unmaxed_pools blk' = 0) /\
      lowest_set_bit (unmaxed_pools blk) i /\
      pool_full (pool_at blk i) = true) \/
   ((forall blk, In blk mp -> unmaxed_pools blk = 0) /\
    push_back_ok (length mp) = true /\ malloc (length mp) = 0)).
Proof.
  intros Hr. destruct (reachable_inv debug mp live Hr) as (Hinv & _).
  split.
  - intros Hu. unfold allocate in Hu. simpl in Hu.
    rewrite andb_false_r in Hu.
    apply (allocate_loop_undefined mp Hinv (length mp)); [lia | | exact Hu].
    intros j blk' Hj Hb'. apply lookup_lt_Some in Hb'. lia.
  - intros [(m & blk & i & Hblk & Hlater & Hlow & Hfull)|(Hall & Hp & Hz)].
    + exact (allocate_serving_full debug mp m blk i Hinv Hblk Hlater Hlow
               Hfull).
    + now apply allocate_refused_undefined.
Qed.

Lemma exhausted_block_at_inv n :
  malloc n <> 0 -> block_inv n (exhausted_block_at n).
Proof.
  intros Hn. pose proof word_bits_pos as Hpos.
  pose proof pools_in_block_eq as Hpib.
  assert (Hpat : forall i, 0 <= i < pools_in_block ->
            pool_at (exhausted_block_at n) i = exhausted_pool).
  { intros i Hi. unfold pool_at, exhausted_block_at; simpl.
    now rewrite lookup_replicate_2 by lia. }
  assert (Hw : forall k, 0 <= k < word_bits -> slot_word exhausted_pool k = 0).
  { intros k Hk. unfold slot_word, exhausted_pool; simpl.
    now rewrite lookup_replicate_2 by lia. }
  split; [| split].
  - split; [reflexivity | split; [exact Hn | split; [| split]]].
    + apply in_word_0.
    + apply length_replicate.
    + intros i Hi. rewrite Hpat by auto.
      split; [apply in_word_0 | split; [apply length_replicate |]].
      intros k Hk. rewrite Hw by auto. apply in_word_0.
  - intros i Hi Hnf. rewrite Hpat in Hnf by auto. discriminate.
  - intros i Hi. rewrite Hpat by auto. split.
    + intros k Hk Hb. simpl in Hb. rewrite Z.bits_0 in Hb. discriminate.
    + intros k Hk Hall. rewrite Hw in Hall by auto.
      symmetry in Hall. now apply all_ones_nonzero in Hall.
Qed.

(** ** The first allocation *)

Lemma first_allocation debug :
  malloc 0 <> 0 ->
  exists p',
    allocate debug 1 [fresh_block 0] =
      Return (slot_addr 0 0 0) [first_block all_ones p'] /\
    filled 1 p'.
Proof.
  intros H0. pose proof pool_size_pos as Hps.
  destruct (allocate_first_pool debug 0 pool_init) as (p' & Ha & Hfill);
    [lia | apply pool_init_filled |].
  exists p'. split; [| exact Hfill].
  rewrite first_block_fresh in Ha. rewrite Ha.
  destruct (Z.ltb_spec (0 + 1) pool_size) as [|Hge]; [reflexivity |].
  exfalso. word_lia.
Qed.

Lemma first_allocation_same_unused p' :
  filled 1 p' -> same_unused [fresh_block 0] [first_block all_ones p'].
Proof.
  intros (Hwf & Hu & _) n blk blk' i Hb Hb' Hi.
  pose proof word_bits_pos as Hpos.
  destruct n as [|n]; simpl in Hb, Hb'; [| discriminate].
  inversion Hb; inversion Hb'; subst. rewrite pool_at_fresh by exact Hi.
  destruct (Z.eq_dec i 0) as [->|Hne].
  - rewrite pool_at_first_block. simpl.
    apply word_all_set; [apply Hwf |]. intros k Hk.
    rewrite Hu by exact Hk. apply Z.ltb_lt. nia.
  - unfold first_block. change 0%nat with (Z.to_nat 0).
    rewrite (pool_at_insert _ _ all_ones)
      by (rewrite ?length_replicate; unfold pools_in_block in *; lia).
    destruct (Z.eqb_spec i 0); [contradiction |].
    change (unused_words (pool_at (fresh_block 0) i)
            = unused_words pool_init).
    now rewrite pool_at_fresh.
Qed.

(** ** A run of allocations over several blocks *)

Ltac word_div_lia :=
  try clear data_in_pool; try clear malloc_range; try clear malloc_fresh;
  unfold block_size, pool_size, pools_in_block in *;
  destruct word_bits_u32_u64 as [Hwb|Hwb]; rewrite Hwb in *;
  Z.to_euclidean_division_equations; lia.

(** One allocate served by block [n], which has handed out its first
    [m] slots. *)
Lemma allocate_in_filled mp n m blk :
  0 <= m < block_size -> block_filled_at n m blk -> mp !! n = Some blk ->
  unmaxed_pools blk <> 0 /\
  exists blk',
    allocate_in n blk mp =
      Return (slot_addr n (m / pool_size) (m mod pool_size))
        (<[n := blk']> mp) /\
    block_filled_at n (m + 1) blk'.
Proof.
  intros Hm ((Hptr & H0 & Hin & Hlen & Hpwf) & Hbits & Hpools) Hblk.
  pose proof pool_size_pos as Hps. pose proof word_bits_pos as Hpos.
  pose proof pools_in_block_eq as Hpib. unfold block_size in Hm.
  set (i0 := m / pool_size). set (r := m mod pool_size).
  assert (Hdm : m = pool_size * i0 + r) by (apply Z.div_mod; lia).
  assert (Hr : 0 <= r < pool_size) by (apply Z.mod_pos_bound; lia).
  assert (Hi0 : 0 <= i0 < pools_in_block).
  { split; [apply Z.div_pos; lia | apply Z.div_lt_upper_bound; lia]. }
  clearbody i0 r.
  assert (Hl : lowest_set_bit (unmaxed_pools blk) i0).
  { split; [lia | split].
    - rewrite Hbits by lia. cmp_cases.
    - intros j Hj. rewrite Hbits by lia. cmp_cases. }
  split; [now apply (lowest_set_bit_nonzero _ i0) |].
  assert (Hshare : pool_share m i0 = r) by (unfold pool_share; nia).
  pose proof (Hpools i0 Hi0) as Hfill. rewrite Hshare in Hfill.
  destruct (filled_step (pool_addr blk i0) r (pool_at blk i0) Hr Hfill)
    as (p' & Ha & Hfill').
  unfold allocate_in.
  rewrite (ctz_lowest _ i0 Hin Hl), (pool_at_lookup blk i0), Ha by auto.
  rewrite (filled_full (r + 1) p') by (auto; lia).
  set (um' := if pool_size <=? r + 1 then clear_bit (unmaxed_pools blk) i0
              else unmaxed_pools blk).
  set (blk' := {| ptr := ptr blk; unmaxed_pools := um';
                  pools := <[Z.to_nat i0 := p']> (pools blk) |}).
  exists blk'. split.
  { unfold slot_addr, pool_addr. now rewrite Hptr. }
  assert (Hpat : forall j, 0 <= j < pools_in_block ->
            pool_at blk' j = if j =? i0 then p' else pool_at blk j).
  { intros j Hj. unfold blk'.
    rewrite (pool_at_insert _ _ (unmaxed_pools blk)) by lia.
    destruct blk; reflexivity. }
  split; [| split].
  - split; [exact Hptr | split; [exact H0 | split; [| split]]].
    + unfold blk', um'; simpl.
      destruct (pool_size <=? r + 1); [apply clear_bit_in_word | exact Hin].
    + unfold blk'; simpl. now rewrite length_insert.
    + intros j Hj. rewrite Hpat by auto.
      destruct (j =? i0); [apply Hfill' | auto].
  - intros j Hj. simpl. unfold um'.
    destruct (Z.leb_spec pool_size (r + 1)).
    + rewrite testbit_clear_bit_word, Hbits by (auto; lia). cmp_cases.
    + rewrite Hbits by lia. cmp_cases.
  - intros j Hj. rewrite Hpat by auto.
    destruct (Z.eqb_spec j i0) as [->|Hne].
    + replace (pool_share (m + 1) i0) with (r + 1);
        [exact Hfill' | unfold pool_share; nia].
    + replace (pool_share (m + 1) j) with (pool_share m j); [auto |].
      unfold pool_share. word_lia.
Qed.

Lemma block_filled_at_exhausted n blk :
  block_filled_at n block_size blk -> blk = exhausted_block_at n.
Proof.
  intros ((Hptr & H0 & Hin & Hlen & Hpwf) & Hbits & Hpools).
  pose proof pool_size_pos as Hps. pose proof word_bits_pos.
  pose proof pools_in_block_eq as Hpib. unfold block_size in *.
  assert (Hu : unmaxed_pools blk = 0).
  { apply in_word_ext; [exact Hin | apply in_word_0 |].
    intros j Hj. rewrite Hbits, Z.bits_0 by lia. cmp_cases; nia. }
  assert (Hp : forall i, 0 <= i < pools_in_block ->
            pool_at blk i = exhausted_pool).
  { intros i Hi. apply filled_exhausted.
    replace pool_size with (pool_share (pools_in_block * pool_size) i) at 1;
      [auto | unfold pool_share; nia]. }
  destruct blk as [a u l]. simpl in *. unfold exhausted_block_at.
  f_equal; auto.
  apply list_eq. intros j.
  destruct (Nat.lt_ge_cases j (Z.to_nat pools_in_block)) as [Hlt|Hge].
  - rewrite lookup_replicate_2 by lia.
    specialize (Hp (Z.of_nat j) ltac:(lia)). unfold pool_at in Hp.
    simpl in Hp. rewrite Nat2Z.id in Hp.
    destruct (lookup_lt_is_Some_2 l j) as [q Hl]; [lia |].
    rewrite Hl in Hp |- *. simpl in Hp. now subst.
  - rewrite !lookup_ge_None_2; [reflexivity | | lia].
    rewrite length_replicate. lia.
Qed.

(** The block appended by [allocate] has handed out one slot. *)
Lemma fresh_block_filled_one n p' :
  malloc n <> 0 -> filled 1 p' ->
  block_filled_at n 1
    {| ptr := malloc n; unmaxed_pools := all_ones;
       pools := <[0%nat := p']>
                  (replicate (Z.to_nat pools_in_block) pool_init) |}.
Proof.
  intros Hn Hfill. pose proof pool_size_pos as Hps.
  pose proof word_bits_pos as Hpos. pose proof pools_in_block_eq as Hpib.
  set (blk := {| ptr := malloc n; unmaxed_pools := all_ones;
                 pools := <[0%nat := p']>
                            (replicate (Z.to_nat pools_in_block) pool_init) |}).
  assert (Hpat : forall j, 0 <= j < pools_in_block ->
            pool_at blk j = if j =? 0 then p' else pool_init).
  { intros j Hj. unfold blk. change 0%nat with (Z.to_nat 0).
    rewrite (pool_at_insert _ _ all_ones) by (rewrite ?length_replicate; lia).
    destruct (j =? 0); [reflexivity |].
    apply (pool_at_fresh n j Hj). }
  split; [| split].
  - split; [reflexivity | split; [exact Hn | split; [| split]]].
    + apply all_ones_in_word.
    + unfold blk; simpl. now rewrite length_insert, length_replicate.
    + intros j Hj. rewrite Hpat by auto.
      destruct (j =? 0); [apply Hfill | apply pool_init_wf].
  - intros j Hj. simpl. rewrite testbit_all_ones. cmp_cases; nia.
  - intros j Hj. rewrite Hpat by auto.
    destruct (Z.eqb_spec j 0) as [->|Hne].
    + replace (pool_share 1 0) with 1; [exact Hfill |].
      unfold pool_share. word_lia.
    + replace (pool_share 1 j) with 0; [apply pool_init_filled |].
      unfold pool_share. word_lia.
Qed.

(** One allocate of the run. *)
Lemma mp_filled_step debug k mp :
  0 <= k -> mp_filled k mp -> granted (Z.to_nat (k / block_size)) ->
  exists mp',
    allocate debug 1 mp =
      Return (slot_addr (Z.to_nat (k / block_size))
                (k mod block_size / pool_size) (k mod pool_size)) mp' /\
    mp_filled (k + 1) mp'.
Proof.
  intros Hk (blk & Hmp & Hfill) Hg.
  pose proof pool_size_pos as Hps. pose proof word_bits_pos as Hpos.
  set (B := Z.to_nat ((k - 1) / block_size)) in *.
  set (r := k - Z.of_nat B * block_size) in *.
  set (pre := map exhausted_block_at (seq 0 B)) in *.
  assert (Hpre : length pre = B)
    by (unfold pre; now rewrite length_map, length_seq).
  assert (Hlen : length mp = S B).
  { rewrite Hmp, length_app, Hpre. simpl. lia. }
  assert (Hblk : mp !! B = Some blk).
  { rewrite Hmp, lookup_app_r, Hpre, Nat.sub_diag by lia. reflexivity. }
  assert (Hr : 0 <= r <= block_size) by (unfold r, B; word_div_lia).
  unfold allocate. simpl andb. rewrite andb_false_r, Hlen.
  destruct (Z.eq_dec r block_size) as [Hfull|Hroom].
  - rewrite Hfull in Hfill. apply block_filled_at_exhausted in Hfill.
    subst blk.
    assert (Hall : forall b, In b mp -> unmaxed_pools b = 0).
    { intros b Hb. rewrite Hmp in Hb. apply in_app_iff in Hb.
      destruct Hb as [Hb|[<-|[]]]; [| reflexivity].
      unfold pre in Hb. apply in_map_iff in Hb as (j & <- & _). reflexivity. }
    rewrite <- Hlen, (allocate_loop_exhausted mp Hall) by lia.
    assert (HB1 : Z.to_nat (k / block_size) = S B)
      by (unfold r, B in *; word_div_lia).
    rewrite HB1, <- Hlen in Hg.
    destruct (allocate_fresh_eq mp Hg) as (p' & Ha & Hfill1).
    rewrite Ha. eexists. split.
    + f_equal. rewrite Hlen, HB1.
      replace (k mod block_size / pool_size) with 0
        by (unfold r, B in *; word_div_lia).
      replace (k mod pool_size) with 0
        by (unfold r, B in *; word_div_lia).
      reflexivity.
    + assert (HB' : Z.to_nat ((k + 1 - 1) / block_size) = S B).
      { rewrite <- HB1. f_equal. f_equal. lia. }
      unfold mp_filled. rewrite HB'. eexists. split.
      * rewrite seq_S, map_app, Hlen, Hmp. reflexivity.
      * replace (k + 1 - Z.of_nat (S B) * block_size) with 1
          by (unfold r, B in *; word_div_lia).
        apply fresh_block_filled_one; [| exact Hfill1].
        rewrite Hlen in Hg. apply Hg.
  - destruct (allocate_in_filled mp B r blk) as (Hnz & blk' & Ha & Hfill');
      [lia | exact Hfill | exact Hblk |].
    simpl allocate_loop. rewrite Hblk.
    destruct (Z.eqb_spec (unmaxed_pools blk) 0); [contradiction |].
    rewrite Ha. eexists. split.
    + f_equal.
      replace (Z.to_nat (k / block_size)) with B
        by (unfold r, B in *; word_div_lia).
      f_equal; unfold r, B in *; word_div_lia.
    + assert (HB' : Z.to_nat ((k + 1 - 1) / block_size) = B)
        by (unfold r, B in *; word_div_lia).
      unfold mp_filled. rewrite HB'. exists blk'. split.
      * rewrite Hmp, insert_app_r_alt, Hpre, Nat.sub_diag by lia.
        reflexivity.
      * replace (k + 1 - Z.of_nat B * block_size) with (r + 1)
          by (unfold r; lia).
        exact Hfill'.
Qed.

Lemma mp_filled_initial : malloc 0 <> 0 -> mp_filled 0 [fresh_block 0].
Proof.
  intros H0.
  assert (HB : Z.to_nat ((0 - 1) / block_size) = 0%nat) by word_div_lia.
  unfold mp_filled. rewrite HB. exists (fresh_block 0).
  split; [reflexivity |]. exact (fresh_block_filled H0).
Qed.

Lemma allocate_n_filled debug (n : nat) :
  (forall m, (m <= Z.to_nat ((Z.of_nat n - 1) / block_size))%nat ->
     granted m) ->
  exists mp,
    allocate_n debug n [fresh_block 0] =
      Return (map (fun j => slot_addr (Z.to_nat (Z.of_nat j / block_size))
                              (Z.of_nat j mod block_size / pool_size)
                              (Z.of_nat j mod pool_size)) (seq 0 n)) mp /\
    mp_filled (Z.of_nat n) mp.
Proof.
  induction n as [|n IH]; intros Hg.
  - exists [fresh_block 0]. split; [reflexivity |].
    apply mp_filled_initial. apply (Hg 0%nat). lia.
  - destruct IH as (mp & Hrun & Hfill).
    { intros m Hm. apply Hg. revert Hm. word_div_lia. }
    destruct (mp_filled_step debug (Z.of_nat n) mp) as (mp' & Ha & Hfill');
      [lia | exact Hfill | |].
    { apply Hg. replace (Z.of_nat (S n) - 1) with (Z.of_nat n) by lia.
      lia. }
    exists mp'. replace (Z.of_nat (S n)) with (Z.of_nat n + 1) by lia.
    split; [| exact Hfill'].
    rewrite seq_S, map_app. simpl allocate_n. rewrite Hrun, Ha. reflexivity.
Qed.

(** X23. In a run of allocations from the construction, with no
    deallocation, allocation number [j] (counted from 0) returns slot
    [j mod (b*b)] of pool [(j mod (b*b*b)) / (b*b)] of block
    [j / (b*b*b)]: the blocks are filled one after the other, each in
    address order, and after [n >= 1] allocations the multi-pool has
    [(n - 1) / (b*b*b) + 1] blocks, each obtained when the blocks before
    it were used up. *)
Theorem allocation_order debug (n : nat) :
  (forall m, (m <= Z.to_nat ((Z.of_nat n - 1) / block_size))%nat ->
     granted m) ->
  exists mp,
    allocate_n debug n [fresh_block 0] =
      Return (map (fun j => slot_addr (Z.to_nat (Z.of_nat j / block_size))
                              (Z.of_nat j mod block_size / pool_size)
                              (Z.of_nat j mod pool_size)) (seq 0 n)) mp /\
    length mp = S (Z.to_nat ((Z.of_nat n - 1) / block_size)).
Proof.
  intros Hg. destruct (allocate_n_filled debug n Hg) as (mp & Hrun & Hfill).
  exists mp. split; [exact Hrun |].
  destruct Hfill as (blk & -> & _).
  rewrite length_app, length_map, length_seq. simpl. lia.
Qed.

(** ** deallocate into a full pool *)

(** X24. [deallocate] of a slot of a pool that is full, while another
    slot of the same bucket is still taken: the slot is freed and the bit
    of the pool in [unmaxed_pools] is set, but [unused_words] of the pool
    stays zero, so the pool is still full. If this block is then the
    last one that offers a pool and this pool its lowest one, the next
    [allocate(1)] is undefined. *)
Theorem deallocate_into_full_pool debug mp n blk i idx idx' :
  mp_wf mp -> mp !! n = Some blk ->
  0 <= i < pools_in_block -> 0 <= idx < pool_size ->
  pool_full (pool_at blk i) = true ->
  0 <= idx' < pool_size -> idx' <> idx ->
  idx' / word_bits = idx / word_bits ->
  pool_free (pool_at blk i) idx' = false ->
  exists mp' blk',
    deallocate debug (slot_addr n i idx) 1 mp = Return tt mp' /\
    mp' !! n = Some blk' /\
    Z.testbit (unmaxed_pools blk') i = true /\
    pool_full (pool_at blk' i) = true /\
    pool_free (pool_at blk' i) idx = true /\
    (lowest_set_bit (unmaxed_pools blk') i ->
     (forall j b, (n < j)%nat -> mp' !! j = Some b -> unmaxed_pools b = 0) ->
     allocate debug 1 mp' = Undefined).
Proof.
  intros Hwf Hblk Hi Hidx Hfull Hidx' Hne Hdiv Htaken.
  pose proof word_bits_pos as Hpos.
  destruct (Hwf n blk Hblk) as (Hptr & Hnz & Hin & Hlen & Hpools).
  assert (Hn : (n < length mp)%nat) by (eapply lookup_lt_Some; eauto).
  destruct (deallocate_at_slot debug 1 mp n blk i idx Hwf Hblk Hi Hidx)
    as (_ & _ & _ & pool' & blk' & Hpd & Hblk' & Hd & Hbit & _ & Hfree & _).
  assert (Hpa : pool_addr blk i = malloc n + i * sizeof_pool)
    by (unfold pool_addr; now rewrite Hptr).
  rewrite Hpa in Hpd. unfold slot_addr in Hpd.
  rewrite pool_deallocate_eq in Hpd by auto. injection Hpd as Hpool'.
  destruct (slot_coords idx Hidx) as (Hk & Hs).
  destruct (slot_coords idx' Hidx') as (Hk' & Hs').
  assert (Hw : set_bit (slot_word (pool_at blk i) (idx / word_bits))
                 (idx mod word_bits) <> all_ones).
  { intros Heq.
    assert (Hb : Z.testbit (set_bit (slot_word (pool_at blk i)
                                      (idx / word_bits))
                              (idx mod word_bits)) (idx' mod word_bits)
                 = false).
    { rewrite testbit_set_bit_word by (auto; apply Hpools; auto).
      unfold pool_free in Htaken. rewrite Hdiv in Htaken. rewrite Htaken.
      simpl. apply Z.eqb_neq. intros Hm. apply Hne.
      rewrite (Z.div_mod idx' word_bits), (Z.div_mod idx word_bits) by lia.
      now rewrite Hdiv, Hm. }
    rewrite Heq, testbit_all_ones in Hb.
    apply andb_false_iff in Hb.
    destruct Hb as [Hb|Hb]; [apply Z.leb_gt in Hb | apply Z.ltb_ge in Hb];
      lia. }
  assert (Hp' : pool_at blk' i = pool').
  { rewrite Hblk'. rewrite (pool_at_insert _ _ (unmaxed_pools blk)) by lia.
    now rewrite Z.eqb_refl. }
  assert (Hfull' : pool_full pool' = true).
  { rewrite <- Hpool'. unfold pool_full in Hfull |- *. simpl unused_words.
    apply Z.eqb_neq in Hw. rewrite Hw. exact Hfull. }
  assert (Hlk : <[n := blk']> mp !! n = Some blk')
    by (now apply list_lookup_insert_eq).
  exists (<[n := blk']> mp), blk'.
  split; [exact Hd | split; [exact Hlk |]].
  split; [exact Hbit | split; [now rewrite Hp' | split; [exact Hfree |]]].
  intros Hlow Hlater.
  unfold allocate. simpl andb. rewrite andb_false_r.
  rewrite (allocate_loop_skip _ n Hlater) by (rewrite length_insert; lia).
  simpl allocate_loop. rewrite Hlk.
  destruct (Z.eqb_spec (unmaxed_pools blk') 0) as [Hz|_];
    [now apply lowest_set_bit_nonzero in Hlow |].
  unfold allocate_in.
  assert (Hin' : in_word (unmaxed_pools blk'))
    by (rewrite Hblk'; apply set_bit_in_word).
  assert (Hlen' : length (pools blk') = Z.to_nat pools_in_block)
    by (rewrite Hblk'; simpl; now rewrite length_insert).
  rewrite (ctz_lowest _ i Hin' Hlow).
  rewrite (pool_at_lookup blk' i Hlen' Hi), Hp'.
  unfold pool_allocate. unfold pool_full in Hfull'.
  apply Z.eqb_eq in Hfull'. rewrite Hfull', ctz_zero. reflexivity.
Qed.

(** ** States in which allocate is defined *)

Lemma deallocate_keeps_sound debug mp n blk i idx :
  mp_inv mp -> mp_sound mp -> mp !! n = Some blk ->
  0 <= i < pools_in_block -> 0 <= idx < pool_size ->
  pool_full (pool_at blk i) = false ->
  exists mp',
    deallocate debug (slot_addr n i idx) 1 mp = Return tt mp' /\
    mp_inv mp' /\ mp_sound mp'.
Proof.
  intros Hinv Hsnd Hblk Hi Hidx Hnf.
  assert (Hwf : mp_wf mp) by (intros n' b' Hb'; apply (Hinv n' b' Hb')).
  destruct (Hwf n blk Hblk) as (Hptr & Hnz & Hin & Hlen & Hpools).
  assert (Hn : (n < length mp)%nat) by (eapply lookup_lt_Some; eauto).
  destruct (deallocate_good debug 1 mp n i idx Hinv Hn Hi Hidx)
    as (mp' & Hd & Hinv' & _).
  exists mp'. split; [exact Hd | split; [exact Hinv' |]].
  destruct (deallocate_at_slot debug 1 mp n blk i idx Hwf Hblk Hi Hidx)
    as (_ & _ & _ & pool' & blk' & Hpd & Hblk' & Hd' & _ & Hoth & _).
  rewrite Hd in Hd'. inversion Hd'; subst mp'. clear Hd'.
  assert (Hpa : pool_addr blk i = malloc n + i * sizeof_pool)
    by (unfold pool_addr; now rewrite Hptr).
  rewrite Hpa in Hpd. unfold slot_addr in Hpd.
  rewrite pool_deallocate_eq in Hpd by auto. injection Hpd as Hpool'.
  destruct (slot_coords idx Hidx) as (Hk & Hs).
  pose proof (Hpools i Hi) as (Hu & _).
  assert (Hnf' : pool_full pool' = false).
  { rewrite <- Hpool'. unfold pool_full in Hnf |- *. simpl unused_words.
    destruct (_ =? all_ones); [| exact Hnf].
    apply Z.eqb_neq. intros Hz.
    assert (Hb : Z.testbit (set_bit (unused_words (pool_at blk i))
                              (idx / word_bits)) (idx / word_bits) = true).
    { rewrite testbit_set_bit_word, Z.eqb_refl by auto. apply orb_true_r. }
    rewrite Hz, Z.bits_0 in Hb. discriminate. }
  assert (Hp' : pool_at blk' i = pool').
  { rewrite Hblk'. rewrite (pool_at_insert _ _ (unmaxed_pools blk)) by lia.
    now rewrite Z.eqb_refl. }
  intros n' b' Hb'. destruct (Nat.eq_dec n' n) as [->|Hne].
  - rewrite list_lookup_insert_eq in Hb' by auto. inversion Hb'; subst b'.
    intros j Hj Hbit. destruct (Z.eq_dec j i) as [->|Hji].
    + now rewrite Hp'.
    + destruct (Hoth j Hj Hji) as (Hbj & Hpj). rewrite Hpj.
      apply (Hsnd n blk Hblk j Hj). now rewrite <- Hbj.
  - rewrite list_lookup_insert_ne in Hb' by auto. eauto.
Qed.

(** X25. Call a state sound when every pool offered by a bit of
    [unmaxed_pools] is not full. The state after construction is sound;
    in a sound state of the right shape [allocate(1)] returns the address
    of a slot that was free whenever [new_block] gets its block, and
    leaves a sound state; [deallocate] of a slot of a pool that is not
    full returns and leaves a sound state. So [allocate(1)] can only
    become undefined after a [deallocate] into a full pool. *)
Theorem sound_states_closed debug :
  (granted 0 -> mp_inv [fresh_block 0] /\ mp_sound [fresh_block 0]) /\
  forall mp, mp_inv mp -> mp_sound mp ->
    (granted (length mp) ->
     exists n i idx mp',
       allocate debug 1 mp = Return (slot_addr n i idx) mp' /\
       free_bit mp n i idx = true /\ mp_inv mp' /\ mp_sound mp') /\
    (forall n blk i idx,
       mp !! n = Some blk ->
       0 <= i < pools_in_block -> 0 <= idx < pool_size ->
       pool_full (pool_at blk i) = false ->
       exists mp',
         deallocate debug (slot_addr n i idx) 1 mp = Return tt mp' /\
         mp_inv mp' /\ mp_sound mp').
Proof.
  split.
  - intros (_ & H0). split; [now apply initial_inv | apply initial_sound].
  - intros mp Hinv Hsnd. split.
    + intros Hg. destruct (allocate_good debug mp Hinv Hsnd Hg)
        as (n & i & idx & mp' & Ha & _ & _ & _ & Hinv' & Hsnd' & _ & Hfree & _).
      exists n, i, idx, mp'. auto.
    + intros n blk i idx Hblk Hi Hidx Hnf.
      now apply (deallocate_keeps_sound debug mp n blk i idx).
Qed.

End Allocator.

(** * The instance [multi_pool_t<uint64_t>] *)

Lemma u64_word_bits : 64 = 32 \/ 64 = 64.
Proof. right. reflexivity. Qed.

Lemma u64_sizeof_T_pos : 0 < 8.
Proof. lia. Qed.

Lemma u64_data_offset_nonneg : 0 <= 520.
Proof. lia. Qed.

Lemma u64_data_in_pool : 520 + pool_size 64 * 8 <= 33288.
Proof. unfold pool_size. lia. Qed.

Lemma u64_heap_range n :
  u64_heap n <> 0 ->
  0 < u64_heap n /\ u64_heap n + pools_in_block 64 * 33288 <= 2 ^ 64.
Proof.
  unfold u64_heap, pools_in_block.
  destruct (Nat.ltb_spec n 4); [lia | congruence].
Qed.

Lemma u64_heap_fresh n m :
  n <> m -> u64_heap n <> 0 -> u64_heap m <> 0 ->
  u64_heap n + pools_in_block 64 * 33288 <= u64_heap m \/
  u64_heap m + pools_in_block 64 * 33288 <= u64_heap n.
Proof.
  unfold u64_heap, pools_in_block.
  destruct (Nat.ltb_spec n 4), (Nat.ltb_spec m 4); try congruence. lia.
Qed.

Lemma u64_granted n : (n <= 3)%nat -> granted u64_heap u64_push_back n.
Proof.
  intros Hn. split; [reflexivity |].
  unfold u64_heap. destruct (Nat.ltb_spec n 4); lia.
Qed.

(** Witness of C1: the pool just initialised, at address 65536. *)
Lemma pool_allocate_lowest_bits_witness :
  pool_full (pool_init 64) = false /\
  exists k s p',
    lowest_set_bit 64 (unused_words (pool_init 64)) k /\
    lowest_set_bit 64 (slot_word (pool_init 64) k) s /\
    pool_allocate 64 8 520 65536 (pool_init 64) =
      Some (data_addr 8 520 65536 (k * 64 + s), p').
Proof.
  split; [reflexivity |].
  destruct (pool_reachable_ok 64 8 520 u64_word_bits u64_sizeof_T_pos 65536
              (pool_init 64) [] (pool_reach_init 64 8 520 65536))
    as (Hwf & Hsound & _).
  destruct (pool_allocate_lowest_bits 64 8 520 u64_word_bits 65536
              (pool_init 64) Hwf Hsound eq_refl)
    as (k & s & p' & Hk & Hs & Ha & _).
  exists k, s, p'. auto.
Defined.

(** Witness of C7: all 4096 slots of a pool at address 65536. *)
Lemma pool_capacity_exact_witness :
  exists p,
    pool_allocate_n 64 8 520 (Z.to_nat 4096) 65536 (pool_init 64) =
      Some (map (fun i => data_addr 8 520 65536 (Z.of_nat i))
              (seq 0 (Z.to_nat 4096)), p) /\
    pool_full p = true /\
    pool_allocate 64 8 520 65536 p = None.
Proof.
  destruct (pool_capacity_exact 64 8 520 u64_word_bits 65536 (Z.to_nat 4096))
    as (p & Hrun & Hfull & Hnone).
  - rewrite Z2Nat.id by lia. unfold pool_size. lia.
  - exists p. split; [exact Hrun | split].
    + rewrite Hfull. rewrite Z2Nat.id by lia. reflexivity.
    + apply Hnone. rewrite Z2Nat.id by lia. reflexivity.
Defined.

(** Witness of C4: the pointer of the first allocation. *)
Lemma deallocate_owner_witness :
  exists mp p n blk',
    reachable 64 8 520 33288 u64_heap u64_push_back false mp [p] /\
    deallocate 64 8 520 33288 false p 1 mp = Return tt (<[n := blk']> mp).
Proof.
  destruct (allocate_good 64 8 520 33288 u64_heap u64_push_back u64_word_bits
              false [fresh_block 64 u64_heap 0])
    as (n0 & i0 & idx0 & mp & Ha & _).
  - apply initial_inv; [exact u64_word_bits | discriminate].
  - apply initial_sound, u64_word_bits.
  - apply u64_granted. simpl. lia.
  - assert (Hr : reachable 64 8 520 33288 u64_heap u64_push_back false mp
                   [slot_addr 8 520 33288 u64_heap n0 i0 idx0]).
    { eapply reach_allocate; [| exact Ha].
      apply reach_new, multi_pool_new_eq, u64_granted. lia. }
    destruct (deallocate_owner 64 8 520 33288 u64_heap u64_push_back
                u64_word_bits u64_sizeof_T_pos u64_data_offset_nonneg
                u64_data_in_pool u64_heap_range u64_heap_fresh false 1 mp _ _
                Hr (or_introl eq_refl))
      as (n & blk & i & idx & _ & _ & _ & _ & _ & _ & _ & pool' & blk'
            & _ & _ & Hd & _).
    exists mp, (slot_addr 8 520 33288 u64_heap n0 i0 idx0), n, blk'.
    split; [exact Hr | exact Hd].
Defined.

(** Witness of C9: three allocations, freed in reverse order. *)
Lemma allocate_deallocate_all_restores_witness :
  exists ps mp1,
    allocate_n 64 8 520 33288 u64_heap u64_push_back false 3
      [fresh_block 64 u64_heap 0] = Return ps mp1 /\
    length ps = 3%nat /\
    exists mp2,
      deallocate_all 64 8 520 33288 false (rev ps) mp1 = Return tt mp2 /\
      mp2 = map (fresh_block 64 u64_heap) (seq 0 (length mp1)).
Proof.
  destruct (allocate_deallocate_all_restores 64 8 520 33288 u64_heap
              u64_push_back u64_word_bits u64_sizeof_T_pos
              u64_data_offset_nonneg u64_data_in_pool u64_heap_range
              u64_heap_fresh false 3)
    as (ps & mp1 & _ & Hrun & Hlen & Hall).
  - intros n Hn. apply u64_granted. exact Hn.
  - destruct (Hall (rev ps) (Permutation_rev ps)) as (mp2 & Hd & He & _).
    exists ps, mp1. split; [exact Hrun | split; [exact Hlen |]].
    exists mp2. split; [exact Hd | exact He].
Defined.

(** Witness of C8: the 4097-th allocation. *)
Lemma fill_first_pool_witness :
  granted u64_heap u64_push_back 0 /\
  exists ps mp1 mp2,
    allocate_n 64 8 520 33288 u64_heap u64_push_back false
      (Z.to_nat (pool_size 64)) [fresh_block 64 u64_heap 0] = Return ps mp1 /\
    allocate 64 8 520 33288 u64_heap u64_push_back false 1 mp1 =
      Return (slot_addr 8 520 33288 u64_heap 0 1 0) mp2.
Proof.
  assert (Hg : granted u64_heap u64_push_back 0) by (apply u64_granted; lia).
  split; [exact Hg |].
  destruct (fill_first_pool 64 8 520 33288 u64_heap u64_push_back
              u64_word_bits u64_sizeof_T_pos false Hg)
    as (_ & _ & ps & mp1 & mp2 & Hrun & Ha & _).
  exists ps, mp1, mp2. split; [exact Hrun | exact Ha].
Defined.

(** Witness of C10: [allocate(7)] of a release build on the constructed
    multi-pool. *)
Lemma count_argument_ignored_witness :
  allocate 64 8 520 33288 u64_heap u64_push_back false 7
    [fresh_block 64 u64_heap 0] =
  allocate 64 8 520 33288 u64_heap u64_push_back false 1
    [fresh_block 64 u64_heap 0] /\
  alloc_good 64 8 520 33288 u64_heap [fresh_block 64 u64_heap 0]
    (allocate 64 8 520 33288 u64_heap u64_push_back false 7
       [fresh_block 64 u64_heap 0]).
Proof.
  destruct (count_argument_ignored 64 8 520 33288 u64_heap u64_push_back
              u64_word_bits u64_sizeof_T_pos u64_data_offset_nonneg
              u64_data_in_pool u64_heap_range u64_heap_fresh false 7 0
              [fresh_block 64 u64_heap 0]) as (H1 & _ & _ & _ & H5).
  split; [exact H1 |]. apply H5.
  - apply initial_inv; [exact u64_word_bits | discriminate].
  - apply initial_sound, u64_word_bits.
  - apply u64_granted. simpl. lia.
Defined.

Lemma one_block_granted : granted one_block_heap u64_push_back 0.
Proof. split; [reflexivity | discriminate]. Qed.

(** Witness of C5: the first block with every slot handed out, and a
    [malloc] that refuses a second block. *)
Lemma allocate_failure_not_surfaced_witness :
  one_block_heap 1 = 0 /\
  allocate 64 8 520 33288 one_block_heap u64_push_back false 1
    [exhausted_block 64 one_block_heap] = Undefined.
Proof.
  split; [reflexivity |].
  destruct (allocate_failure_not_surfaced 64 8 520 33288 one_block_heap
              u64_push_back u64_word_bits false
              [exhausted_block 64 one_block_heap]) as (_ & H).
  destruct H as (_ & Hz & _).
  - intros blk [<-|[]]. reflexivity.
  - apply Hz; reflexivity.
Defined.

(** C5 as worded, in the state reached by [64 * 64 * 64] allocations, with
    a [malloc] that refuses a second block: a new block is needed and
    refused, and the call neither returns a slot nor reports a failure. *)
Lemma allocate_refused_not_clean :
  (exists live,
     reachable 64 8 520 33288 one_block_heap u64_push_back false
       [exhausted_block 64 one_block_heap] live) /\
  (forall blk, In blk [exhausted_block 64 one_block_heap] ->
     unmaxed_pools blk = 0) /\
  one_block_heap (length [exhausted_block 64 one_block_heap]) = 0 /\
  ~ ((exists q mp',
        allocate 64 8 520 33288 one_block_heap u64_push_back false 1
          [exhausted_block 64 one_block_heap] = Return q mp') \/
     exists s,
       allocate 64 8 520 33288 one_block_heap u64_push_back false 1
         [exhausted_block 64 one_block_heap] = AllocFailure s).
Proof.
  split; [apply exhausted_block_reachable;
          [exact u64_word_bits | exact one_block_granted] |].
  split; [intros blk [<-|[]]; reflexivity | split; [reflexivity |]].
  assert (H : allocate 64 8 520 33288 one_block_heap u64_push_back false 1
                [exhausted_block 64 one_block_heap] = Undefined)
    by (vm_compute; reflexivity).
  rewrite H. intros [(q & mp' & Hq)|(s & Hq)]; discriminate.
Qed.

(** Witness of the run of C2, for a pool at address 65536. *)
Lemma pool_deallocate_breaks_P1_witness :
  exists p live,
    pool_reachable 64 8 520 65536 p live /\
    slot_word p 0 <> 0 /\ Z.testbit (unused_words p) 0 = false /\
    ~ P1 64 p.
Proof.
  destruct (pool_deallocate_breaks_P1 64 8 520 u64_word_bits u64_sizeof_T_pos
              65536) as (ps & p1 & p2 & live & _ & _ & _ & Hr & Hw & Hb & HP).
  exists p2, live.
  split; [exact Hr | split; [exact Hw | split; [exact Hb | exact HP]]].
Defined.

(** Witness of the run of C3. *)
Lemma deallocate_breaks_B1_witness :
  granted u64_heap u64_push_back 0 /\
  exists blk live,
    reachable 64 8 520 33288 u64_heap u64_push_back false [blk] live /\
    Z.testbit (unmaxed_pools blk) 0 = true /\
    pool_full (pool_at blk 0) = true /\
    allocate 64 8 520 33288 u64_heap u64_push_back false 1 [blk] = Undefined.
Proof.
  assert (Hg : granted u64_heap u64_push_back 0) by (apply u64_granted; lia).
  split; [exact Hg |].
  destruct (deallocate_breaks_B1 64 8 520 33288 u64_heap u64_push_back
              u64_word_bits u64_sizeof_T_pos u64_data_offset_nonneg
              u64_data_in_pool u64_heap_range u64_heap_fresh false Hg)
    as (ps & mp1 & blk & live & _ & _ & _ & _ & Hr & Hb & Hf & _ & Ha).
  exists blk, live.
  split; [exact Hr | split; [exact Hb | split; [exact Hf | exact Ha]]].
Defined.

(** Witness of the runs of C6. *)
Lemma reallocate_returns_other_slot_witness :
  granted u64_heap u64_push_back 0 /\
  exists mp0 live mp1 mp2 mp3,
    reachable 64 8 520 33288 u64_heap u64_push_back false mp0 live /\
    allocate 64 8 520 33288 u64_heap u64_push_back false 1 mp0 =
      Return (slot_addr 8 520 33288 u64_heap 0 0 63) mp1 /\
    deallocate 64 8 520 33288 false (slot_addr 8 520 33288 u64_heap 0 0 63) 1
      mp1 = Return tt mp2 /\
    allocate 64 8 520 33288 u64_heap u64_push_back false 1 mp2 =
      Return (slot_addr 8 520 33288 u64_heap 0 0 64) mp3 /\
    slot_addr 8 520 33288 u64_heap 0 0 64
      <> slot_addr 8 520 33288 u64_heap 0 0 63.
Proof.
  assert (Hg : granted u64_heap u64_push_back 0) by (apply u64_granted; lia).
  split; [exact Hg |].
  destruct (reallocate_returns_other_slot 64 8 520 33288 u64_heap
              u64_push_back u64_word_bits u64_sizeof_T_pos
              u64_data_offset_nonneg u64_data_in_pool u64_heap_range
              u64_heap_fresh false Hg)
    as ((mp0 & mp1 & mp2 & mp3 & live & Hr & Ha1 & Hd & Ha2 & Hne) & _).
  exists mp0, live, mp1, mp2, mp3.
  split; [exact Hr | split; [exact Ha1 | split; [exact Hd |]]].
  split; [exact Ha2 | exact Hne].
Defined.

(** * The further properties at [multi_pool_t<uint64_t>] *)

Ltac u64_side :=
  first [ exact u64_word_bits | exact u64_sizeof_T_pos
        | exact u64_data_offset_nonneg | exact u64_data_in_pool
        | exact u64_heap_range | exact u64_heap_fresh ].

Ltac u64_instance H :=
  repeat match type of H with
         | ?A -> _ => specialize (H ltac:(u64_side))
         end.

Lemma one_block_heap_range n :
  one_block_heap n <> 0 ->
  0 < one_block_heap n /\ one_block_heap n + pools_in_block 64 * 33288 <= 2 ^ 64.
Proof.
  unfold one_block_heap, pools_in_block.
  destruct (Nat.eqb_spec n 0); [lia | congruence].
Qed.

Lemma one_block_heap_fresh n m :
  n <> m -> one_block_heap n <> 0 -> one_block_heap m <> 0 ->
  one_block_heap n + pools_in_block 64 * 33288 <= one_block_heap m \/
  one_block_heap m + pools_in_block 64 * 33288 <= one_block_heap n.
Proof.
  unfold one_block_heap.
  destruct (Nat.eqb_spec n 0), (Nat.eqb_spec m 0); congruence.
Qed.

Lemma u64_in_word_40 : in_word 64 40.
Proof. unfold in_word. lia. Qed.

Lemma u64_in_word_5 : in_word 64 5.
Proof. unfold in_word. lia. Qed.

(** The constructed multi-pool and its first two allocations. *)
Lemma u64_reach_new :
  reachable 64 8 520 33288 u64_heap u64_push_back false
    [fresh_block 64 u64_heap 0] [].
Proof. apply reach_new, multi_pool_new_eq, u64_granted. lia. Qed.

Lemma u64_allocate_twice :
  exists mp1 mp2,
    allocate 64 8 520 33288 u64_heap u64_push_back false 1
      [fresh_block 64 u64_heap 0] = Return 66056 mp1 /\
    allocate 64 8 520 33288 u64_heap u64_push_back false 1 mp1
      = Return 66064 mp2 /\
    length mp1 = 1%nat.
Proof.
  do 2 eexists. split; [vm_compute; reflexivity |].
  split; [vm_compute; reflexivity | reflexivity].
Qed.

Lemma u64_allocate_deallocate :
  exists mp1 mp2,
    allocate 64 8 520 33288 u64_heap u64_push_back false 1
      [fresh_block 64 u64_heap 0] = Return 66056 mp1 /\
    deallocate 64 8 520 33288 false 66056 1 mp1 = Return tt mp2.
Proof.
  do 2 eexists. split; [vm_compute; reflexivity |].
  vm_compute. reflexivity.
Qed.

Lemma u64_reach_first :
  exists mp1,
    allocate 64 8 520 33288 u64_heap u64_push_back false 1
      [fresh_block 64 u64_heap 0] = Return 66056 mp1 /\
    reachable 64 8 520 33288 u64_heap u64_push_back false mp1 [66056].
Proof.
  destruct u64_allocate_twice as (mp1 & _ & Ha & _).
  exists mp1. split; [exact Ha |].
  eapply reach_allocate; [apply u64_reach_new | exact Ha].
Qed.

(** A pool at address 65536, its first allocation and the deallocation
    of the pointer. *)
Lemma u64_pool_allocate_deallocate :
  exists p1 p2,
    pool_allocate 64 8 520 65536 (pool_init 64) = Some (66056, p1) /\
    pool_deallocate 64 8 520 65536 66056 p1 = Some p2.
Proof.
  do 2 eexists. split; [vm_compute; reflexivity |].
  vm_compute. reflexivity.
Qed.

Lemma u64_pool_reach_first :
  exists p1,
    pool_allocate 64 8 520 65536 (pool_init 64) = Some (66056, p1) /\
    pool_reachable 64 8 520 65536 p1 [66056].
Proof.
  destruct u64_pool_allocate_deallocate as (p1 & _ & Ha & _).
  exists p1. split; [exact Ha |].
  eapply pool_reach_allocate; [apply pool_reach_init | reflexivity | exact Ha].
Qed.

(** Witness of X1: the word 40 = 0b101000. *)
Lemma ctz_finds_lowest_set_bit_witness :
  exists k, ctz 64 40 = Some k /\ 0 <= k < 64 /\ Z.testbit 40 k = true /\
            (forall j, 0 <= j < k -> Z.testbit 40 j = false) /\
            test_bit 64 40 k = true.
Proof.
  apply (ctz_finds_lowest_set_bit 64 u64_word_bits 40 u64_in_word_40).
  lia.
Defined.

(** Witness of X2: bit 1 of the word 5. *)
Lemma set_clear_test_bit_witness :
  in_word 64 (set_bit 64 5 1) /\ in_word 64 (clear_bit 64 5 1) /\
  test_bit 64 (set_bit 64 5 1) 1 = test_bit 64 5 1 || (1 =? 1) /\
  test_bit 64 (clear_bit 64 5 1) 1 = test_bit 64 5 1 && negb (1 =? 1).
Proof.
  apply (set_clear_test_bit 64 u64_word_bits 5 1 1 u64_in_word_5); lia.
Defined.

(** Witness of X3: bit 1 of the word 5. *)
Lemma set_clear_bit_round_trip_witness :
  clear_bit 64 (set_bit 64 5 1) 1 = 5 /\
  set_bit 64 (set_bit 64 5 1) 1 = set_bit 64 5 1.
Proof.
  destruct (set_clear_bit_round_trip 64 u64_word_bits 5 1 u64_in_word_5)
    as (H1 & _ & H3 & _); [lia |].
  split; [apply H1; reflexivity | exact H3].
Defined.

(** Witness of X18: the 8-bit word 40. *)
Lemma ctz_sub32_lowest_set_bit_witness :
  exists k, ctz_sub32 40 = Some k /\ 0 <= k < 8 /\ Z.testbit 40 k = true /\
            forall j, 0 <= j < k -> Z.testbit 40 j = false.
Proof. apply (ctz_sub32_lowest_set_bit 8 40); lia. Defined.

(** Witness of X19: the word [2^32] with a 32-bit [unsigned long]. *)
Lemma ctz_gnuc_unsigned_long_witness :
  ctz_gnuc 64 32 (2 ^ 32) = None /\
  exists k, ctz 64 (2 ^ 32) = Some k /\ 32 <= k < 64.
Proof.
  assert (Hw : in_word 64 (2 ^ 32)) by (unfold in_word; lia).
  destruct (ctz_gnuc_unsigned_long 64 u64_word_bits 32 (2 ^ 32) Hw)
    as (_ & H).
  apply H; [reflexivity | reflexivity | lia | reflexivity].
Defined.

(** Witness of X20: a pool at address 65536 after 32 allocations. *)
Lemma pool_allocate_ctz_upper_half_witness :
  exists ps p,
    pool_allocate_n 64 8 520 32 65536 (pool_init 64) = Some (ps, p) /\
    pool_full p = false /\
    ctz 64 (unused_words p) = Some 0 /\
    ctz 64 (slot_word p 0) = Some (Z.of_nat 32) /\
    ctz_gnuc 64 32 (slot_word p 0) = None.
Proof.
  apply (pool_allocate_ctz_upper_half 64 8 520 u64_word_bits 65536 32);
    [reflexivity | simpl; lia].
Defined.

(** Witness of X4: the pool after its first allocation. *)
Lemma pool_live_slots_witness :
  exists p1,
    pool_reachable 64 8 520 65536 p1 [66056] /\
    forall idx, 0 <= idx < pool_size 64 ->
      (pool_free 64 p1 idx = false <->
       In (data_addr 8 520 65536 idx) [66056]).
Proof.
  destruct u64_pool_reach_first as (p1 & _ & Hr).
  exists p1. split; [exact Hr |].
  pose proof (pool_live_slots 64 8 520) as H. u64_instance H.
  exact (proj2 (proj2 (H 65536 p1 [66056] Hr))).
Defined.

(** Witness of X5: the pool just initialised. *)
Lemma pool_allocate_fresh_slot_witness :
  exists idx p',
    0 <= idx < pool_size 64 /\
    pool_allocate 64 8 520 65536 (pool_init 64)
      = Some (data_addr 8 520 65536 idx, p') /\
    ~ In (data_addr 8 520 65536 idx) [].
Proof.
  pose proof (pool_allocate_fresh_slot 64 8 520) as H. u64_instance H.
  destruct (H 65536 (pool_init 64) [] (pool_reach_init 64 8 520 65536)
              eq_refl) as (idx & p' & Hidx & Ha & Hn & _).
  exists idx, p'. auto.
Defined.

(** Witness of X6: the pool after one allocation and the deallocation of
    its pointer. *)
Lemma pool_all_returned_init_witness :
  exists p1 p2,
    pool_allocate 64 8 520 65536 (pool_init 64) = Some (66056, p1) /\
    pool_deallocate 64 8 520 65536 66056 p1 = Some p2 /\
    p2 = pool_init 64.
Proof.
  destruct u64_pool_allocate_deallocate as (p1 & p2 & Ha & Hd).
  exists p1, p2. split; [exact Ha | split; [exact Hd |]].
  pose proof (pool_all_returned_init 64 8 520) as H. u64_instance H.
  apply (H 65536 p2).
  apply (pool_reach_deallocate 64 8 520 65536 p1 [66056] 66056 p2);
    [| now left | exact Hd].
  eapply pool_reach_allocate; [apply pool_reach_init | reflexivity | exact Ha].
Defined.

(** Witness of X7: the first allocation of a pool. *)
Lemma pool_allocate_deallocate_round_trip_witness :
  exists p1 p2,
    pool_allocate 64 8 520 65536 (pool_init 64) = Some (66056, p1) /\
    pool_deallocate 64 8 520 65536 66056 p1 = Some p2 /\
    (p2 = pool_init 64 <-> unused_words p1 = unused_words (pool_init 64)).
Proof.
  destruct u64_pool_allocate_deallocate as (p1 & p2 & Ha & Hd).
  exists p1, p2. split; [exact Ha | split; [exact Hd |]].
  pose proof (pool_allocate_deallocate_round_trip 64 8 520) as H.
  u64_instance H.
  destruct (H 65536 (pool_init 64) 66056 p1
              (pool_init_wf 64 u64_word_bits) Ha) as (p3 & Hd3 & Hiff).
  rewrite Hd in Hd3. inversion Hd3; subst. exact Hiff.
Defined.

(** Witness of X9: the multi-pool after its first allocation. *)
Lemma multi_pool_live_slots_witness :
  exists mp1,
    reachable 64 8 520 33288 u64_heap u64_push_back false mp1 [66056] /\
    forall n i idx,
      (n < length mp1)%nat -> 0 <= i < pools_in_block 64 ->
      0 <= idx < pool_size 64 ->
      (free_bit 64 mp1 n i idx = false <->
       In (slot_addr 8 520 33288 u64_heap n i idx) [66056]).
Proof.
  destruct u64_reach_first as (mp1 & _ & Hr).
  exists mp1. split; [exact Hr |].
  pose proof (multi_pool_live_slots 64 8 520 33288 u64_heap u64_push_back)
    as H.
  u64_instance H.
  exact (proj2 (proj2 (H false mp1 [66056] Hr))).
Defined.

(** Witness of X10: the second allocation. *)
Lemma allocate_returns_fresh_slot_witness :
  exists mp1 mp2,
    reachable 64 8 520 33288 u64_heap u64_push_back false mp1 [66056] /\
    allocate 64 8 520 33288 u64_heap u64_push_back false 1 mp1
      = Return 66064 mp2 /\
    ~ In 66064 [66056] /\ 66064 <> 0.
Proof.
  destruct u64_allocate_twice as (mp1 & mp2 & Ha1 & Ha2 & _).
  assert (Hr : reachable 64 8 520 33288 u64_heap u64_push_back false mp1
                 [66056])
    by (eapply reach_allocate; [apply u64_reach_new | exact Ha1]).
  exists mp1, mp2. split; [exact Hr | split; [exact Ha2 |]].
  pose proof (allocate_returns_fresh_slot 64 8 520 33288 u64_heap
                u64_push_back) as H.
  u64_instance H.
  destruct (H false mp1 [66056] 66064 mp2 Hr Ha2) as (Hn & Hz & _).
  auto.
Defined.

(** Witness of X11: one allocation and the deallocation of its pointer. *)
Lemma multi_pool_all_returned_fresh_witness :
  exists mp1 mp2,
    allocate 64 8 520 33288 u64_heap u64_push_back false 1
      [fresh_block 64 u64_heap 0] = Return 66056 mp1 /\
    deallocate 64 8 520 33288 false 66056 1 mp1 = Return tt mp2 /\
    mp2 = map (fresh_block 64 u64_heap) (seq 0 (length mp2)).
Proof.
  destruct u64_allocate_deallocate as (mp1 & mp2 & Ha & Hd).
  exists mp1, mp2. split; [exact Ha | split; [exact Hd |]].
  pose proof (multi_pool_all_returned_fresh 64 8 520 33288 u64_heap
                u64_push_back) as H.
  u64_instance H.
  apply (H false mp2).
  apply (reach_deallocate 64 8 520 33288 u64_heap u64_push_back false
           mp1 [66056] 66056 mp2); [| now left | exact Hd].
  eapply reach_allocate; [apply u64_reach_new | exact Ha].
Defined.

(** Witness of X12: the null pointer and the constructed multi-pool, in
    a debug build. *)
Lemma deallocate_never_asserts_witness :
  deallocate 64 8 520 33288 true 0 1 [fresh_block 64 u64_heap 0] =
  deallocate 64 8 520 33288 false 0 1 [fresh_block 64 u64_heap 0] /\
  deallocate 64 8 520 33288 true 0 1 [fresh_block 64 u64_heap 0]
    <> AssertFailed.
Proof.
  pose proof (deallocate_never_asserts 64 8 520 33288) as H.
  u64_instance H.
  destruct (H true 0 1 [fresh_block 64 u64_heap 0]) as (H1 & H2 & _).
  auto.
Defined.

(** Witness of X13: the null pointer and the constructed multi-pool. *)
Lemma deallocate_foreign_pointer_witness :
  deallocate 64 8 520 33288 false 0 1 [fresh_block 64 u64_heap 0] =
  Return tt [fresh_block 64 u64_heap 0].
Proof.
  pose proof (deallocate_foreign_pointer 64 8 520 33288 u64_heap) as H.
  u64_instance H.
  apply H.
  - intros n blk Hb.
    apply (initial_inv 64 u64_heap u64_word_bits ltac:(discriminate) n blk Hb).
  - lia.
  - intros n Hn. simpl in Hn. left.
    destruct n as [|n]; [reflexivity | lia].
Defined.

(** Witness of X8: the pointer of the first allocation. *)
Lemma deallocate_twice_witness :
  exists mp mp1,
    reachable 64 8 520 33288 u64_heap u64_push_back false mp [66056] /\
    deallocate 64 8 520 33288 false 66056 1 mp = Return tt mp1 /\
    deallocate 64 8 520 33288 false 66056 1 mp1 = Return tt mp1.
Proof.
  destruct u64_reach_first as (mp & _ & Hr).
  pose proof (deallocate_twice 64 8 520 33288 u64_heap u64_push_back) as H.
  u64_instance H.
  destruct (H false mp [66056] 66056 Hr ltac:(now left)) as (mp1 & H1 & H2).
  exists mp, mp1. auto.
Defined.

(** Witness of X14: a fresh first block with a used-up second block
    behind it. *)
Lemma allocate_last_offering_block_witness :
  exists i idx mp',
    lowest_set_bit 64 (unmaxed_pools (fresh_block 64 u64_heap 0)) i /\
    0 <= idx < pool_size 64 /\
    allocate 64 8 520 33288 u64_heap u64_push_back false 1
      [fresh_block 64 u64_heap 0; exhausted_block_at 64 u64_heap 1]
      = Return (slot_addr 8 520 33288 u64_heap 0 i idx) mp' /\
    length mp' = 2%nat.
Proof.
  pose proof (allocate_last_offering_block 64 8 520 33288 u64_heap
                u64_push_back) as H.
  u64_instance H.
  destruct (H false
              [fresh_block 64 u64_heap 0; exhausted_block_at 64 u64_heap 1]
              0%nat (fresh_block 64 u64_heap 0))
    as (i & Hi & Hret & _).
  - intros n blk Hb. destruct n as [|[|n]]; simpl in Hb;
      [| | discriminate]; inversion Hb; subst.
    + apply fresh_block_inv; [exact u64_word_bits | discriminate].
    + apply exhausted_block_at_inv; [exact u64_word_bits | discriminate].
  - reflexivity.
  - discriminate.
  - intros j blk' Hj Hb. destruct j as [|[|j]];
      [lia | inversion Hb; reflexivity | discriminate].
  - destruct Hret as (idx & mp' & Hidx & Ha & Hlen & _).
    + rewrite pool_at_fresh by (destruct Hi; assumption).
      apply pool_init_not_full, u64_word_bits.
    + exists i, idx, mp'. auto.
Defined.

(** Witness of X15: a [malloc] that hands out a second block. *)
Lemma fill_first_block_witness :
  exists ps mp2,
    allocate_n 64 8 520 33288 u64_heap u64_push_back false
      (Z.to_nat (pools_in_block 64 * pool_size 64)) [fresh_block 64 u64_heap 0]
      = Return ps [exhausted_block 64 u64_heap] /\
    allocate 64 8 520 33288 u64_heap u64_push_back false 1
      [exhausted_block 64 u64_heap]
      = Return (slot_addr 8 520 33288 u64_heap 1 0 0) mp2 /\
    length mp2 = 2%nat.
Proof.
  pose proof (fill_first_block 64 8 520 33288 u64_heap u64_push_back) as H.
  u64_instance H.
  destruct (H false) as (_ & H2).
  - apply u64_granted. lia.
  - apply u64_granted. lia.
  - exact H2.
Defined.

(** Witness of X16: the multi-pool after its first allocation. *)
Lemma destructor_frees_each_block_once_witness :
  exists mp1,
    reachable 64 8 520 33288 u64_heap u64_push_back false mp1 [66056] /\
    multi_pool_delete mp1 = map u64_heap (seq 0 (length mp1)) /\
    ~ In 0 (multi_pool_delete mp1).
Proof.
  destruct u64_reach_first as (mp1 & _ & Hr).
  exists mp1. split; [exact Hr |].
  pose proof (destructor_frees_each_block_once 64 8 520 33288 u64_heap
                u64_push_back) as H.
  u64_instance H.
  destruct (H false mp1 [66056] Hr) as (H1 & _ & _ & H4). auto.
Defined.

(** Witness of X17: the first allocation. *)
Lemma allocate_deallocate_round_trip_witness :
  exists mp1,
    allocate 64 8 520 33288 u64_heap u64_push_back false 1
      [fresh_block 64 u64_heap 0]
      = Return (slot_addr 8 520 33288 u64_heap 0 0 0) mp1 /\
    deallocate 64 8 520 33288 false (slot_addr 8 520 33288 u64_heap 0 0 0) 1
      mp1 = Return tt [fresh_block 64 u64_heap 0].
Proof.
  destruct (first_allocation 64 8 520 33288 u64_heap u64_push_back
              u64_word_bits false ltac:(discriminate)) as (p' & Ha & Hfill).
  eexists. split; [exact Ha |].
  pose proof (allocate_deallocate_round_trip 64 8 520 33288 u64_heap
                u64_push_back) as H.
  u64_instance H.
  apply (H false [fresh_block 64 u64_heap 0] [] _ _ u64_reach_new Ha).
  - reflexivity.
  - apply first_allocation_same_unused; [exact u64_word_bits | exact Hfill].
Defined.

(** Witness of X21: the pointers of the first two allocations. *)
Lemma live_objects_disjoint_witness :
  exists mp2,
    reachable 64 8 520 33288 u64_heap u64_push_back false mp2
      [66064; 66056] /\
    (66064 + 8 <= 66056 \/ 66056 + 8 <= 66064).
Proof.
  destruct u64_allocate_twice as (mp1 & mp2 & Ha1 & Ha2 & _).
  assert (Hr : reachable 64 8 520 33288 u64_heap u64_push_back false mp2
                 [66064; 66056]).
  { eapply reach_allocate; [| exact Ha2].
    eapply reach_allocate; [apply u64_reach_new | exact Ha1]. }
  exists mp2. split; [exact Hr |].
  pose proof (live_objects_disjoint 64 8 520 33288 u64_heap u64_push_back)
    as H.
  u64_instance H.
  apply (H false mp2 [66064; 66056] 66064 66056 Hr);
    [now left | right; now left | discriminate].
Defined.

(** Witness of X22: the first block with every slot handed out, and a
    [malloc] that refuses a second block. *)
Lemma allocate_undefined_causes_witness :
  (exists m blk i,
     [exhausted_block 64 one_block_heap] !! m = Some blk /\
     (forall j blk', (m < j)%nat ->
        [exhausted_block 64 one_block_heap] !! j = Some blk' ->
        unmaxed_pools blk' = 0) /\
     lowest_set_bit 64 (unmaxed_pools blk) i /\
     pool_full (pool_at blk i) = true) \/
  ((forall blk, In blk [exhausted_block 64 one_block_heap] ->
      unmaxed_pools blk = 0) /\
   u64_push_back (length [exhausted_block 64 one_block_heap]) = true /\
   one_block_heap (length [exhausted_block 64 one_block_heap]) = 0).
Proof.
  destruct (exhausted_block_reachable 64 8 520 33288 one_block_heap
              u64_push_back u64_word_bits false one_block_granted)
    as (live & Hr).
  apply (proj1 (allocate_undefined_causes 64 8 520 33288 one_block_heap
                  u64_push_back u64_word_bits u64_sizeof_T_pos
                  u64_data_offset_nonneg u64_data_in_pool
                  one_block_heap_range one_block_heap_fresh false _ live Hr)).
  vm_compute. reflexivity.
Defined.

(** Witness of X23: the first three allocations. *)
Lemma allocation_order_witness :
  exists mp,
    allocate_n 64 8 520 33288 u64_heap u64_push_back false 3
      [fresh_block 64 u64_heap 0] = Return [66056; 66064; 66072] mp /\
    length mp = 1%nat.
Proof.
  pose proof (allocation_order 64 8 520 33288 u64_heap u64_push_back) as H.
  u64_instance H.
  apply (H false 3%nat).
  intros m Hm. apply u64_granted. vm_compute in Hm. lia.
Defined.

(** Witness of X24: pool 0 of the first block with every slot handed
    out, and the deallocation of its slot 0 while slot 1 is taken. *)
Lemma deallocate_into_full_pool_witness :
  exists p mp' blk',
    filled 64 (pool_size 64) p /\
    deallocate 64 8 520 33288 false (slot_addr 8 520 33288 u64_heap 0 0 0) 1
      [first_block 64 u64_heap (clear_bit 64 (all_ones 64) 0) p]
      = Return tt mp' /\
    mp' !! 0%nat = Some blk' /\
    Z.testbit (unmaxed_pools blk') 0 = true /\
    pool_full (pool_at blk' 0) = true.
Proof.
  pose proof (pool_allocate_n_filled 64 8 520) as Hp. u64_instance Hp.
  destruct (Hp 65536 (Z.to_nat (pool_size 64))) as (p & _ & Hfill).
  { rewrite Z2Nat.id by (unfold pool_size; lia). lia. }
  rewrite Z2Nat.id in Hfill by (unfold pool_size; lia).
  pose proof Hfill as (Hwf & _ & Hs).
  pose proof (deallocate_into_full_pool 64 8 520 33288 u64_heap
                u64_push_back) as H.
  u64_instance H.
  destruct (H false [first_block 64 u64_heap (clear_bit 64 (all_ones 64) 0) p]
              0%nat (first_block 64 u64_heap (clear_bit 64 (all_ones 64) 0) p)
              0 0 1)
    as (mp' & blk' & Hd & Hl & Hb & Hf & _).
  - apply first_block_wf;
      [exact u64_word_bits | discriminate
      | apply clear_bit_in_word, u64_word_bits | exact Hwf].
  - reflexivity.
  - unfold pools_in_block. lia.
  - unfold pool_size. lia.
  - rewrite pool_at_first_block by exact u64_word_bits.
    rewrite (filled_full 64 u64_word_bits (pool_size 64) p)
      by (auto; unfold pool_size; lia).
    reflexivity.
  - unfold pool_size. lia.
  - discriminate.
  - reflexivity.
  - rewrite pool_at_first_block by exact u64_word_bits.
    unfold pool_free. change (1 / 64) with 0. change (1 mod 64) with 1.
    rewrite Hs by lia. reflexivity.
  - exists p, mp', blk'. auto.
Defined.

(** Witness of X25: the constructed multi-pool. *)
Lemma sound_states_closed_witness :
  (exists n i idx mp',
     allocate 64 8 520 33288 u64_heap u64_push_back false 1
       [fresh_block 64 u64_heap 0]
       = Return (slot_addr 8 520 33288 u64_heap n i idx) mp' /\
     mp_inv 64 u64_heap mp' /\ mp_sound 64 mp') /\
  (exists mp',
     deallocate 64 8 520 33288 false (slot_addr 8 520 33288 u64_heap 0 0 0) 1
       [fresh_block 64 u64_heap 0] = Return tt mp' /\
     mp_inv 64 u64_heap mp' /\ mp_sound 64 mp').
Proof.
  pose proof (sound_states_closed 64 8 520 33288 u64_heap u64_push_back)
    as H.
  u64_instance H.
  destruct (H false) as (H0 & Hstep).
  destruct H0 as (Hinv & Hsnd); [apply u64_granted; lia |].
  destruct (Hstep [fresh_block 64 u64_heap 0] Hinv Hsnd) as (Ha & Hd).
  split.
  - destruct Ha as (n & i & idx & mp' & Ha & _ & Hinv' & Hsnd');
      [apply u64_granted; simpl; lia |].
    exists n, i, idx, mp'. auto.
  - apply (Hd 0%nat (fresh_block 64 u64_heap 0) 0 0);
      [reflexivity | unfold pools_in_block; lia | unfold pool_size; lia
      | reflexivity].
Defined.
